(** * Incremental scraping orchestration: pagination, consolidation,
      recovery and session control, verified over a shallow embedding

    Source files embedded here:
    - [backend/url_generator.py]               ([URLGenerator])
    - [backend/data_consolidation_service.py]  ([DataConsolidationService])
    - [backend/monitoring_service.py]          ([MonitoringService])
    - [backend/session_monitor.py]             ([SessionMonitor])

    Python values are modelled as follows.  A [str] is a list of
    characters with code points below 256 (Latin-1), which covers every
    URL and CSV text the claims speak about; [int] is [Z], and its
    conversions to and from decimal text ([int(s)], [str(n)] and an
    f-string field) raise [ValueError] beyond 4300 digits, the default
    limit of the interpreter; [float] is IEEE 754 binary64 with the operations rounded as the
    interpreter rounds them; a [dict] that is read by key is a [gmap]
    or, where insertion order is observable (CSV records), an
    association list; exceptions are an error sum.  The standard
    modules the code calls ([re], [csv], [json], [hashlib.md5]) are
    modelled for the calls made, as CPython 3.11 behaves, with the
    options the code leaves at their defaults. *)

From stdpp Require Import gmap strings list.
From Stdlib Require Import ZArith Ascii String List Bool Lia.
Import ListNotations.
Open Scope Z_scope.

(** ** Python strings *)

Definition str := list ascii.

Definition str_of_string (s : string) : str := list_ascii_of_string s.
Coercion str_of_string : string >-> str.

Definition chr (n : Z) : ascii := ascii_of_N (Z.to_N n).
Definition ord (c : ascii) : Z := Z.of_N (N_of_ascii c).

Definition in_range (lo hi : Z) (c : ascii) : bool :=
  (lo <=? ord c) && (ord c <=? hi).

(** [\d] of the [re] module on code points below 256: only ['0'..'9']. *)
Definition is_digit (c : ascii) : bool := in_range 48 57 c.

(** [str.isupper]-characters below 256, i.e. those changed by [lower()]. *)
Definition is_upper (c : ascii) : bool :=
  in_range 65 90 c || in_range 192 214 c || in_range 216 222 c.

(** [\w] on code points below 256: alphanumerics (in the sense of
    [str.isalnum], which includes the Latin-1 letters, superscript digits
    and vulgar fractions) and the underscore. *)
Definition is_word (c : ascii) : bool :=
  is_digit c || in_range 65 90 c || in_range 97 122 c || (ord c =? 95)
  || (ord c =? 170) || (ord c =? 181) || (ord c =? 186)
  || (ord c =? 178) || (ord c =? 179) || (ord c =? 185)
  || in_range 188 190 c
  || in_range 192 214 c || in_range 216 246 c || in_range 248 255 c.

Definition lower_char (c : ascii) : ascii :=
  if is_upper c then chr (ord c + 32) else c.

(** [str.lower()] *)
Definition lower (s : str) : str := map lower_char s.

Definition ascii_eqb (a b : ascii) : bool := Ascii.eqb a b.

Fixpoint str_eqb (a b : str) : bool :=
  match a, b with
  | [], [] => true
  | x :: a', y :: b' => ascii_eqb x y && str_eqb a' b'
  | _, _ => false
  end.

Fixpoint starts_with (p s : str) : bool :=
  match p, s with
  | [], _ => true
  | x :: p', y :: s' => ascii_eqb x y && starts_with p' s'
  | _ :: _, [] => false
  end.

(** [p in s] on strings: substring test. *)
Fixpoint str_in (p s : str) : bool :=
  starts_with p s ||
  match s with
  | [] => false
  | _ :: s' => str_in p s'
  end.

(** *** [int] to and from decimal text *)

Definition digit_char (d : Z) : ascii := chr (48 + d).
Definition digit_val (c : ascii) : Z := ord c - 48.

Fixpoint digits_aux (fuel : nat) (n : Z) (acc : str) : str :=
  match fuel with
  | O => acc
  | S fuel' =>
      let acc' := digit_char (n mod 10) :: acc in
      if n / 10 =? 0 then acc' else digits_aux fuel' (n / 10) acc'
  end.

(** Decimal digits of a non-negative integer, most significant first. *)
Definition digits_of (n : Z) : str :=
  digits_aux (S (Z.to_nat (Z.log2 n))) n [].

(** The decimal text of an integer. *)
Definition str_of_int (n : Z) : str :=
  if n <? 0 then "-"%char :: digits_of (- n) else digits_of n.

Definition int_of_digits (s : str) : Z :=
  fold_left (fun acc c => 10 * acc + digit_val c) s 0.

(** Python exceptions that the modelled code can raise. *)
Inductive exn :=
| ValueError | TypeError | AttributeError | CsvError
| OverflowError | ZeroDivisionError.

Inductive result (A : Type) :=
| Ok (a : A)
| Raise (e : exn).
Arguments Ok {A} a.
Arguments Raise {A} e.

Definition bind {A B} (r : result A) (k : A -> result B) : result B :=
  match r with
  | Ok a => k a
  | Raise e => Raise e
  end.

(** [sys.get_int_max_str_digits()]: the default limit on the number of
    digits that [int(s)] reads and [str(n)] writes. *)
Definition int_max_str_digits : Z := 4300.

(** The least magnitude whose decimal text is beyond that limit. *)
Definition int_str_bound : Z := 10 ^ int_max_str_digits.

(** [str(n)], also as the field [{n}] of an f-string: [ValueError] for
    an integer of more than 4300 digits. *)
Definition py_str (n : Z) : result str :=
  if Z.of_nat (length (digits_of (Z.abs n))) <=? int_max_str_digits
  then Ok (str_of_int n)
  else Raise ValueError.

(** Shape accepted by [int(s)] for the texts that reach it here (word
    characters only): decimal digits, optionally grouped by single
    underscores that stand between two digits. *)
Fixpoint int_literal_tail (s : str) : bool :=
  match s with
  | [] => true
  | c :: s' =>
      if is_digit c then int_literal_tail s'
      else if ascii_eqb c "_" then
        match s' with
        | d :: _ => is_digit d && int_literal_tail s'
        | [] => false
        end
      else false
  end.

Definition int_literal (s : str) : bool :=
  match s with
  | c :: _ => is_digit c && int_literal_tail s
  | [] => false
  end.

(** [int(s)] on a text of word characters: [ValueError] on anything
    that is not a literal and on a literal of more than 4300 digits
    (leading zeros count, underscores do not). *)
Definition py_int (s : str) : result Z :=
  let digits := filter (fun c => is_digit c) s in
  if int_literal s && (Z.of_nat (length digits) <=? int_max_str_digits)
  then Ok (int_of_digits digits)
  else Raise ValueError.

(** *** [int(s)] on arbitrary text

    Surrounding white space is dropped, a sign may precede the digits,
    and the digits may be grouped by single underscores; the limit on
    the number of digits applies as in [py_int]. *)

(** White space for [int]: the characters [str.isspace] knows below
    256, without the four separators 28..31. *)
Definition is_int_space (c : ascii) : bool :=
  in_range 9 13 c || (ord c =? 32) || (ord c =? 133) || (ord c =? 160).

Fixpoint drop_while (f : ascii -> bool) (s : str) : str :=
  match s with
  | c :: s' => if f c then drop_while f s' else s
  | [] => []
  end.

Definition py_int_text (s : str) : result Z :=
  let s := rev (drop_while is_int_space (rev (drop_while is_int_space s))) in
  let '(negative, body) :=
    match s with
    | c :: s' =>
        if ascii_eqb c "-" then (true, s')
        else if ascii_eqb c "+" then (false, s')
        else (false, s)
    | [] => (false, s)
    end in
  let digits := List.filter (fun c => is_digit c) body in
  if int_literal body && (Z.of_nat (length digits) <=? int_max_str_digits)
  then Ok (if negative then - int_of_digits digits else int_of_digits digits)
  else Raise ValueError.

(** ** A fragment of the [re] module

    Every regular expression of [url_generator.py] is a sequence of
    single-character items (a literal, a class such as [[?&]], [\d],
    [\w]) or greedy repetitions [class+], some of them inside a numbered
    capture group.  An [atom] is one such item tagged with the number of
    the group it belongs to (0: outside every group). *)

Inductive atom_kind :=
| One (f : ascii -> bool)
| Many1 (f : ascii -> bool).

Record atom := Atom { at_group : nat; at_kind : atom_kind }.

Definition regex := list atom.

(** Characters consumed by a match, each with the group of its atom. *)
Definition tagged := list (nat * ascii).

Definition add_tag (g : nat) (c : ascii) (r : option (tagged * str))
  : option (tagged * str) :=
  match r with
  | Some (m, rest) => Some ((g, c) :: m, rest)
  | None => None
  end.

(** Anchored match with backtracking: a repetition first tries to take
    one more character and gives it back when the rest of the pattern
    fails. *)
Fixpoint match_here (p : regex) : str -> option (tagged * str) :=
  match p with
  | [] => fun s => Some ([], s)
  | Atom g (One f) :: p' =>
      fun s =>
        match s with
        | c :: s' => if f c then add_tag g c (match_here p' s') else None
        | [] => None
        end
  | Atom g (Many1 f) :: p' =>
      fix many (s : str) : option (tagged * str) :=
        match s with
        | c :: s' =>
            if f c then
              match many s' with
              | Some r => add_tag g c (Some r)
              | None => add_tag g c (match_here p' s')
              end
            else None
        | [] => None
        end
  end.

Definition group (k : nat) (m : tagged) : str :=
  map snd (filter (fun gc => Nat.eqb (fst gc) k) m).

Definition matched_text (m : tagged) : str := map snd m.

Definition max_group (p : regex) : nat :=
  fold_right (fun a acc => Nat.max (at_group a) acc) 0%nat p.

(** [match.groups()] *)
Definition groups (p : regex) (m : tagged) : list str :=
  map (fun k => group k m) (seq 1 (max_group p)).

(** [re.search]: the leftmost position with a match. *)
Fixpoint search (p : regex) (s : str) : option tagged :=
  match match_here p s with
  | Some (m, _) => Some m
  | None =>
      match s with
      | [] => None
      | _ :: s' => search p s'
      end
  end.

(** Replacement templates: literal text and [\g<k>] references. *)
Inductive repl_item :=
| RText (t : str)
| RGroup (k : nat).

Definition template := list repl_item.

Definition expand (t : template) (m : tagged) : str :=
  flat_map (fun it => match it with
                      | RText s => s
                      | RGroup k => group k m
                      end) t.

(** [re.sub]: every non-overlapping match, scanning left to right, is
    replaced.  [skip] counts the characters of the current match that
    remain to be passed over (every pattern here consumes at least one
    character). *)
Fixpoint sub_from (p : regex) (t : template) (skip : nat) (s : str) : str :=
  match s with
  | [] => []
  | c :: s' =>
      match skip with
      | S k => sub_from p t k s'
      | O =>
          match match_here p s with
          | Some (m, _) =>
              expand t m ++ sub_from p t (Nat.pred (length m)) s'
          | None => c :: sub_from p t O s'
          end
      end
  end.

Definition re_sub (p : regex) (t : template) (s : str) : str :=
  sub_from p t O s.

(** *** Building patterns *)

Definition lit (g : nat) (s : str) : regex :=
  map (fun c => Atom g (One (ascii_eqb c))) s.

Definition is_sep (c : ascii) : bool :=
  ascii_eqb c "?" || ascii_eqb c "&".

Definition is_slash_dash (c : ascii) : bool :=
  ascii_eqb c "/" || ascii_eqb c "-".

(** ** [URLGenerator] (backend/url_generator.py) *)

Module URLGenerator.

(** [[?&]key=(\d+)] *)
Definition query_regex (key : str) : regex :=
  Atom 0 (One is_sep) :: lit 0 key ++ lit 0 "=" ++ [Atom 1 (Many1 is_digit)].

(** [PATTERNS], in the insertion order of the dictionary literal. *)
Definition PATTERNS : list (string * regex) :=
  [ ("query_page"%string, query_regex "page");
    ("query_p"%string, query_regex "p");
    ("query_offset"%string, query_regex "offset");
    ("query_start"%string, query_regex "start");
    ("path_page"%string,
      lit 0 "/page" ++ [Atom 0 (One is_slash_dash); Atom 1 (Many1 is_digit)]);
    ("path_p"%string, lit 0 "/p/" ++ [Atom 1 (Many1 is_digit)]);
    ("path_products"%string,
      lit 0 "/products/page"
        ++ [Atom 0 (One is_slash_dash); Atom 1 (Many1 is_digit)]);
    ("query_custom"%string,
      [Atom 0 (One is_sep); Atom 1 (Many1 is_word)] ++ lit 0 "="
        ++ [Atom 2 (Many1 is_digit)]) ].

(** The dictionary returned by [detect_pattern]. *)
Record pattern_info := PatternInfo {
  pattern_type : string;
  pattern_regex : option regex;
  current_page : Z;
  match_groups : list str
}.

Definition unknown_info : pattern_info :=
  PatternInfo "unknown" None 1 [].

(** The [for] loop of [detect_pattern] over the remaining patterns. *)
Fixpoint detect_loop (pats : list (string * regex)) (url_lower : str)
  : result pattern_info :=
  match pats with
  | [] => Ok unknown_info
  | (pattern_name, pattern_regex) :: pats' =>
      match search pattern_regex url_lower with
      | Some m =>
          (* [match.lastindex >= 1] holds for every pattern: each has a
             group and all groups take part in a match *)
          bind (py_int (group 1 m)) (fun page =>
            Ok (PatternInfo pattern_name (Some pattern_regex) page
                  (groups pattern_regex m)))
      | None => detect_loop pats' url_lower
      end
  end.

Definition detect_pattern (url : str) : result pattern_info :=
  let url_lower := lower url in
  detect_loop PATTERNS url_lower.

(** [re.sub(r'([?&]key=)\d+', rf'\g<1>{value}', url)]: the template is
    built first, so a [value] that [str] refuses raises before anything
    is rewritten. *)
Definition query_sub (key : str) (value : Z) (url : str) : result str :=
  bind (py_str value) (fun text =>
    Ok (re_sub (Atom 1 (One is_sep) :: lit 1 key ++ lit 1 "="
                  ++ [Atom 0 (Many1 is_digit)])
               [RGroup 1; RText text] url)).

(** [re.sub(pattern, f'{prefix}{value}', url)] for the path kinds. *)
Definition path_sub (pattern : regex) (prefix : str) (value : Z) (url : str)
  : result str :=
  bind (py_str value) (fun text =>
    Ok (re_sub pattern [RText (prefix ++ text)] url)).

(** [f"{url}{separator}page={next_page_number}"] *)
Definition append_page (url : str) (next_page_number : Z) : result str :=
  let separator : str := if str_in "?" url then "&" else "?" in
  bind (py_str next_page_number) (fun text =>
    Ok (url ++ separator ++ ("page=" : str) ++ text)).

(** The [try] block of [generate_next_url] once [pattern_info] is
    known.  For a [pattern_info] built by [detect_pattern] the only
    statement in it that can raise is the formatting of the number. *)
Definition generate_with (url : str) (next_page_number : Z)
    (info : pattern_info) : result str :=
  let pattern_type : str := pattern_type info in
  if str_in "query_page" pattern_type then
    query_sub "page" next_page_number url
  else if str_in "query_p" pattern_type then
    query_sub "p" next_page_number url
  else if str_in "query_offset" pattern_type then
    let offset := (next_page_number - 1) * 20 in
    query_sub "offset" offset url
  else if str_in "query_start" pattern_type then
    let start := (next_page_number - 1) * 20 in
    query_sub "start" start url
  else if str_in "path_page" pattern_type then
    path_sub (lit 0 "/page" ++ [Atom 0 (One is_slash_dash);
                                Atom 0 (Many1 is_digit)])
             "/page-" next_page_number url
  else if str_in "path_p" pattern_type then
    path_sub (lit 0 "/p/" ++ [Atom 0 (Many1 is_digit)])
             "/p/" next_page_number url
  else if str_in "path_products" pattern_type then
    path_sub (lit 0 "/products/page" ++ [Atom 0 (One is_slash_dash);
                                         Atom 0 (Many1 is_digit)])
             "/products/page-" next_page_number url
  else if str_eqb pattern_type "query_custom" then
    match match_groups info with
    | param_name :: _ =>
        (* [param_name] was matched by [\w+]: it has no regex
           metacharacter and stands for itself in the new pattern *)
        query_sub param_name next_page_number url
    | [] => Ok url
    end
  else
    bind (query_sub "page" next_page_number url) (fun result =>
      if negb (str_eqb result url) then Ok result
      else
        bind (query_sub "p" next_page_number url) (fun result =>
          if negb (str_eqb result url) then Ok result
          else append_page url next_page_number)).

(** [generate_next_url(url, next_page_number)] with [pattern_info] left
    at its default [None]: the pattern is detected first, outside the
    [try] block, so an exception of [detect_pattern] propagates; an
    exception inside the block is answered by the fallback of the
    [except] branch, which formats the number again. *)
Definition generate_next_url (url : str) (next_page_number : Z)
  : result str :=
  bind (detect_pattern url) (fun info =>
    match generate_with url next_page_number info with
    | Ok next_url => Ok next_url
    | Raise _ => append_page url next_page_number
    end).

(** [extract_page_number] *)
Definition extract_page_number (url : str) : result Z :=
  bind (detect_pattern url) (fun info => Ok (current_page info)).

End URLGenerator.

(** ** [hashlib.md5] (RFC 1321) on byte strings *)

Module MD5.

Definition w32 (x : Z) : Z := x mod 2 ^ 32.

Definition rotl (x : Z) (c : Z) : Z :=
  w32 (Z.lor (Z.shiftl x c) (Z.shiftr x (32 - c))).

Definition lnot32 (x : Z) : Z := Z.lxor x (2 ^ 32 - 1).

Definition K : list Z :=
  [ 3614090360; 3905402710; 606105819; 3250441966; 4118548399; 1200080426;
    2821735955; 4249261313; 1770035416; 2336552879; 4294925233; 2304563134;
    1804603682; 4254626195; 2792965006; 1236535329; 4129170786; 3225465664;
    643717713; 3921069994; 3593408605; 38016083; 3634488961; 3889429448;
    568446438; 3275163606; 4107603335; 1163531501; 2850285829; 4243563512;
    1735328473; 2368359562; 4294588738; 2272392833; 1839030562; 4259657740;
    2763975236; 1272893353; 4139469664; 3200236656; 681279174; 3936430074;
    3572445317; 76029189; 3654602809; 3873151461; 530742520; 3299628645;
    4096336452; 1126891415; 2878612391; 4237533241; 1700485571; 2399980690;
    4293915773; 2240044497; 1873313359; 4264355552; 2734768916; 1309151649;
    4149444226; 3174756917; 718787259; 3951481745 ].

Definition S : list Z :=
  [ 7; 12; 17; 22; 7; 12; 17; 22; 7; 12; 17; 22; 7; 12; 17; 22;
    5; 9; 14; 20; 5; 9; 14; 20; 5; 9; 14; 20; 5; 9; 14; 20;
    4; 11; 16; 23; 4; 11; 16; 23; 4; 11; 16; 23; 4; 11; 16; 23;
    6; 10; 15; 21; 6; 10; 15; 21; 6; 10; 15; 21; 6; 10; 15; 21 ].

Definition nthZ (l : list Z) (i : Z) : Z := nth (Z.to_nat i) l 0.

(** Little-endian bytes of [x], [n] of them. *)
Fixpoint le_bytes (n : nat) (x : Z) : list Z :=
  match n with
  | O => []
  | Datatypes.S n' => x mod 256 :: le_bytes n' (x / 256)
  end.

Fixpoint le_word (bs : list Z) : Z :=
  match bs with
  | [] => 0
  | b :: bs' => b + 256 * le_word bs'
  end.

Definition pad (msg : list Z) : list Z :=
  let len := Z.of_nat (length msg) in
  let zeros := (55 - len) mod 64 in
  msg ++ [128] ++ repeat 0 (Z.to_nat zeros) ++ le_bytes 8 ((8 * len) mod 2 ^ 64).

Fixpoint words (n : nat) (bs : list Z) : list Z :=
  match n with
  | O => []
  | Datatypes.S n' => le_word (firstn 4 bs) :: words n' (skipn 4 bs)
  end.

Definition round (M : list Z) (st : Z * Z * Z * Z) (i : Z) : Z * Z * Z * Z :=
  let '(A, B, C, D) := st in
  let '(F, g) :=
    if i <? 16 then (Z.lor (Z.land B C) (Z.land (lnot32 B) D), i)
    else if i <? 32 then
           (Z.lor (Z.land D B) (Z.land (lnot32 D) C), (5 * i + 1) mod 16)
    else if i <? 48 then (Z.lxor B (Z.lxor C D), (3 * i + 5) mod 16)
    else (Z.lxor C (Z.lor B (lnot32 D)), (7 * i) mod 16) in
  let F' := w32 (F + A + nthZ K i + nthZ M g) in
  (D, w32 (B + rotl F' (nthZ S i)), B, C).

Definition chunk (st : Z * Z * Z * Z) (bs : list Z) : Z * Z * Z * Z :=
  let M := words 16 bs in
  let '(a0, b0, c0, d0) := st in
  let '(A, B, C, D) :=
    fold_left (round M) (map Z.of_nat (seq 0 64)) st in
  (w32 (a0 + A), w32 (b0 + B), w32 (c0 + C), w32 (d0 + D)).

Fixpoint chunks (n : nat) (st : Z * Z * Z * Z) (bs : list Z) : Z * Z * Z * Z :=
  match n with
  | O => st
  | Datatypes.S n' => chunks n' (chunk st (firstn 64 bs)) (skipn 64 bs)
  end.

Definition digest (msg : list Z) : list Z :=
  let bs := pad msg in
  let '(a, b, c, d) :=
    chunks (length bs / 64)
           (1732584193, 4023233417, 2562383102, 271733878) bs in
  le_bytes 4 a ++ le_bytes 4 b ++ le_bytes 4 c ++ le_bytes 4 d.

Definition hex_digit (d : Z) : ascii :=
  if d <? 10 then chr (48 + d) else chr (87 + d).

(** [hashlib.md5(data).hexdigest()] *)
Definition hexdigest (data : str) : str :=
  flat_map (fun b => [hex_digit (b / 16); hex_digit (b mod 16)])
           (digest (map ord data)).

End MD5.

(** ** The [csv] module, [excel] dialect

    Delimiter [,], quote character [dquote], [doublequote=True],
    [strict=False], no escape character, line terminator [\r\n],
    [QUOTE_MINIMAL]. *)

Module Csv.

Definition dquote : ascii := chr 34.
Definition comma : ascii := ",".
Definition CR : ascii := chr 13.
Definition LF : ascii := chr 10.

Inductive parser_state :=
| START_RECORD | START_FIELD | IN_FIELD | IN_QUOTED_FIELD
| QUOTE_IN_QUOTED_FIELD | EAT_CRNL.

Definition state_eqb (a b : parser_state) : bool :=
  match a, b with
  | START_RECORD, START_RECORD | START_FIELD, START_FIELD
  | IN_FIELD, IN_FIELD | IN_QUOTED_FIELD, IN_QUOTED_FIELD
  | QUOTE_IN_QUOTED_FIELD, QUOTE_IN_QUOTED_FIELD | EAT_CRNL, EAT_CRNL => true
  | _, _ => false
  end.

(** The reader object: fields completed so far in the current record,
    the field being read, and the automaton state. *)
Record reader := Reader {
  fields : list str;
  field : str;
  state : parser_state
}.

Definition field_limit : Z := 131072.

Definition parse_save_field (r : reader) (st : parser_state) : reader :=
  Reader (fields r ++ [field r]) [] st.

Definition parse_add_char (r : reader) (c : ascii) (st : parser_state)
  : result reader :=
  if Z.of_nat (length (field r)) >=? field_limit then Raise CsvError
  else Ok (Reader (fields r) (field r ++ [c]) st).

Definition is_newline (c : ascii) : bool :=
  ascii_eqb c LF || ascii_eqb c CR.

(** [parse_process_char]; [None] is the end-of-line marker [EOL]. *)
Definition parse_process_char (r : reader) (c : option ascii)
  : result reader :=
  let start_field (r : reader) : result reader :=
    match c with
    | None => Ok (parse_save_field r START_RECORD)
    | Some ch =>
        if is_newline ch then Ok (parse_save_field r EAT_CRNL)
        else if ascii_eqb ch dquote then
          Ok (Reader (fields r) (field r) IN_QUOTED_FIELD)
        else if ascii_eqb ch comma then
          Ok (parse_save_field r START_FIELD)
        else parse_add_char r ch IN_FIELD
    end in
  match state r with
  | START_RECORD =>
      match c with
      | None => Ok r
      | Some ch =>
          if is_newline ch then Ok (Reader (fields r) (field r) EAT_CRNL)
          else start_field r
      end
  | START_FIELD => start_field r
  | IN_FIELD =>
      match c with
      | None => Ok (parse_save_field r START_RECORD)
      | Some ch =>
          if is_newline ch then Ok (parse_save_field r EAT_CRNL)
          else if ascii_eqb ch comma then Ok (parse_save_field r START_FIELD)
          else parse_add_char r ch IN_FIELD
      end
  | IN_QUOTED_FIELD =>
      match c with
      | None => Ok r
      | Some ch =>
          if ascii_eqb ch dquote then
            Ok (Reader (fields r) (field r) QUOTE_IN_QUOTED_FIELD)
          else parse_add_char r ch IN_QUOTED_FIELD
      end
  | QUOTE_IN_QUOTED_FIELD =>
      match c with
      | None => Ok (parse_save_field r START_RECORD)
      | Some ch =>
          if ascii_eqb ch dquote then parse_add_char r ch IN_QUOTED_FIELD
          else if ascii_eqb ch comma then Ok (parse_save_field r START_FIELD)
          else if is_newline ch then Ok (parse_save_field r EAT_CRNL)
          else parse_add_char r ch IN_FIELD
      end
  | EAT_CRNL =>
      match c with
      | None => Ok (Reader (fields r) (field r) START_RECORD)
      | Some ch => if is_newline ch then Ok r else Raise CsvError
      end
  end.

Fixpoint process_chars (r : reader) (line : str) : result reader :=
  match line with
  | [] => parse_process_char r None
  | c :: line' =>
      bind (parse_process_char r (Some c)) (fun r' => process_chars r' line')
  end.

Definition fresh : reader := Reader [] [] START_RECORD.

(** All rows produced by iterating [csv.reader(lines)] to exhaustion;
    the first error ends the iteration with an exception. *)
Fixpoint read_rows (r : reader) (lines : list str) : result (list (list str)) :=
  match lines with
  | [] =>
      if negb (Nat.eqb (length (field r)) 0)
         || state_eqb (state r) IN_QUOTED_FIELD
      then Ok [fields r ++ [field r]]
      else Ok []
  | line :: lines' =>
      bind (process_chars r line) (fun r' =>
        if state_eqb (state r') START_RECORD
        then bind (read_rows fresh lines') (fun rows => Ok (fields r' :: rows))
        else read_rows r' lines')
  end.

Definition reader_rows (lines : list str) : result (list (list str)) :=
  read_rows fresh lines.

(** A value stored in a [DictReader] row. *)
Inductive cell :=
| VStr (s : str)
| VNone
| VList (l : list str).

(** A row dictionary: keys in insertion order, each at most once; the
    key [None] is [DictReader]'s [restkey]. *)
Definition record := list (option str * cell).

Definition key_eqb (a b : option str) : bool :=
  match a, b with
  | None, None => true
  | Some x, Some y => str_eqb x y
  | _, _ => false
  end.

(** [d[k] = v] *)
Fixpoint dict_set (k : option str) (v : cell) (d : record) : record :=
  match d with
  | [] => [(k, v)]
  | (k', v') :: d' =>
      if key_eqb k k' then (k, v) :: d' else (k', v') :: dict_set k v d'
  end.

(** [d.get(k)] *)
Fixpoint dict_get (k : option str) (d : record) : option cell :=
  match d with
  | [] => None
  | (k', v) :: d' => if key_eqb k k' then Some v else dict_get k d'
  end.

(** [dict(zip(fieldnames, row))] *)
Fixpoint dict_zip (fieldnames row : list str) (d : record) : record :=
  match fieldnames, row with
  | f :: fs, x :: xs => dict_zip fs xs (dict_set (Some f) (VStr x) d)
  | _, _ => d
  end.

(** One step of [DictReader.__next__] on a non-blank row. *)
Definition row_to_dict (fieldnames row : list str) : record :=
  let d := dict_zip fieldnames row [] in
  let lf := length fieldnames in
  let lr := length row in
  if Nat.ltb lf lr then dict_set None (VList (skipn lf row)) d
  else if Nat.ltb lr lf then
    fold_left (fun d key => dict_set (Some key) VNone d) (skipn lr fieldnames) d
  else d.

Definition is_blank (row : list str) : bool :=
  match row with [] => true | _ => false end.

(** [reader = csv.DictReader(lines); records = list(reader);
    headers = reader.fieldnames]: the first row gives the field names,
    blank rows after it are passed over. *)
Definition DictReader (lines : list str)
  : result (option (list str) * list record) :=
  bind (reader_rows lines) (fun rows =>
    match rows with
    | [] => Ok (None, [])
    | fieldnames :: rows' =>
        Ok (Some fieldnames,
            map (row_to_dict fieldnames)
                (filter (fun row => negb (is_blank row)) rows'))
    end).

(** Text of one field as [csv.writer] emits it. *)
Definition needs_quote (c : ascii) : bool :=
  ascii_eqb c comma || ascii_eqb c dquote || ascii_eqb c CR || ascii_eqb c LF.

Definition write_field (alone : bool) (f : str) : str :=
  if existsb needs_quote f || (alone && Nat.eqb (length f) 0) then
    [dquote]
      ++ flat_map (fun c => if ascii_eqb c dquote then [dquote; dquote] else [c]) f
      ++ [dquote]
  else f.

Fixpoint join_fields (fs : list str) : str :=
  match fs with
  | [] => []
  | [f] => f
  | f :: fs' => f ++ [comma] ++ join_fields fs'
  end.

(** [writer.writerow(row)] *)
Definition writerow (row : list str) : str :=
  let alone := Nat.eqb (length row) 1 in
  join_fields (map (write_field alone) row) ++ [CR; LF].

(** [rowdict.get(key, restval)] as the writer prints it: [restval] is
    [''] and [None] is written as the empty field. *)
Definition field_text (rowdict : record) (key : str) : str :=
  match dict_get (Some key) rowdict with
  | Some (VStr s) => s
  | Some VNone => []
  | Some (VList _) => []   (* lists are stored under [None] only *)
  | None => []             (* [restval] *)
  end.

(** [DictWriter._dict_to_list] with [extrasaction='raise']. *)
Definition dict_to_list (fieldnames : list str) (rowdict : record)
  : result (list str) :=
  let wrong_fields :=
    filter (fun kv => negb (existsb (fun f => key_eqb (fst kv) (Some f)) fieldnames))
           rowdict in
  match wrong_fields with
  | _ :: _ => Raise ValueError
  | [] => Ok (map (field_text rowdict) fieldnames)
  end.

(** [writer.writeheader(); writer.writerows(rowdicts)] into a fresh
    [StringIO], followed by [getvalue()]. *)
Fixpoint writerows (fieldnames : list str) (rowdicts : list record)
  : result str :=
  match rowdicts with
  | [] => Ok []
  | d :: ds =>
      bind (dict_to_list fieldnames d) (fun row =>
        bind (writerows fieldnames ds) (fun rest => Ok (writerow row ++ rest)))
  end.

Definition DictWriter_dump (fieldnames : list str) (rowdicts : list record)
  : result str :=
  bind (writerows fieldnames rowdicts) (fun body =>
    Ok (writerow fieldnames ++ body)).

End Csv.

(** ** [json.dumps] on row dictionaries *)

Module Json.

Definition hex4 (n : Z) : str :=
  map MD5.hex_digit [n / 4096 mod 16; n / 256 mod 16; n / 16 mod 16; n mod 16].

(** One character of a JSON string with [ensure_ascii=True]. *)
Definition escape_char (c : ascii) : str :=
  let n := ord c in
  if n =? 34 then [chr 92; chr 34]
  else if n =? 92 then [chr 92; chr 92]
  else if n =? 10 then [chr 92; "n"%char]
  else if n =? 13 then [chr 92; "r"%char]
  else if n =? 9 then [chr 92; "t"%char]
  else if n =? 8 then [chr 92; "b"%char]
  else if n =? 12 then [chr 92; "f"%char]
  else if (32 <=? n) && (n <=? 126) then [c]
  else [chr 92; "u"%char] ++ hex4 n.

Definition dump_str (s : str) : str :=
  [chr 34] ++ flat_map escape_char s ++ [chr 34].

Fixpoint join (sep : str) (parts : list str) : str :=
  match parts with
  | [] => []
  | [x] => x
  | x :: parts' => x ++ sep ++ join sep parts'
  end.

Definition dump_cell (v : Csv.cell) : str :=
  match v with
  | Csv.VStr s => dump_str s
  | Csv.VNone => "null"%string
  | Csv.VList l => ("[" : str) ++ join ", "%string (map dump_str l) ++ ("]" : str)
  end.

Definition dump_key (k : option str) : str :=
  match k with
  | Some s => dump_str s
  | None => dump_str "null"%string
  end.

Definition dump_items (d : Csv.record) : str :=
  ("{" : str)
    ++ join ", "%string
         (map (fun kv => dump_key (fst kv) ++ (": " : str) ++ dump_cell (snd kv)) d)
    ++ ("}" : str).

(** [a < b] on [str]: lexicographic on code points. *)
Fixpoint str_ltb (a b : str) : bool :=
  match a, b with
  | _, [] => false
  | [], _ :: _ => true
  | x :: a', y :: b' =>
      if ord x <? ord y then true
      else if ord y <? ord x then false
      else str_ltb a' b'
  end.

Definition key_text (k : option str) : str :=
  match k with Some s => s | None => [] end.

Fixpoint insert_sorted (kv : option str * Csv.cell) (d : Csv.record)
  : Csv.record :=
  match d with
  | [] => [kv]
  | kv' :: d' =>
      if str_ltb (key_text (fst kv)) (key_text (fst kv'))
      then kv :: d
      else kv' :: insert_sorted kv d'
  end.

Definition sort_items (d : Csv.record) : Csv.record :=
  fold_right insert_sorted [] d.

Definition has_none_key (d : Csv.record) : bool :=
  existsb (fun kv => match fst kv with None => true | Some _ => false end) d.

(** [json.dumps(record, sort_keys=True, default=str)]: ordering the
    items compares the keys, and [None < str] is a [TypeError]. *)
Definition dumps_sorted (d : Csv.record) : result str :=
  if has_none_key d && Nat.ltb 1 (length d) then Raise TypeError
  else Ok (dump_items (sort_items d)).

(** [json.dumps(record)] *)
Definition dumps (d : Csv.record) : str := dump_items d.

End Json.

(** ** Python numbers: [int] and [float]

    A finite [float] is an IEEE 754 binary64 value, kept exactly as
    [mant * 2 ^ expo] with [mant] odd (or [0 * 2 ^ 0]); the sign of zero
    is not represented. *)

Module PyFloat.

Inductive float :=
| Finite (mant expo : Z)
| Infinity (negative : bool).

Fixpoint strip_twos (fuel : nat) (m e : Z) : Z * Z :=
  match fuel with
  | O => (m, e)
  | S fuel' => if Z.even m then strip_twos fuel' (m / 2) (e + 1) else (m, e)
  end.

Definition canon (m e : Z) : float :=
  if m =? 0 then Finite 0 0
  else let '(m', e') := strip_twos (Z.to_nat (Z.log2 (Z.abs m))) m e in
       Finite m' e'.

(** Exponent of the binary64 grid around a positive [n / d]. *)
Definition grid_exponent (n d : Z) : Z :=
  let k := Z.log2 n - Z.log2 d in
  let fl := if (if 0 <=? k then d * 2 ^ k <=? n else d <=? n * 2 ^ (- k))
            then k else k - 1 in
  Z.max (fl - 52) (- 1074).

(** The binary64 value nearest to [n / d] (ties to even) for [0 <= n],
    [0 < d], or [None] when it is beyond the largest finite value. *)
Definition nearest_pos (n d : Z) : option (Z * Z) :=
  if n =? 0 then Some (0, 0)
  else
    let e := grid_exponent n d in
    let num := if 0 <=? e then n else n * 2 ^ (- e) in
    let den := if 0 <=? e then d * 2 ^ e else d in
    let q := num / den in
    let r := num mod den in
    let m := if (den <? 2 * r) || ((2 * r =? den) && Z.odd q)
             then q + 1 else q in
    if 2 ^ 1024 <=? m * 2 ^ e then None else Some (m, e).

(** Correct rounding of the rational [n / d], [0 < d]. *)
Definition nearest (n d : Z) : float :=
  match nearest_pos (Z.abs n) d with
  | Some (m, e) => canon (Z.sgn n * m) e
  | None => Infinity (n <? 0)
  end.

(** [a / b] on [int]s: the correctly rounded quotient. *)
Definition int_truediv (a b : Z) : result float :=
  if b =? 0 then Raise ZeroDivisionError
  else
    match nearest (Z.sgn b * a) (Z.abs b) with
    | Infinity _ => Raise OverflowError
    | f => Ok f
    end.

(** [x * k] for a [float] and a non-zero [int] constant that is itself
    a [float] value (here: 100); a product beyond the range is an
    infinity, not an exception. *)
Definition mul_int (x : float) (k : Z) : float :=
  match x with
  | Finite m e =>
      if 0 <=? e then nearest (m * k * 2 ^ e) 1
      else nearest (m * k) (2 ^ (- e))
  | Infinity s => Infinity (xorb s (k <? 0))
  end.

(** Nearest integer to [n / d], ties to even, [0 < d]. *)
Definition round_half_even (n d : Z) : Z :=
  let q := n / d in
  let r := n mod d in
  if (d <? 2 * r) || ((2 * r =? d) && Z.odd q) then q + 1 else q.

(** [round(x, ndigits)] for [ndigits >= 0]: the exact value is rounded
    to [ndigits] decimals (half to even) and the decimal read back as
    a [float]. *)
Definition round_digits (x : float) (ndigits : Z) : result float :=
  match x with
  | Finite m e =>
      let p := 10 ^ ndigits in
      let t := if 0 <=? e then m * p * 2 ^ e
               else round_half_even (m * p) (2 ^ (- e)) in
      match nearest t p with
      | Infinity _ => Raise OverflowError
      | f => Ok f
      end
  | Infinity _ => Ok x
  end.

Inductive number :=
| PInt (z : Z)
| PFloat (f : float).

(** Exact value of a finite number as a fraction. *)
Definition num_den (x : number) : option (Z * Z) :=
  match x with
  | PInt z => Some (z, 1)
  | PFloat (Finite m e) =>
      Some (if 0 <=? e then (m * 2 ^ e, 1) else (m, 2 ^ (- e)))
  | PFloat (Infinity _) => None
  end.

(** [x == y] on finite numbers. *)
Definition num_eqb (x y : number) : bool :=
  match num_den x, num_den y with
  | Some (a, b), Some (c, d) => a * d =? c * b
  | _, _ => false
  end.

End PyFloat.

(** ** [DataConsolidationService] (backend/data_consolidation_service.py) *)

Module DataConsolidationService.

(** Characters removed by [str.strip()]. *)
Definition is_space (c : ascii) : bool :=
  in_range 9 13 c || in_range 28 32 c || (ord c =? 133) || (ord c =? 160).

Fixpoint lstrip (s : str) : str :=
  match s with
  | c :: s' => if is_space c then lstrip s' else s
  | [] => []
  end.

Definition strip (s : str) : str := rev (lstrip (rev (lstrip s))).

(** [s.split('\n')] *)
Fixpoint split_lines (s : str) : list str :=
  match s with
  | [] => [[]]
  | c :: s' =>
      if ascii_eqb c Csv.LF then [] :: split_lines s'
      else match split_lines s' with
           | l :: ls => (c :: l) :: ls
           | [] => [[c]]
           end
  end.

(** [parse_csv_to_records]: any exception of the reader is caught and
    turned into the empty result ([lines] is never empty, so the early
    return is dead). *)
Definition parse_csv_to_records (csv_text : str) : list str * list Csv.record :=
  let lines := split_lines (strip csv_text) in
  match Csv.DictReader lines with
  | Ok (fieldnames, records) =>
      let headers := match fieldnames with Some h => h | None => [] end in
      (headers, records)
  | Raise _ => ([], [])
  end.

(** [generate_record_hash]: the sorted dump, or the plain dump when
    sorting the keys raised. *)
Definition generate_record_hash (record : Csv.record) : str :=
  match Json.dumps_sorted record with
  | Ok record_str => MD5.hexdigest record_str
  | Raise _ => MD5.hexdigest (Json.dumps record)
  end.

(** Local variables of [merge_csv_data]. *)
Record merge_state := MergeState {
  all_records : list Csv.record;
  headers : option (list str);
  record_hashes : gset str;
  duplicates_found : Z
}.

Definition merge_init : merge_state := MergeState [] None ∅ 0.

Section Merge.

(** The fingerprint used for deduplication. *)
Variable hash : Csv.record -> str.

(** Body of the inner loop [for record in records]. *)
Definition add_record (deduplicate : bool) (st : merge_state)
    (record : Csv.record) : merge_state :=
  if deduplicate then
    let record_hash := hash record in
    if bool_decide (record_hash ∈ record_hashes st) then
      MergeState (all_records st) (headers st) (record_hashes st)
                 (duplicates_found st + 1)
    else
      MergeState (all_records st ++ [record]) (headers st)
                 ({[ record_hash ]} ∪ record_hashes st)
                 (duplicates_found st)
  else
    MergeState (all_records st ++ [record]) (headers st)
               (record_hashes st) (duplicates_found st).

(** Body of the outer loop [for csv_text in csv_files]. *)
Definition add_file (deduplicate : bool) (st : merge_state)
    (csv_text : str) : merge_state :=
  let '(csv_headers, records) := parse_csv_to_records csv_text in
  let st' :=
    match headers st with
    | None => MergeState (all_records st) (Some csv_headers)
                         (record_hashes st) (duplicates_found st)
    | Some _ => st
    end in
  fold_left (add_record deduplicate) records st'.

Definition is_empty_headers (h : option (list str)) : bool :=
  match h with
  | None | Some [] => true
  | Some (_ :: _) => false
  end.

(** [merge_csv_data]: returns
    [(merged_csv, total_records, deduplicated_count)]. *)
Definition merge_with (csv_files : list str) (deduplicate : bool)
  : str * Z * Z :=
  let st := fold_left (add_file deduplicate) csv_files merge_init in
  if is_empty_headers (headers st) then ([], 0, 0)
  else
    let fieldnames := match headers st with Some h => h | None => [] end in
    match Csv.DictWriter_dump fieldnames (all_records st) with
    | Ok merged_csv =>
        (merged_csv, Z.of_nat (length (all_records st)), duplicates_found st)
    | Raise _ => ([], 0, 0)
    end.

End Merge.

Definition merge_csv_data (csv_files : list str) (deduplicate : bool)
  : str * Z * Z :=
  merge_with generate_record_hash csv_files deduplicate.

(** [get_record_count] *)
Definition get_record_count (csv_text : str) : Z :=
  let lines := split_lines (strip csv_text) in
  Z.max 0 (Z.of_nat (length lines) - 1).

(** The first header with ['page'] in its lower-cased name. *)
Definition page_column (headers : list str) : option str :=
  List.find (fun header => str_in "page" (lower header)) headers.

(** [int(record.get(page_column, 0))] *)
Definition page_value (record : Csv.record) (page_column : str) : result Z :=
  match Csv.dict_get (Some page_column) record with
  | Some (Csv.VStr s) => py_int_text s
  | Some Csv.VNone => Raise TypeError
  | Some (Csv.VList _) => Raise TypeError
  | None => Ok 0
  end.

(** Body of the loop of [get_page_count_from_csv]: a value that is not
    an integer is passed over. *)
Definition max_page_step (page_column : str) (max_page : Z)
    (record : Csv.record) : Z :=
  match page_value record page_column with
  | Ok page_num => Z.max max_page page_num
  | Raise _ => max_page
  end.

(** [get_page_count_from_csv]: no statement of the body raises, so the
    outer handler is not represented. *)
Definition get_page_count_from_csv (csv_text : str) : Z :=
  let '(headers, records) := parse_csv_to_records csv_text in
  match records with
  | [] => 0
  | _ :: _ =>
      match page_column headers with
      | None => 1
      | Some page_column =>
          let max_page := fold_left (max_page_step page_column) records 0 in
          if 0 <? max_page then max_page else 1
      end
  end.

(** The key under which [identify_unique_records] remembers a record:
    the value of the column [unique_key] when that is given and the
    record has it, the fingerprint of the record otherwise.  A list is
    not hashable. *)
Definition record_key (unique_key : option str) (record : Csv.record)
  : result (option str) :=
  let by_hash := Ok (Some (generate_record_hash record)) in
  match unique_key with
  | Some k =>
      if Nat.eqb (length k) 0 then by_hash
      else
        match Csv.dict_get (Some k) record with
        | Some (Csv.VStr s) => Ok (Some s)
        | Some Csv.VNone => Ok None
        | Some (Csv.VList _) => Raise TypeError
        | None => by_hash
        end
  | None => by_hash
  end.

(** Local variables of [identify_unique_records]. *)
Record unique_state := UniqueState {
  seen : gset (option str);
  unique_records : list Csv.record;
  duplicates : Z
}.

(** Body of the loop of [identify_unique_records]. *)
Definition unique_step (unique_key : option str) (st : unique_state)
    (record : Csv.record) : result unique_state :=
  bind (record_key unique_key record) (fun key =>
    if bool_decide (key ∈ seen st) then
      Ok (UniqueState (seen st) (unique_records st) (duplicates st + 1))
    else
      Ok (UniqueState ({[ key ]} ∪ seen st) (unique_records st ++ [record])
                      (duplicates st))).

Fixpoint unique_loop (unique_key : option str) (records : list Csv.record)
    (st : unique_state) : result unique_state :=
  match records with
  | [] => Ok st
  | record :: records' =>
      bind (unique_step unique_key st record) (unique_loop unique_key records')
  end.

(** [identify_unique_records]: an exception inside the loop gives the
    input back with a count of zero. *)
Definition identify_unique_records (records : list Csv.record)
    (unique_key : option str) : list Csv.record * Z :=
  match unique_loop unique_key records (UniqueState ∅ [] 0) with
  | Ok st => (unique_records st, duplicates st)
  | Raise _ => (records, 0)
  end.

(** [if name not in headers: headers.append(name)] *)
Definition add_column (name : str) (headers : list str) : list str :=
  if existsb (str_eqb name) headers then headers else headers ++ [name].

(** [if name not in record: record[name] = str(value)]: the number is
    formatted only for a record that lacks the field. *)
Definition add_field (name : str) (value : Z) (record : Csv.record)
  : result Csv.record :=
  match Csv.dict_get (Some name) record with
  | Some _ => Ok record
  | None =>
      bind (py_str value) (fun text =>
        Ok (Csv.dict_set (Some name) (Csv.VStr text) record))
  end.

(** The loop [for record in records] of [add_page_tracker_to_csv]. *)
Fixpoint add_fields (page_number iteration : Z) (records : list Csv.record)
  : result (list Csv.record) :=
  match records with
  | [] => Ok []
  | record :: records' =>
      bind (add_field "source_page" page_number record) (fun record =>
      bind (add_field "source_iteration" iteration record) (fun record =>
      bind (add_fields page_number iteration records') (fun records' =>
        Ok (record :: records'))))
  end.

(** [add_page_tracker_to_csv]: when formatting a number or the writer
    raises, the input is returned. *)
Definition add_page_tracker_to_csv (csv_text : str) (page_number iteration : Z)
  : str :=
  let '(headers, records) := parse_csv_to_records csv_text in
  let headers := add_column "source_page" headers in
  let headers := add_column "source_iteration" headers in
  match bind (add_fields page_number iteration records)
             (Csv.DictWriter_dump headers) with
  | Ok out => out
  | Raise _ => csv_text
  end.

Import PyFloat.

(** The dictionary returned by [compare_pages]. *)
Record comparison := Comparison {
  is_complete : bool;
  pages_remaining : Z;
  pages_completed : Z;
  total_target : Z;
  percentage : number
}.

(** [round(v, 1)] for the value of the conditional expression: an
    [int] stays an [int]. *)
Definition round1 (v : number) : result number :=
  match v with
  | PInt z => Ok (PInt z)
  | PFloat f => bind (round_digits f 1) (fun r => Ok (PFloat r))
  end.

(** [compare_pages] *)
Definition compare_pages (scraped_pages target_pages : Z) : result comparison :=
  bind (if 0 <? target_pages
        then bind (int_truediv scraped_pages target_pages) (fun q =>
               Ok (PFloat (mul_int q 100)))
        else Ok (PInt 0)) (fun v =>
  bind (round1 v) (fun pct =>
    Ok {| is_complete := target_pages <=? scraped_pages;
          pages_remaining := Z.max 0 (target_pages - scraped_pages);
          pages_completed := scraped_pages;
          total_target := target_pages;
          percentage := pct |})).

End DataConsolidationService.

(** ** Values decoded from the provider's JSON *)

#[warnings="-register-all"]
Inductive pyval :=
| PNone
| PNum (z : Z)
| PText (s : str)
| PDict (items : list (str * pyval)).

Fixpoint pyval_eqb (a b : pyval) : bool :=
  match a, b with
  | PNone, PNone => true
  | PNum x, PNum y => x =? y
  | PText x, PText y => str_eqb x y
  | PDict xs, PDict ys =>
      (fix items_eqb (xs ys : list (str * pyval)) : bool :=
         match xs, ys with
         | [], [] => true
         | (k, v) :: xs', (k', v') :: ys' =>
             str_eqb k k' && pyval_eqb v v' && items_eqb xs' ys'
         | _, _ => false
         end) xs ys
  | _, _ => false
  end.

Fixpoint items_get (k : str) (items : list (str * pyval)) : option pyval :=
  match items with
  | [] => None
  | (k', v) :: items' => if str_eqb k k' then Some v else items_get k items'
  end.

(** [d.get(k, default)]; on anything but a [dict] the attribute is
    missing. *)
Definition py_get (d : pyval) (k : str) (default : pyval) : result pyval :=
  match d with
  | PDict items =>
      Ok (match items_get k items with Some v => v | None => default end)
  | _ => Raise AttributeError
  end.

(** [a < b] *)
Definition py_lt (a b : pyval) : result bool :=
  match a, b with
  | PNum x, PNum y => Ok (x <? y)
  | _, _ => Raise TypeError
  end.

(** Truth value of an object. *)
Definition truthy (v : pyval) : bool :=
  match v with
  | PNone => false
  | PNum z => negb (z =? 0)
  | PText s => negb (Nat.eqb (length s) 0)
  | PDict items => negb (Nat.eqb (length items) 0)
  end.

(** ** [MonitoringService] (backend/monitoring_service.py) *)

Module MonitoringService.

(** The fields of the service that recovery reads and writes, with the
    calls made to [recovery_service.trigger_auto_recovery] so far (the
    collaborator is outside the modelled code: its answers are inputs,
    the calls made to it are recorded). *)
Record service := Service {
  recovery_attempts : gmap str Z;
  max_recovery_attempts : Z;
  recovery_calls : list str
}.

(** [__init__] with [MAX_RECOVERY_ATTEMPTS] read from the environment. *)
Definition init (max_attempts : Z) : service := Service ∅ max_attempts [].

(** What [trigger_auto_recovery] answered. *)
Inductive recovery_answer :=
| Succeeded      (* a result whose ['success'] is true *)
| Failed         (* a result whose ['success'] is false or missing *)
| Raised.        (* the call raised *)

(** [trigger_recovery] *)
Definition trigger_recovery (answer : recovery_answer) (project_token : str)
    (s : service) : service :=
  let s' := Service (recovery_attempts s) (max_recovery_attempts s)
                    (recovery_calls s ++ [project_token]) in
  match answer with
  | Succeeded =>
      let n := default 0 (recovery_attempts s' !! project_token) in
      Service (<[project_token := n + 1]> (recovery_attempts s'))
              (max_recovery_attempts s') (recovery_calls s')
  | Failed | Raised => s'
  end.

(** [_handle_stop_detected] *)
Definition _handle_stop_detected (answer : recovery_answer)
    (project_token : str) (s : service) : service :=
  match recovery_attempts s !! project_token with
  | Some attempt_count =>
      if attempt_count >=? max_recovery_attempts s then s
      else trigger_recovery answer project_token s
  | None =>
      trigger_recovery answer project_token
        (Service (<[project_token := 0]> (recovery_attempts s))
                 (max_recovery_attempts s) (recovery_calls s))
  end.

(** [reset_recovery_counter] *)
Definition reset_recovery_counter (project_token : str) (s : service)
  : service :=
  Service (delete project_token (recovery_attempts s))
          (max_recovery_attempts s) (recovery_calls s).

(** [_is_incomplete_run] *)
Definition _is_incomplete_run (project_data : pyval) : result bool :=
  if negb (truthy project_data) then Ok false
  else
    bind (py_get project_data "last_run"%string (PDict [])) (fun last_run =>
    bind (py_get last_run "pages_scraped"%string (PNum 0)) (fun pages_scraped =>
    bind (py_get last_run "data_count"%string (PNum 0)) (fun data_count =>
    bind (py_lt pages_scraped (PNum 5)) (fun few_pages =>
      if few_pages then py_lt data_count (PNum 20) else Ok false)))).

(** The condition of [check_single_project] on the polled status. *)
Definition should_recover (status project_data : pyval) : result bool :=
  if pyval_eqb status (PText "stuck"%string)
     || pyval_eqb status (PText "cancelled"%string)
  then Ok true
  else if pyval_eqb status (PText "completed"%string)
       then _is_incomplete_run project_data
       else Ok false.

(** [check_single_project]: [status] is what
    [recovery_service.check_project_status] reported; an exception is
    logged and nothing else happens. *)
Definition check_single_project (answer : recovery_answer) (status : pyval)
    (project_token : str) (project_data : pyval) (s : service) : service :=
  match should_recover status project_data with
  | Ok true => _handle_stop_detected answer project_token s
  | Ok false => s
  | Raise _ => s
  end.

End MonitoringService.

(** ** [SessionMonitor] (backend/session_monitor.py) *)

Module SessionMonitor.

(** A row of [get_active_sessions]. *)
Record session := Session {
  session_id : Z;
  project_token : str;
  project_name : str;
  total_pages_target : Z;
  pages_completed : Z;
  current_iteration : Z
}.

(** The result dictionary of [auto_runner.execute_iteration]. *)
Record iter_res := IterRes {
  success : bool;
  res_pages_completed : Z
}.

(** Calls made to the collaborators, in order. *)
Inductive call :=
| mark_session_complete (session_id : Z)
| execute_iteration (session_id iteration : Z) (project_token project_name : str)
    (start_page end_page : Z) (original_url : str)
| update_session_progress (session_id new_pages_completed : Z) (status : str).

Section Process.

(** [_get_original_url]: the URL registered for a session, if any. *)
Variable get_original_url : Z -> option str.

(** The answer of [auto_runner.execute_iteration] to a call with the
    page range [start_page .. end_page]. *)
Variable run_iteration : Z -> Z -> str -> str -> Z -> Z -> str -> iter_res.

(** [process_session]: the calls it makes. *)
Definition process_session (s : session) : list call :=
  let total_pages := total_pages_target s in
  let current_iteration :=
    if current_iteration s =? 0 then 1 else current_iteration s in
  if pages_completed s >=? total_pages then
    [mark_session_complete (session_id s)]
  else
    match get_original_url (session_id s) with
    | None => []
    | Some original_url =>
        if Nat.eqb (length original_url) 0 then []
        else
          let pages_per_iteration := 10 in
          let start_page := pages_completed s + 1 in
          let end_page := Z.min (start_page + pages_per_iteration - 1) total_pages in
          let res := run_iteration (session_id s) current_iteration
                       (project_token s) (project_name s)
                       start_page end_page original_url in
          execute_iteration (session_id s) current_iteration
              (project_token s) (project_name s)
              start_page end_page original_url ::
          if success res then
            let new_pages_completed := res_pages_completed res in
            update_session_progress (session_id s) new_pages_completed
                                    "running"%string ::
            if new_pages_completed >=? total_pages
            then [mark_session_complete (session_id s)] else []
          else []
    end.

(** The page range dispatched by a list of calls, if any. *)
Definition dispatched (calls : list call) : option (Z * Z) :=
  match calls with
  | execute_iteration _ _ _ _ start_page end_page _ :: _ =>
      Some (start_page, end_page)
  | _ => None
  end.

(** Modelled from the spec: [ScrapingSessionService]
    ([scraping_session_service.py] is not among the sources).  On
    executor success the session store advances [pages_completed] to
    the reported value and [current_iteration] by one; marking a
    session complete takes it out of the running sessions. *)
Definition apply_call (c : call) (running : option session) : option session :=
  match c, running with
  | mark_session_complete _, _ => None
  | update_session_progress _ n _, Some s =>
      Some (Session (session_id s) (project_token s) (project_name s)
                    (total_pages_target s) n (current_iteration s + 1))
  | _, r => r
  end.

(** One pass of [monitor_loop] over a store holding one session: the
    loop itself completes a session that has reached its target,
    otherwise [process_session] runs. *)
Definition cycle (running : option session) : list call * option session :=
  match running with
  | None => ([], None)
  | Some s =>
      let calls :=
        if pages_completed s >=? total_pages_target s
        then [mark_session_complete (session_id s)]
        else process_session s in
      (calls, fold_left (fun r c => apply_call c r) calls running)
  end.

End Process.

End SessionMonitor.

(** * Definitions used by the statements and proofs below *)

(** ** Regular expressions, declaratively *)

(** [lang p m]: the text [m] is matched by the whole pattern [p]. *)
Inductive lang : regex -> str -> Prop :=
| lang_nil : lang [] []
| lang_one g f p c s :
    f c = true -> lang p s -> lang (Atom g (One f) :: p) (c :: s)
| lang_many g f p cs s :
    cs <> [] -> Forall (fun c => f c = true) cs -> lang p s ->
    lang (Atom g (Many1 f) :: p) (cs ++ s).

(** [occurs p s]: some part of [s] is matched by [p]. *)
Definition occurs (p : regex) (s : str) : Prop :=
  exists pre m rest, s = pre ++ m ++ rest /\ lang p m.

(** Longest prefix of [s] whose characters satisfy [f], and what follows. *)
Fixpoint span (f : ascii -> bool) (s : str) : str * str :=
  match s with
  | c :: s' => if f c then let '(a, b) := span f s' in (c :: a, b) else ([], s)
  | [] => ([], [])
  end.

(** A pattern of single-character items, all in group [g]. *)
Definition ones (g : nat) (cls : list (ascii -> bool)) : regex :=
  map (fun f => Atom g (One f)) cls.

(** The search pattern [cls(\d+)]. *)
Definition digits_after (cls : list (ascii -> bool)) : regex :=
  ones 0 cls ++ [Atom 1 (Many1 is_digit)].

(** The text matched by the single-character items [cls] at the head
    of [s], and what follows. *)
Fixpoint take_lead (cls : list (ascii -> bool)) (s : str) : option (str * str) :=
  match cls, s with
  | [], _ => Some ([], s)
  | f :: cls', c :: s' =>
      if f c then
        match take_lead cls' s' with
        | Some (ld, rest) => Some (c :: ld, rest)
        | None => None
        end
      else None
  | _ :: _, [] => None
  end.

(** A match of [cls] followed by [\d+] at the head of [s]: the lead, the
    digits and the rest. *)
Definition lead_digits (cls : list (ascii -> bool)) (s : str)
  : option (str * str * str) :=
  match take_lead cls s with
  | Some (ld, s') =>
      match span is_digit s' with
      | ([], _) => None
      | (ds, rest) => Some (ld, ds, rest)
      end
  | None => None
  end.

Definition tag (g : nat) (s : str) : tagged := map (pair g) s.

(** Whether a text starts with a decimal digit. *)
Definition head_digit (s : str) : bool :=
  match s with c :: _ => is_digit c | [] => false end.

(** Whether [cls] followed by at least one digit matches at the head. *)
Fixpoint lead_ok (cls : list (ascii -> bool)) (s : str) : bool :=
  match cls with
  | [] => head_digit s
  | f :: cls' =>
      match s with
      | c :: s' => f c && lead_ok cls' s'
      | [] => false
      end
  end.

(** Whether [cls] followed by a digit matches somewhere in [s]. *)
Fixpoint found (cls : list (ascii -> bool)) (s : str) : bool :=
  lead_ok cls s ||
  match s with
  | [] => false
  | _ :: s' => found cls s'
  end.

(** Normal form of a URL in which the value of a number does not show:
    every maximal run of digits becomes one ['0'] and every other
    character is mapped through [phi]. *)
Definition norm_step (phi : ascii -> ascii) (c : ascii) (u : str) : str :=
  if is_digit c then (if head_digit u then u else phi "0"%char :: u)
  else phi c :: u.

Definition norm (phi : ascii -> ascii) (s : str) : str :=
  fold_right (norm_step phi) [] s.

(** A class that accepts no digit. *)
Definition digit_free (f : ascii -> bool) : Prop :=
  forall c, is_digit c = true -> f c = false.

(** A class that does not tell [c] from [phi c]. *)
Definition respects (phi : ascii -> ascii) (f : ascii -> bool) : Prop :=
  forall c, f (phi c) = f c.

Definition accepts (cls : list (ascii -> bool)) (ld : str) : Prop :=
  Forall2 (fun f c => f c = true) cls ld.

Definition same (c : ascii) : ascii := c.

Definition dash_to_slash (c : ascii) : ascii :=
  if ascii_eqb c "-" then "/"%char else c.

(** The shape shared by the patterns that precede a kind in [PATTERNS]. *)
Definition plain_pattern (phi : ascii -> ascii) (p : regex) : Prop :=
  exists q qcls, p = digits_after (q :: qcls) /\
                 Forall digit_free (q :: qcls) /\
                 Forall (respects phi) (q :: qcls).

Ltac plain_chars := repeat constructor; try discriminate.

(** A class that accepts only characters [lower()] leaves alone. *)
Definition lower_stable (f : ascii -> bool) : Prop :=
  forall c, f c = true -> lower_char c = c.

(** Whether [p], at the leftmost place where it matches the lower-cased
    copy of [s], matches [s] itself: the occurrence that [re.search]
    finds in [s.lower()] is spelled the same way in [s]. *)
Fixpoint first_exact (p : regex) (s : str) : bool :=
  match match_here p (lower s) with
  | Some _ => match match_here p s with Some _ => true | None => false end
  | None =>
      match s with
      | [] => false
      | _ :: s' => first_exact p s'
      end
  end.

(** The pattern that [detect_pattern] reports for [url] is spelled in
    [url] as in the lower-cased copy in which it was found. *)
Definition spelled_as_found (info : URLGenerator.pattern_info) (url : str) : bool :=
  match URLGenerator.pattern_regex info with
  | Some p => first_exact p url
  | None => false
  end.

(** ** Consolidation *)

(** A record all of whose keys are fields of the header [h]. *)
Definition fits (h : list str) (r : Csv.record) : bool :=
  forallb (fun kv => existsb (fun f => Csv.key_eqb (fst kv) (Some f)) h) r.

(** The content fingerprint in the words of the specification: the MD5
    digest of the record serialised with its keys sorted. *)
Definition fingerprint (r : Csv.record) : str :=
  MD5.hexdigest (Json.dump_items (Json.sort_items r)).

(** All records parsed from a list of batches, in order. *)
Definition parsed_records (csv_files : list str) : list Csv.record :=
  flat_map (fun f => snd (DataConsolidationService.parse_csv_to_records f))
           csv_files.

(** The rows [csv.reader] yields for a batch. *)
Definition batch_rows (b : str) : result (list (list str)) :=
  Csv.reader_rows
    (DataConsolidationService.split_lines (DataConsolidationService.strip b)).

(** A CSV text: the given lines separated by line feeds. *)
Definition text_of_lines (rows : list string) : str :=
  Json.join [Csv.LF] (map str_of_string rows).

(** The text [csv.writer] produces for the given lines. *)
Definition written_lines (rows : list string) : str :=
  flat_map (fun r => str_of_string r ++ [Csv.CR; Csv.LF]) rows.

(** A batch the reader rejects: a carriage return inside a line. *)
Definition unparsable_batch : str :=
  str_of_string "a,b" ++ [Csv.CR] ++ str_of_string "1,2".

(** ** Bounds on [float] values *)

(** [m * 2 ^ e <= C], also for a negative exponent. *)
Definition raw_below (m e C : Z) : Prop :=
  if 0 <=? e then m * 2 ^ e <= C else m <= C * 2 ^ (- e).

(** A finite, non-negative [float] that is at most [C]. *)
Definition below (f : PyFloat.float) (C : Z) : Prop :=
  match f with
  | PyFloat.Finite m e => 0 <= m /\ raw_below m e C
  | PyFloat.Infinity _ => False
  end.

(** [k] is the integer nearest to ten times [m * 2 ^ e], the even one
    of the two when that value lies half way between them: [k / 10] is
    [m * 2 ^ e] rounded to one decimal, half to even. *)
Definition tenths (k m e : Z) : Prop :=
  if 0 <=? e then k = m * 10 * 2 ^ e
  else 2 * Z.abs (m * 10 - k * 2 ^ (- e)) <= 2 ^ (- e) /\
       (2 * Z.abs (m * 10 - k * 2 ^ (- e)) = 2 ^ (- e) -> Z.even k = true).

(** ** Recovery *)

(** The condition under which the Recovery Detector acts, in the words
    of the specification. *)
Definition stop_condition (status : pyval) (pages_scraped data_count : Z) : Prop :=
  status = PText "stuck"%string \/ status = PText "cancelled"%string \/
  (status = PText "completed"%string /\ pages_scraped < 5 /\ data_count < 20).

(** A project as listed by the provider, with a small last run. *)
Definition sample_project : pyval :=
  PDict [("token"%string : str, PText "tk"%string);
         ("last_run"%string : str,
          PDict [("pages_scraped"%string : str, PNum 2);
                 ("data_count"%string : str, PNum 7)])].

(** Every counter is between zero and the cap. *)
Definition attempts_bounded (s : MonitoringService.service) : Prop :=
  forall token n,
    MonitoringService.recovery_attempts s !! token = Some n ->
    0 <= n <= MonitoringService.max_recovery_attempts s.

(** What can happen to the service between two observations: a stop
    is detected for a project (with the answer the recovery service
    gives if it is called), or an operator resets a project's counter. *)
Inductive event :=
| StopDetected (answer : MonitoringService.recovery_answer) (project_token : str)
| CounterReset (project_token : str).

Definition step (s : MonitoringService.service) (ev : event)
  : MonitoringService.service :=
  match ev with
  | StopDetected answer token => MonitoringService._handle_stop_detected answer token s
  | CounterReset token => MonitoringService.reset_recovery_counter token s
  end.

Definition run (events : list event) (s : MonitoringService.service)
  : MonitoringService.service :=
  fold_left step events s.

(** ** Session control *)

(** An executor that succeeds and reports the last page of the range
    it was given. *)
Definition ideal_executor (_ _ : Z) (_ _ : str) (_ end_page : Z) (_ : str)
  : SessionMonitor.iter_res :=
  SessionMonitor.IterRes true end_page.

Definition sample_url : str := str_of_string "https://x.com/items?page=1".

Definition sample_session : SessionMonitor.session :=
  SessionMonitor.Session 1 (str_of_string "tk") (str_of_string "items") 25 0 1.

(** ** Further notions used by the statements *)

(** The kinds that [generate_next_url] rewrites in place, with the
    target pages for which the number it writes is not negative and has
    at most 4300 digits. *)
Definition rewrites_in_place (pattern_type : string) (N : Z) : Prop :=
  (In pattern_type ["query_page"; "query_p"; "path_page"; "path_p"]%string /\
   0 <= N < int_str_bound)
  \/ (In pattern_type ["query_offset"; "query_start"]%string /\
      1 <= N /\ (N - 1) * 20 < int_str_bound).

(** A target page for which the [try] block of [generate_next_url]
    raises and the fallback does not: for the [offset=] and [start=]
    kinds, [N] can be written and [(N - 1) * 20] cannot. *)
Definition falls_back (pattern_type : string) (N : Z) : Prop :=
  In pattern_type ["query_offset"; "query_start"]%string /\
  Z.abs N < int_str_bound /\ int_str_bound <= Z.abs ((N - 1) * 20).

(** What a rewrite leaves alone: the URL with every run of digits
    collapsed to one ['0'] and, for the [/page] kind, whose separator is
    rewritten too, every ['-'] read as ['/']. *)
Definition digitless (pattern_type : string) (url : str) : str :=
  norm (if String.eqb pattern_type "path_page" then dash_to_slash else same) url.

(** The URL with the page parameter appended. *)
Definition page_appended (url : str) (N : Z) : str :=
  let separator : str := if str_in (str_of_string "?") url
                         then str_of_string "&" else str_of_string "?" in
  url ++ separator ++ str_of_string "page=" ++ str_of_int N.

(** A text with more digits than [int] reads. *)
Definition too_long (s : str) : Prop :=
  int_max_str_digits < Z.of_nat (length (List.filter (fun c => is_digit c) s)).

(** The generic pattern [[?&](\w+)=(\d+)], the last entry of [PATTERNS]. *)
Definition generic_regex : regex :=
  [Atom 0 (One is_sep); Atom 1 (Many1 is_word)] ++ lit 0 (str_of_string "=")
    ++ [Atom 2 (Many1 is_digit)].

(** The session store after [k] passes of the loop. *)
Fixpoint after_cycles (get_original_url : Z -> option str)
    (run_iteration : Z -> Z -> str -> str -> Z -> Z -> str -> SessionMonitor.iter_res)
    (k : nat) (running : option SessionMonitor.session)
  : option SessionMonitor.session :=
  match k with
  | O => running
  | S k' =>
      snd (SessionMonitor.cycle get_original_url run_iteration
             (after_cycles get_original_url run_iteration k' running))
  end.

(** Whether the reader holds an unfinished record. *)
Definition pending (r : Csv.reader) : bool :=
  negb (Nat.eqb (length (Csv.field r)) 0)
  || Csv.state_eqb (Csv.state r) Csv.IN_QUOTED_FIELD.

(** The keys in [seen] are those of the records kept so far, which have
    pairwise different keys. *)
Definition unique_inv (unique_key : option str)
    (st : DataConsolidationService.unique_state) : Prop :=
  (forall key, key ∈ DataConsolidationService.seen st <->
               exists u, In u (DataConsolidationService.unique_records st) /\
                         DataConsolidationService.record_key unique_key u = Ok key) /\
  List.NoDup (map (DataConsolidationService.record_key unique_key)
                  (DataConsolidationService.unique_records st)).

(** The keys in [seen] are those of the records read so far. *)
Definition seen_of (unique_key : option str)
    (st : DataConsolidationService.unique_state) (done : list Csv.record) : Prop :=
  forall key, key ∈ DataConsolidationService.seen st <->
              exists x, In x done /\
                        DataConsolidationService.record_key unique_key x = Ok key.

(** Every record of [unique] stands in [records] at a place before
    which no record has its key, with the records kept before it and
    after it taken from before and after that place: [unique] holds
    the first record of each of its keys. *)
Definition first_kept (unique_key : option str)
    (unique records : list Csv.record) : Prop :=
  forall upre u upost,
    unique = upre ++ u :: upost ->
    exists pre post,
      records = pre ++ u :: post /\ sublist upre pre /\ sublist upost post /\
      Forall (fun r => DataConsolidationService.record_key unique_key r
                       <> DataConsolidationService.record_key unique_key u) pre.

(** The state of the merge and the state of [identify_unique_records]
    (by fingerprint) after the same records. *)
Definition same_progress (ms : DataConsolidationService.merge_state)
    (us : DataConsolidationService.unique_state) : Prop :=
  DataConsolidationService.all_records ms = DataConsolidationService.unique_records us /\
  DataConsolidationService.duplicates_found ms = DataConsolidationService.duplicates us /\
  (forall key, key ∈ DataConsolidationService.seen us <->
               exists h, key = Some h /\ h ∈ DataConsolidationService.record_hashes ms).

(** A record with the field [name] set to [text] unless it has one. *)
Definition with_field (name text : str) (record : Csv.record) : Csv.record :=
  match Csv.dict_get (Some name) record with
  | Some _ => record
  | None => Csv.dict_set (Some name) (Csv.VStr text) record
  end.

(** A record with the two tracking fields. *)
Definition tracked (page_number iteration : Z) (record : Csv.record) : Csv.record :=
  with_field (str_of_string "source_iteration") (str_of_int iteration)
    (with_field (str_of_string "source_page") (str_of_int page_number) record).

(** A row as long as the header: short rows get empty fields. *)
Definition padded (header row : list str) : list str :=
  row ++ repeat [] (length header - length row).

(** The rows of a batch that are not blank. *)
Definition data_rows (rows : list (list str)) : list (list str) :=
  List.filter (fun row => negb (Csv.is_blank row)) rows.

(** * Basic facts *)

Lemma ascii_eqb_eq (a b : ascii) : ascii_eqb a b = true <-> a = b.
Proof. apply Ascii.eqb_eq. Qed.

Lemma str_eqb_eq (a b : str) : str_eqb a b = true <-> a = b.
Proof.
  revert b. induction a as [|x a IH]; intros [|y b]; cbn; try (split; congruence).
  rewrite andb_true_iff, ascii_eqb_eq, IH. split.
  - intros [-> ->]. reflexivity.
  - intros [= -> ->]. auto.
Qed.

Lemma pyval_eqb_text (v : pyval) (s : str) :
  pyval_eqb v (PText s) = true <-> v = PText s.
Proof.
  destruct v; cbn; try (split; congruence).
  rewrite str_eqb_eq. split; congruence.
Qed.

(** * Session control loop *)

Section SessionControl.

Import SessionMonitor.

Section SessionFacts.
Variable get_original_url : Z -> option str.
Variable run_iteration : Z -> Z -> str -> str -> Z -> Z -> str -> iter_res.

Lemma process_session_range (s : session) (url : str) :
  pages_completed s < total_pages_target s ->
  get_original_url (session_id s) = Some url ->
  url <> [] ->
  dispatched (process_session get_original_url run_iteration s)
  = Some (pages_completed s + 1,
          Z.min (pages_completed s + 10) (total_pages_target s)).
Proof.
  intros Hlt Hurl Hne. unfold process_session.
  destruct (Z.geb_spec (pages_completed s) (total_pages_target s)) as [Hge|_]; [lia|].
  rewrite Hurl. destruct url as [|c url']; [congruence|]. cbn [length Nat.eqb dispatched].
  do 2 f_equal. lia.
Qed.

Lemma process_session_without_url (s : session) :
  pages_completed s < total_pages_target s ->
  get_original_url (session_id s) = None ->
  process_session get_original_url run_iteration s = [].
Proof.
  intros Hlt Hurl. unfold process_session.
  destruct (Z.geb_spec (pages_completed s) (total_pages_target s)); [lia|].
  now rewrite Hurl.
Qed.
End SessionFacts.

(** C6.  On a cycle, a running session with [pages_completed <
    total_pages_target] whose URL is registered is dispatched with the
    page range [[pages_completed + 1, min (pages_completed + 10)
    total_pages_target]]; with a target of 25 pages, starting from 0 and
    with an executor that succeeds on the range it is given, three
    successive cycles dispatch [1,10], [11,20] and [21,25], after which
    the session is complete and nothing more is dispatched. *)
Theorem dispatched_page_range :
  forall (get_original_url : Z -> option str)
         (run_iteration : Z -> Z -> str -> str -> Z -> Z -> str -> iter_res),
    (forall (s : session) (url : str),
        pages_completed s < total_pages_target s ->
        get_original_url (session_id s) = Some url ->
        url <> [] ->
        dispatched (process_session get_original_url run_iteration s)
        = Some (pages_completed s + 1,
                Z.min (pages_completed s + 10) (total_pages_target s)))
    /\
    (forall (s : session) (url : str),
        total_pages_target s = 25 ->
        pages_completed s = 0 ->
        get_original_url (session_id s) = Some url ->
        url <> [] ->
        (forall i n t p a b u,
            run_iteration i n t p a b u = IterRes true b) ->
        let c1 := cycle get_original_url run_iteration (Some s) in
        let c2 := cycle get_original_url run_iteration (snd c1) in
        let c3 := cycle get_original_url run_iteration (snd c2) in
        let c4 := cycle get_original_url run_iteration (snd c3) in
        dispatched (fst c1) = Some (1, 10) /\
        dispatched (fst c2) = Some (11, 20) /\
        dispatched (fst c3) = Some (21, 25) /\
        snd c3 = None /\ fst c4 = []).
Proof.
  intros url_of run. split.
  - intros s url. apply process_session_range.
  - intros [sid tok name total done it] url Ht Hd Hu Hne Hrun.
    cbn in Ht, Hd, Hu. subst total done.
    destruct url as [|ch url']; [congruence|].
    assert (Hstep : forall d i, d < 25 ->
      cycle url_of run (Some (Session sid tok name 25 d i)) =
      (let e := Z.min (d + 10) 25 in
       let it := if i =? 0 then 1 else i in
       (execute_iteration sid it tok name (d + 1) e (ch :: url')
          :: update_session_progress sid e "running"%string
          :: (if e >=? 25 then [mark_session_complete sid] else []),
        if e >=? 25 then None else Some (Session sid tok name 25 e (i + 1))))).
    { intros d i Hd. unfold cycle, process_session.
      cbn [total_pages_target pages_completed session_id current_iteration
           project_token project_name].
      destruct (Z.geb_spec d 25); [lia|]. rewrite Hu. cbn [length Nat.eqb].
      rewrite Hrun. cbn [success res_pages_completed].
      replace (d + 1 + 10 - 1) with (d + 10) by lia.
      cbn zeta. destruct (Z.min (d + 10) 25 >=? 25); reflexivity. }
    assert (H1 : cycle url_of run (Some (Session sid tok name 25 0 it)) =
       ([execute_iteration sid (if it =? 0 then 1 else it) tok name 1 10 (ch :: url');
         update_session_progress sid 10 "running"%string],
        Some (Session sid tok name 25 10 (it + 1))))
      by (rewrite Hstep by lia; reflexivity).
    assert (H2 : cycle url_of run (Some (Session sid tok name 25 10 (it + 1))) =
       ([execute_iteration sid (if it + 1 =? 0 then 1 else it + 1) tok name 11 20 (ch :: url');
         update_session_progress sid 20 "running"%string],
        Some (Session sid tok name 25 20 (it + 1 + 1))))
      by (rewrite Hstep by lia; reflexivity).
    assert (H3 : cycle url_of run (Some (Session sid tok name 25 20 (it + 1 + 1))) =
       ([execute_iteration sid (if it + 1 + 1 =? 0 then 1 else it + 1 + 1) tok name 21 25 (ch :: url');
         update_session_progress sid 25 "running"%string;
         mark_session_complete sid],
        None))
      by (rewrite Hstep by lia; reflexivity).
    cbv zeta. rewrite H1. cbn [fst snd]. rewrite H2. cbn [fst snd].
    rewrite H3. cbn [fst snd dispatched cycle]. auto.
Qed.

Lemma dispatched_page_range_witness :
  let c1 := cycle (fun _ => Some sample_url) ideal_executor (Some sample_session) in
  let c2 := cycle (fun _ => Some sample_url) ideal_executor (snd c1) in
  let c3 := cycle (fun _ => Some sample_url) ideal_executor (snd c2) in
  let c4 := cycle (fun _ => Some sample_url) ideal_executor (snd c3) in
  dispatched (fst c1) = Some (1, 10) /\
  dispatched (fst c2) = Some (11, 20) /\
  dispatched (fst c3) = Some (21, 25) /\
  snd c3 = None /\ fst c4 = [].
Proof.
  apply (proj2 (dispatched_page_range (fun _ => Some sample_url) ideal_executor)
           sample_session sample_url).
  - reflexivity.
  - reflexivity.
  - reflexivity.
  - discriminate.
  - reflexivity.
Defined.

End SessionControl.

(** * Recovery detector *)

Section Recovery.

Import MonitoringService.

Lemma is_incomplete_run_counts (project_data last_run : pyval) (ps dc : Z) :
  truthy project_data = true ->
  py_get project_data "last_run"%string (PDict []) = Ok last_run ->
  py_get last_run "pages_scraped"%string (PNum 0) = Ok (PNum ps) ->
  py_get last_run "data_count"%string (PNum 0) = Ok (PNum dc) ->
  _is_incomplete_run project_data = Ok ((ps <? 5) && (dc <? 20)).
Proof.
  intros Ht Hl Hp Hd. unfold _is_incomplete_run.
  rewrite Ht. cbn [negb]. rewrite Hl. cbn [bind]. rewrite Hp. cbn [bind].
  rewrite Hd. cbn [bind py_lt]. destruct (ps <? 5); reflexivity.
Qed.

Lemma should_recover_cases (status project_data : pyval) :
  should_recover status project_data =
  if pyval_eqb status (PText "stuck"%string) then Ok true
  else if pyval_eqb status (PText "cancelled"%string) then Ok true
  else if pyval_eqb status (PText "completed"%string)
       then _is_incomplete_run project_data else Ok false.
Proof.
  unfold should_recover.
  destruct (pyval_eqb status (PText "stuck"%string)); reflexivity.
Qed.

(** C7.  For a project whose data carries the counts of its last run
    ([pages_scraped] and [data_count], read as 0 when absent), the
    Recovery Detector hands the project to recovery exactly when the
    polled status is stuck or cancelled, or it is completed with
    [pages_scraped < 5] and [data_count < 20]; in every other case
    [check_single_project] leaves the service as it is. *)
Theorem recovery_needed_iff :
  forall (status project_data last_run : pyval) (ps dc : Z),
    truthy project_data = true ->
    py_get project_data "last_run"%string (PDict []) = Ok last_run ->
    py_get last_run "pages_scraped"%string (PNum 0) = Ok (PNum ps) ->
    py_get last_run "data_count"%string (PNum 0) = Ok (PNum dc) ->
    (should_recover status project_data = Ok true <-> stop_condition status ps dc)
    /\ (forall answer token s,
          stop_condition status ps dc ->
          check_single_project answer status token project_data s
          = _handle_stop_detected answer token s)
    /\ (forall answer token s,
          ~ stop_condition status ps dc ->
          check_single_project answer status token project_data s = s).
Proof.
  intros status pd lr ps dc Ht Hl Hp Hd.
  assert (Hiff : should_recover status pd = Ok true <-> stop_condition status ps dc).
  { rewrite should_recover_cases, (is_incomplete_run_counts pd lr ps dc) by assumption.
    unfold stop_condition.
    destruct (pyval_eqb status (PText "stuck"%string)) eqn:E1.
    { apply pyval_eqb_text in E1. tauto. }
    destruct (pyval_eqb status (PText "cancelled"%string)) eqn:E2.
    { apply pyval_eqb_text in E2. tauto. }
    assert (N1 : status <> PText "stuck"%string)
      by (intros H; apply pyval_eqb_text in H; congruence).
    assert (N2 : status <> PText "cancelled"%string)
      by (intros H; apply pyval_eqb_text in H; congruence).
    destruct (pyval_eqb status (PText "completed"%string)) eqn:E3.
    - apply pyval_eqb_text in E3.
      destruct (Z.ltb_spec ps 5), (Z.ltb_spec dc 20); cbn; split;
        try tauto; try congruence; intros [?|[?|(_ & ? & ?)]]; try tauto; lia.
    - assert (N3 : status <> PText "completed"%string)
        by (intros H; apply pyval_eqb_text in H; congruence).
      split; [congruence | tauto]. }
  split; [exact Hiff|]. split.
  - intros answer token s Hc. apply Hiff in Hc.
    unfold check_single_project. now rewrite Hc.
  - intros answer token s Hc. unfold check_single_project.
    destruct (should_recover status pd) as [[|]|e] eqn:E; try reflexivity.
    exfalso. apply Hc, Hiff. reflexivity.
Qed.

Lemma recovery_needed_iff_witness :
  should_recover (PText "completed"%string) sample_project = Ok true
  <-> stop_condition (PText "completed"%string) 2 7.
Proof.
  apply (recovery_needed_iff (PText "completed"%string) sample_project
           (PDict [("pages_scraped"%string : str, PNum 2);
                   ("data_count"%string : str, PNum 7)]) 2 7);
    reflexivity.
Defined.

(** Missing project data: only stuck and cancelled lead to recovery. *)
Lemma should_recover_without_data (status project_data : pyval) :
  truthy project_data = false ->
  (should_recover status project_data = Ok true <->
   status = PText "stuck"%string \/ status = PText "cancelled"%string).
Proof.
  intros Hf. rewrite should_recover_cases. unfold _is_incomplete_run. rewrite Hf. cbn [negb].
  destruct (pyval_eqb status (PText "stuck"%string)) eqn:E1.
  { apply pyval_eqb_text in E1. tauto. }
  destruct (pyval_eqb status (PText "cancelled"%string)) eqn:E2.
  { apply pyval_eqb_text in E2. tauto. }
  assert (N1 : status <> PText "stuck"%string)
    by (intros H; apply pyval_eqb_text in H; congruence).
  assert (N2 : status <> PText "cancelled"%string)
    by (intros H; apply pyval_eqb_text in H; congruence).
  destruct (pyval_eqb status (PText "completed"%string)); split; try congruence; tauto.
Qed.

(** ** The cap on recovery attempts *)

Lemma cap_reached_no_action answer token s n :
  recovery_attempts s !! token = Some n ->
  max_recovery_attempts s <= n ->
  _handle_stop_detected answer token s = s.
Proof.
  intros Hn Hcap. unfold _handle_stop_detected. rewrite Hn.
  destruct (Z.geb_spec n (max_recovery_attempts s)); [reflexivity | lia].
Qed.

Lemma handle_stop_max s answer token :
  max_recovery_attempts (_handle_stop_detected answer token s) = max_recovery_attempts s.
Proof.
  unfold _handle_stop_detected, trigger_recovery.
  destruct (recovery_attempts s !! token) as [n|].
  - destruct (n >=? max_recovery_attempts s); [reflexivity|]. destruct answer; reflexivity.
  - destruct answer; reflexivity.
Qed.

Lemma handle_stop_bounded s answer token :
  1 <= max_recovery_attempts s ->
  attempts_bounded s ->
  attempts_bounded (_handle_stop_detected answer token s).
Proof.
  intros Hmax Hb t n. unfold _handle_stop_detected, trigger_recovery.
  destruct (recovery_attempts s !! token) as [c|] eqn:Hc.
  - destruct (Z.geb_spec c (max_recovery_attempts s)) as [Hge|Hlt]; [apply Hb|].
    destruct answer; cbn; try apply Hb.
    rewrite Hc. cbn. destruct (decide (token = t)) as [->|Hne].
    + rewrite lookup_insert_eq. intros [= <-]. specialize (Hb _ _ Hc). lia.
    + rewrite lookup_insert_ne by assumption. apply Hb.
  - destruct answer; cbn.
    + rewrite lookup_insert_eq. cbn. destruct (decide (token = t)) as [->|Hne].
      * rewrite lookup_insert_eq. intros [= <-]. lia.
      * rewrite !lookup_insert_ne by assumption. apply Hb.
    + destruct (decide (token = t)) as [->|Hne].
      * rewrite lookup_insert_eq. intros [= <-]. lia.
      * rewrite lookup_insert_ne by assumption. apply Hb.
    + destruct (decide (token = t)) as [->|Hne].
      * rewrite lookup_insert_eq. intros [= <-]. lia.
      * rewrite lookup_insert_ne by assumption. apply Hb.
Qed.

Lemma reset_bounded s token :
  attempts_bounded s -> attempts_bounded (reset_recovery_counter token s).
Proof.
  intros Hb t n. unfold reset_recovery_counter. cbn.
  destruct (decide (token = t)) as [->|Hne].
  - rewrite lookup_delete_eq. congruence.
  - rewrite lookup_delete_ne by assumption. apply Hb.
Qed.

Lemma reset_max s token :
  max_recovery_attempts (reset_recovery_counter token s) = max_recovery_attempts s.
Proof. reflexivity. Qed.

Lemma step_bounded s ev :
  1 <= max_recovery_attempts s -> attempts_bounded s ->
  attempts_bounded (step s ev) /\
  max_recovery_attempts (step s ev) = max_recovery_attempts s.
Proof.
  intros Hmax Hb. destruct ev as [answer token | token]; cbn [step].
  - split; [now apply handle_stop_bounded | apply handle_stop_max].
  - split; [now apply reset_bounded | apply reset_max].
Qed.

(** With a positive cap, no sequence of detected stops and operator
    resets takes a counter above the cap. *)
Lemma run_bounded events : forall s,
  1 <= max_recovery_attempts s -> attempts_bounded s ->
  attempts_bounded (run events s).
Proof.
  unfold run. induction events as [|ev events IH]; intros s Hmax Hb; [assumption|].
  cbn [fold_left]. destruct (step_bounded s ev Hmax Hb) as [Hb' Hmax'].
  apply IH; [lia | assumption].
Qed.

Lemma init_bounded max_attempts : attempts_bounded (init max_attempts).
Proof. intros token n H. cbn in H. rewrite lookup_empty in H. discriminate. Qed.

(** C5, evaluated where the code departs from it.  With
    [max_recovery_attempts = 0] and no counter yet for a project, a
    detected stop still calls the recovery service and, when that
    succeeds, leaves the counter at 1, above the cap. *)
Theorem cap_zero_still_recovers :
  let s := _handle_stop_detected Succeeded (str_of_string "proj") (init 0) in
  recovery_calls s = [str_of_string "proj"] /\
  recovery_attempts s !! (str_of_string "proj") = Some 1 /\
  max_recovery_attempts s = 0.
Proof. cbv zeta. repeat split; vm_compute; reflexivity. Qed.

(** The scenario of the specification: at [attempt_number = 3] with
    [max_recovery_attempts = 3] a stuck project is left alone. *)
Lemma cap_three_scenario answer (token : str) :
  let s := Service {[ token := 3 ]} 3 [] in
  check_single_project answer (PText "stuck"%string) token PNone s = s.
Proof.
  cbv zeta. unfold check_single_project. cbn [should_recover pyval_eqb str_eqb].
  change (str_eqb _ _) with true. cbn [orb].
  apply (cap_reached_no_action _ _ _ 3); [apply lookup_singleton_eq | cbn; lia].
Qed.

End Recovery.

(** * The regular-expression engine *)

Lemma match_here_many_cons g f p c s :
  match_here (Atom g (Many1 f) :: p) (c :: s) =
  if f c then
    match match_here (Atom g (Many1 f) :: p) s with
    | Some r => add_tag g c (Some r)
    | None => add_tag g c (match_here p s)
    end
  else None.
Proof. reflexivity. Qed.

Lemma match_here_one_cons g f p c s :
  match_here (Atom g (One f) :: p) (c :: s) =
  if f c then add_tag g c (match_here p s) else None.
Proof. reflexivity. Qed.

Lemma add_tag_some g c r m rest :
  add_tag g c r = Some (m, rest) ->
  exists m', r = Some (m', rest) /\ m = (g, c) :: m'.
Proof. destruct r as [[m' rest']|]; cbn; intros [= <- <-]; eauto. Qed.

Lemma lang_many_cons g f p c s :
  f c = true -> lang (Atom g (Many1 f) :: p) s ->
  lang (Atom g (Many1 f) :: p) (c :: s).
Proof.
  intros Hc HL. inversion HL as [| |g' f' p' cs t Hne Hall Ht]; subst.
  change (c :: cs ++ t) with ((c :: cs) ++ t).
  constructor; [discriminate | constructor; assumption | assumption].
Qed.

Lemma match_here_sound p : forall s m rest,
  match_here p s = Some (m, rest) ->
  s = map snd m ++ rest /\ lang p (map snd m).
Proof.
  induction p as [|[g [f|f]] p IH]; intros s m rest H.
  - cbn in H. injection H as <- <-. split; [reflexivity | constructor].
  - destruct s as [|c s]; [discriminate|].
    rewrite match_here_one_cons in H. destruct (f c) eqn:Hf; [|discriminate].
    apply add_tag_some in H as (m' & H & ->). apply IH in H as [-> HL].
    split; [reflexivity|]. cbn. now constructor.
  - revert m rest H. induction s as [|c s IHs]; intros m rest H; [discriminate|].
    rewrite match_here_many_cons in H. destruct (f c) eqn:Hf; [|discriminate].
    destruct (match_here (Atom g (Many1 f) :: p) s) as [[m1 r1]|] eqn:E.
    + apply add_tag_some in H as (m' & [= <- <-] & ->).
      destruct (IHs _ _ eq_refl) as [-> HL]. split; [reflexivity|].
      cbn. apply lang_many_cons; assumption.
    + apply add_tag_some in H as (m' & H & ->). apply IH in H as [-> HL].
      split; [reflexivity|]. cbn. change (c :: map snd m') with ([c] ++ map snd m').
      constructor; [discriminate | repeat constructor; assumption | assumption].
Qed.

Lemma add_tag_is_some g c r : is_Some r -> is_Some (add_tag g c r).
Proof. intros [[m rest] ->]. cbn. eauto. Qed.

Lemma match_here_complete p : forall m rest,
  lang p m -> is_Some (match_here p (m ++ rest)).
Proof.
  induction p as [|[g [f|f]] p IH]; intros m rest HL.
  - cbn. eauto.
  - inversion HL; subst. cbn [app]. rewrite match_here_one_cons.
    rewrite H3. apply add_tag_is_some, IH. assumption.
  - inversion HL as [| |g' f' p' cs t Hne Hall Ht]; subst.
    clear HL. induction cs as [|c cs IHcs]; [congruence|].
    inversion Hall as [|? ? Hc Hcs]; subst.
    cbn [app]. rewrite match_here_many_cons, Hc.
    destruct cs as [|c2 cs].
    + cbn [app]. destruct (match_here (Atom g (Many1 f) :: p) (t ++ rest)) as [r|].
      * apply add_tag_is_some. eauto.
      * apply add_tag_is_some, IH. assumption.
    + destruct (IHcs ltac:(discriminate) Hcs) as [r ->].
      apply add_tag_is_some. eauto.
Qed.

Lemma search_none p s : search p s = None <-> ~ occurs p s.
Proof.
  split.
  - induction s as [|c s IH]; intros H (pre & m & rest & Hs & HL).
    + destruct pre; [|discriminate]. cbn in Hs.
      cbn in H. destruct (match_here p []) as [[m' r']|] eqn:E; [discriminate|].
      destruct (match_here_complete p m rest HL) as [r Hr].
      rewrite <- Hs in Hr. congruence.
    + cbn in H. destruct (match_here p (c :: s)) as [[m' r']|] eqn:E; [discriminate|].
      destruct pre as [|c' pre].
      * cbn in Hs. destruct (match_here_complete p m rest HL) as [r Hr].
        rewrite <- Hs in Hr. congruence.
      * injection Hs as -> Hs. apply IH; [assumption|].
        exists pre, m, rest. auto.
  - induction s as [|c s IH]; intros H.
    + cbn. destruct (match_here p []) as [[m r]|] eqn:E; [|reflexivity].
      exfalso. apply H. apply match_here_sound in E as [E HL].
      exists [], (map snd m), r. auto.
    + cbn. destruct (match_here p (c :: s)) as [[m r]|] eqn:E.
      * exfalso. apply H. apply match_here_sound in E as [E HL].
        exists [], (map snd m), r. auto.
      * apply IH. intros (pre & m & rest & -> & HL). apply H.
        exists (c :: pre), m, rest. auto.
Qed.

(** The leftmost match. *)
Lemma search_some p : forall s m,
  search p s = Some m ->
  exists pre rest,
    s = pre ++ map snd m ++ rest /\
    match_here p (map snd m ++ rest) = Some (m, rest) /\
    (forall pre' m' rest', s = pre' ++ m' ++ rest' -> lang p m' ->
                           (length pre <= length pre')%nat).
Proof.
  induction s as [|c s IH]; intros m H.
  - cbn in H. destruct (match_here p []) as [[m' r']|] eqn:E; [|discriminate].
    injection H as ->. pose proof (match_here_sound _ _ _ _ E) as [Hs _].
    exists [], r'. cbn. rewrite <- Hs. split; [reflexivity|]. split; [assumption|].
    intros; lia.
  - cbn in H. destruct (match_here p (c :: s)) as [[m' r']|] eqn:E.
    + injection H as ->. pose proof (match_here_sound _ _ _ _ E) as [Hs _].
      exists [], r'. cbn. rewrite <- Hs. split; [reflexivity|]. split; [assumption|].
      intros; lia.
    + destruct (IH _ H) as (pre & rest & Hs & Hm & Hleft).
      exists (c :: pre), rest. split; [cbn; congruence|]. split; [assumption|].
      intros pre' m' rest' Hs' HL. destruct pre' as [|c' pre'].
      * cbn in Hs'. destruct (match_here_complete p m' rest' HL) as [r Hr].
        rewrite <- Hs' in Hr. congruence.
      * injection Hs' as -> Hs'. cbn. apply le_n_S. eapply Hleft; eauto.
Qed.

Lemma span_app f s : fst (span f s) ++ snd (span f s) = s.
Proof.
  induction s as [|c s IH]; [reflexivity|]. cbn.
  destruct (f c); [|reflexivity]. destruct (span f s) as [a b]. cbn in *. congruence.
Qed.

Lemma span_all f s : Forall (fun c => f c = true) (fst (span f s)).
Proof.
  induction s as [|c s IH]; cbn; [constructor|].
  destruct (f c) eqn:E; [|constructor]. destruct (span f s) as [a b]. cbn in *.
  constructor; assumption.
Qed.

Lemma span_rest f s : match snd (span f s) with c :: _ => f c = false | [] => True end.
Proof.
  induction s as [|c s IH]; cbn; [exact I|].
  destruct (f c) eqn:E; [|cbn; assumption]. destruct (span f s) as [a b]. cbn in *. assumption.
Qed.

(** Span of a run followed by something that does not continue it. *)
Lemma span_run f ds rest :
  Forall (fun c => f c = true) ds ->
  match rest with c :: _ => f c = false | [] => True end ->
  span f (ds ++ rest) = (ds, rest).
Proof.
  intros Hds Hrest. induction Hds as [|d ds Hd _ IH]; cbn.
  - destruct rest as [|c rest]; [reflexivity|]. cbn in *. now rewrite Hrest.
  - now rewrite Hd, IH.
Qed.

Lemma many1_last g f s :
  match_here [Atom g (Many1 f)] s =
  match span f s with
  | ([], _) => None
  | (ds, rest) => Some (tag g ds, rest)
  end.
Proof.
  induction s as [|c s IH]; [reflexivity|].
  rewrite match_here_many_cons, IH. cbn [span].
  destruct (f c) eqn:Hc; [|reflexivity].
  destruct (span f s) as [[|d ds] rest] eqn:E.
  - cbn. pose proof (span_app f s) as H. rewrite E in H. cbn in H. now subst.
  - reflexivity.
Qed.

Lemma ones_app g cls p : forall s,
  match_here (ones g cls ++ p) s =
  match take_lead cls s with
  | Some (ld, s') =>
      match match_here p s' with
      | Some (m, r) => Some (tag g ld ++ m, r)
      | None => None
      end
  | None => None
  end.
Proof.
  induction cls as [|f cls IH]; intros s.
  - cbn. destruct (match_here p s) as [[m r]|]; reflexivity.
  - destruct s as [|c s]; [reflexivity|].
    cbn [ones map app]. rewrite match_here_one_cons. cbn [take_lead].
    destruct (f c); [|reflexivity]. fold (ones g cls). rewrite IH.
    destruct (take_lead cls s) as [[ld s']|]; [|reflexivity].
    destruct (match_here p s') as [[m r]|]; reflexivity.
Qed.

(** The engine on [cls] followed by [\d+] is [lead_digits]. *)
Lemma match_lead_digits g h cls s :
  match_here (ones g cls ++ [Atom h (Many1 is_digit)]) s =
  match lead_digits cls s with
  | Some (ld, ds, rest) => Some (tag g ld ++ tag h ds, rest)
  | None => None
  end.
Proof.
  rewrite ones_app. unfold lead_digits.
  destruct (take_lead cls s) as [[ld s']|]; [|reflexivity].
  rewrite many1_last. destruct (span is_digit s') as [[|d ds] rest]; reflexivity.
Qed.

Lemma take_lead_app cls : forall s ld s',
  take_lead cls s = Some (ld, s') ->
  s = ld ++ s' /\ Forall2 (fun f c => f c = true) cls ld.
Proof.
  induction cls as [|f cls IH]; intros s ld s' H.
  - cbn in H. injection H as <- <-. split; [reflexivity | constructor].
  - destruct s as [|c s]; [discriminate|]. cbn in H.
    destruct (f c) eqn:Hc; [|discriminate].
    destruct (take_lead cls s) as [[ld0 r0]|] eqn:E; [|discriminate].
    injection H as <- <-. apply IH in E as [-> HF]. split; [reflexivity|].
    constructor; assumption.
Qed.

Lemma take_lead_intro cls ld : forall s',
  Forall2 (fun f c => f c = true) cls ld ->
  take_lead cls (ld ++ s') = Some (ld, s').
Proof.
  intros s' HF. induction HF as [|f c cls ld Hc _ IH]; [reflexivity|].
  cbn. now rewrite Hc, IH.
Qed.

Lemma lead_digits_spec cls s ld ds rest :
  lead_digits cls s = Some (ld, ds, rest) <->
  s = ld ++ ds ++ rest /\ Forall2 (fun f c => f c = true) cls ld /\
  ds <> [] /\ Forall (fun c => is_digit c = true) ds /\
  match rest with c :: _ => is_digit c = false | [] => True end.
Proof.
  unfold lead_digits. split.
  - destruct (take_lead cls s) as [[ld0 s0]|] eqn:E; [|discriminate].
    apply take_lead_app in E as [-> HF].
    pose proof (span_app is_digit s0) as Ha.
    pose proof (span_all is_digit s0) as Hb.
    pose proof (span_rest is_digit s0) as Hc.
    destruct (span is_digit s0) as [[|d ds0] r0]; [discriminate|].
    intros [= <- <- <-]. cbn in *. subst s0. repeat split; try assumption. discriminate.
  - intros (-> & HF & Hne & Hds & Hrest).
    rewrite (take_lead_intro _ _ _ HF), (span_run _ _ _ Hds Hrest).
    destruct ds; [congruence | reflexivity].
Qed.

Lemma lead_digits_ok cls s : lead_ok cls s = true <-> is_Some (lead_digits cls s).
Proof.
  unfold lead_digits. revert s. induction cls as [|f cls IH]; intros s.
  - cbn. destruct s as [|c s]; cbn.
    + split; [discriminate | intros [? [=]]].
    + destruct (is_digit c); [|split; [discriminate | intros [? [=]]]].
      destruct (span is_digit s). split; eauto.
  - destruct s as [|c s]; cbn.
    + split; [discriminate | intros [? [=]]].
    + destruct (f c); cbn; [|split; [discriminate | intros [? [=]]]].
      rewrite IH. destruct (take_lead cls s) as [[ld r]|].
      * destruct (span is_digit r) as [[|? ?] ?]; split; intros [? [=]]; eauto.
      * split; intros [? [=]].
Qed.

Lemma lead_digits_none cls s : lead_ok cls s = false <-> lead_digits cls s = None.
Proof.
  pose proof (lead_digits_ok cls s) as H. destruct (lead_ok cls s).
  - split; [discriminate|]. intros E. destruct (proj1 H eq_refl) as [x Hx]. congruence.
  - split; [|reflexivity]. intros _. destruct (lead_digits cls s) eqn:E; [|reflexivity].
    assert (false = true) by (apply H; eauto). discriminate.
Qed.

(** ** [re.sub], one match at a time *)

Lemma sub_from_skip p t xs : forall rest,
  sub_from p t (length xs) (xs ++ rest) = sub_from p t O rest.
Proof. induction xs as [|x xs IH]; intros rest; cbn; [destruct rest|]; auto. Qed.

Lemma re_sub_match p t s m rest :
  match_here p s = Some (m, rest) -> m <> [] ->
  re_sub p t s = expand t m ++ re_sub p t rest.
Proof.
  intros Hm Hne. pose proof (match_here_sound _ _ _ _ Hm) as [Hs _].
  destruct m as [|[g c] m]; [congruence|]. cbn in Hs. subst s.
  unfold re_sub. cbn [sub_from]. rewrite Hm. f_equal.
  cbn [length Nat.pred]. rewrite <- (length_map snd m). apply sub_from_skip.
Qed.

Lemma re_sub_nomatch p t c s :
  match_here p (c :: s) = None ->
  re_sub p t (c :: s) = c :: re_sub p t s.
Proof. intros H. unfold re_sub. cbn [sub_from]. now rewrite H. Qed.

(** ** Normal forms *)

Section Norm.
Variable phi : ascii -> ascii.
Hypothesis phi_digit : forall c, is_digit (phi c) = is_digit c.

Lemma head_digit_norm_step c u :
  head_digit (norm_step phi c u) = is_digit c.
Proof.
  unfold norm_step. destruct (is_digit c) eqn:E.
  - destruct (head_digit u) eqn:E'; [assumption|]. cbn. rewrite phi_digit. reflexivity.
  - cbn. now rewrite phi_digit.
Qed.

Lemma head_digit_norm s : head_digit (norm phi s) = head_digit s.
Proof. destruct s as [|c s]; [reflexivity|]. cbn [norm fold_right]. apply head_digit_norm_step. Qed.

Lemma norm_cons c s : norm phi (c :: s) = norm_step phi c (norm phi s).
Proof. reflexivity. Qed.

Lemma norm_app a b : norm phi (a ++ b) = fold_right (norm_step phi) (norm phi b) a.
Proof. unfold norm. apply fold_right_app. Qed.

Lemma fold_norm_lead a u :
  Forall (fun c => is_digit c = false) a ->
  fold_right (norm_step phi) u a = map phi a ++ u.
Proof.
  intros H. induction H as [|c a Hc _ IH]; [reflexivity|].
  cbn. rewrite IH. unfold norm_step. now rewrite Hc.
Qed.

Lemma fold_norm_digits ds u :
  ds <> [] -> Forall (fun c => is_digit c = true) ds -> head_digit u = false ->
  fold_right (norm_step phi) u ds = phi "0"%char :: u.
Proof.
  intros Hne H Hu. induction H as [|d ds Hd Hds IH]; [congruence|].
  cbn. destruct ds as [|d2 ds].
  - cbn. unfold norm_step. now rewrite Hd, Hu.
  - rewrite IH by discriminate. unfold norm_step. rewrite Hd. cbn.
    rewrite phi_digit. reflexivity.
Qed.

(** Whether [cls] followed by digits matches at the head does not
    depend on the digits' values. *)
Lemma lead_ok_norm cls : forall s,
  Forall digit_free cls -> Forall (respects phi) cls ->
  lead_ok cls (norm phi s) = lead_ok cls s.
Proof.
  induction cls as [|f cls IH]; intros s Hdf Hphi.
  - cbn. apply head_digit_norm.
  - inversion Hdf as [|? ? Hf Hdf']; subst. inversion Hphi as [|? ? Hp Hphi']; subst.
    destruct s as [|c s]; [reflexivity|].
    rewrite norm_cons. unfold norm_step. cbn [lead_ok].
    destruct (is_digit c) eqn:Hc.
    + rewrite (Hf c Hc). cbn.
      destruct (head_digit (norm phi s)) eqn:Hh.
      * destruct (norm phi s) as [|y x]; [reflexivity|]. cbn in Hh. cbn.
        now rewrite (Hf y Hh).
      * cbn. rewrite Hf; [reflexivity|]. now rewrite phi_digit.
    + cbn. rewrite Hp, IH by assumption. reflexivity.
Qed.
End Norm.

Lemma search_lead_digits cls s :
  search (digits_after cls) s =
  match lead_digits cls s with
  | Some (ld, ds, _) => Some (tag 0 ld ++ tag 1 ds)
  | None => match s with [] => None | _ :: s' => search (digits_after cls) s' end
  end.
Proof.
  unfold digits_after. destruct s as [|c s]; cbn [search]; rewrite match_lead_digits;
    destruct (lead_digits cls _) as [[[ld ds] rest]|]; reflexivity.
Qed.

Lemma search_none_found cls s :
  search (digits_after cls) s = None <-> found cls s = false.
Proof.
  induction s as [|c s IH]; rewrite search_lead_digits; cbn [found].
  - rewrite orb_false_r, lead_digits_none.
    destruct (lead_digits cls []) as [[[ld ds] rest]|]; split; congruence.
  - rewrite orb_false_iff, lead_digits_none, <- IH.
    destruct (lead_digits cls (c :: s)) as [[[ld ds] rest]|]; split;
      try congruence; try tauto. intros [? ?]; congruence.
Qed.

Section NormFound.
Variable phi : ascii -> ascii.
Hypothesis phi_digit : forall c, is_digit (phi c) = is_digit c.

Lemma lead_ok_digit_head f cls s :
  digit_free f -> head_digit s = true -> lead_ok (f :: cls) s = false.
Proof.
  intros Hf Hs. destruct s as [|c s]; [reflexivity|]. cbn in *. now rewrite (Hf c Hs).
Qed.

Lemma found_norm f cls s :
  Forall digit_free (f :: cls) -> Forall (respects phi) (f :: cls) ->
  found (f :: cls) (norm phi s) = found (f :: cls) s.
Proof.
  intros Hdf Hphi. pose proof Hdf as Hdf0. inversion Hdf0 as [|? ? Hf _]; subst.
  induction s as [|c s IH]; [reflexivity|].
  cbn [found]. rewrite <- IH, <- (lead_ok_norm phi phi_digit (f :: cls) (c :: s)) by assumption.
  rewrite norm_cons. unfold norm_step.
  destruct (is_digit c) eqn:Hc.
  - destruct (head_digit (norm phi s)) eqn:Hh.
    + rewrite (lead_ok_digit_head f cls _ Hf Hh). reflexivity.
    + reflexivity.
  - reflexivity.
Qed.
End NormFound.

(** ** Lower case *)

Lemma lower_fixed s : lower s = s <-> Forall (fun c => lower_char c = c) s.
Proof.
  unfold lower. induction s as [|c s IH]; cbn.
  - split; [constructor | reflexivity].
  - split.
    + intros [= Hc Hs]. constructor; [assumption | now apply IH].
    + intros H. inversion H as [|? ? Hc Hs]; subst. rewrite Hc. f_equal. now apply IH.
Qed.

Lemma lower_app a b : lower (a ++ b) = lower a ++ lower b.
Proof. unfold lower. apply map_app. Qed.

Lemma lower_char_digit c : is_digit (lower_char c) = is_digit c.
Proof. destruct c as [[] [] [] [] [] [] [] []]; reflexivity. Qed.

Lemma lower_digits ds : Forall (fun c => is_digit c = true) ds -> lower ds = ds.
Proof.
  intros H. apply lower_fixed. eapply Forall_impl; [|exact H].
  intros c Hc. cbv beta. unfold lower_char.
  assert (Hu : is_upper c = false).
  { unfold is_digit, is_upper, in_range in *. lia. }
  now rewrite Hu.
Qed.

Lemma head_digit_lower s : head_digit (lower s) = head_digit s.
Proof. destruct s as [|c s]; [reflexivity|]. cbn. apply lower_char_digit. Qed.

(** A match of the search pattern at the head, as a test. *)
Lemma match_here_lead_ok cls s :
  match match_here (digits_after cls) s with Some _ => true | None => false end
  = lead_ok cls s.
Proof.
  unfold digits_after. rewrite match_lead_digits.
  destruct (lead_digits cls s) as [[[ld ds] rest]|] eqn:E.
  - symmetry. apply lead_digits_ok. eauto.
  - symmetry. now apply lead_digits_none.
Qed.

Lemma first_exact_step cls s :
  first_exact (digits_after cls) s =
  if lead_ok cls (lower s) then lead_ok cls s
  else match s with
       | [] => false
       | _ :: s' => first_exact (digits_after cls) s'
       end.
Proof.
  rewrite <- (match_here_lead_ok cls (lower s)), <- (match_here_lead_ok cls s).
  destruct s as [|c s]; cbn [first_exact];
    destruct (match_here (digits_after cls) (lower _)); reflexivity.
Qed.

(** In a text without upper-case letters the first occurrence is
    spelled as found. *)
Lemma first_exact_lower p s :
  lower s = s -> is_Some (search p s) -> first_exact p s = true.
Proof.
  induction s as [|c s IH]; intros Hl Hs.
  - cbn in *. destruct (match_here p []) as [[m r]|]; [reflexivity|].
    destruct Hs as [? [=]].
  - cbn [first_exact]. rewrite Hl. cbn [search] in Hs.
    destruct (match_here p (c :: s)) as [[m r]|]; [reflexivity|].
    apply IH; [|assumption]. unfold lower in *. cbn in Hl. now injection Hl.
Qed.

(** ** Rewriting the number after a lead *)

Section Rewrite.
Variable f1 : ascii -> bool.
Variable cls' : list (ascii -> bool).
Variable g : nat.
Variable t : template.
Variable rho : str -> str.
Variable vs : str.
Variable phi : ascii -> ascii.

Let cls := f1 :: cls'.
Let S := ones g cls ++ [Atom 0 (Many1 is_digit)].
Let phil (c : ascii) : ascii := phi (lower_char c).

Hypothesis phi_digit : forall c, is_digit (phi c) = is_digit c.
Hypothesis cls_digit_free : Forall digit_free cls.
Hypothesis cls_respects : Forall (respects phi) cls'.
Hypothesis cls_lower : Forall lower_stable cls.
Hypothesis expand_lead : forall ld ds,
    accepts cls ld -> expand t (tag g ld ++ tag 0 ds) = rho ld ++ vs.
Hypothesis rho_lead : forall ld, accepts cls ld -> accepts cls (rho ld).
Hypothesis rho_phi : forall ld, accepts cls ld -> map phi (rho ld) = map phi ld.
Hypothesis vs_digits : Forall (fun c => is_digit c = true) vs.
Hypothesis vs_nonempty : vs <> [].

Lemma sub_step s :
  re_sub S t s =
  match s with
  | [] => []
  | c :: s' =>
      match lead_digits cls s with
      | Some (ld, ds, rest) => rho ld ++ vs ++ re_sub S t rest
      | None => c :: re_sub S t s'
      end
  end.
Proof.
  destruct s as [|c s]; [reflexivity|].
  pose proof (match_lead_digits g 0 cls (c :: s)) as Hm. fold S in Hm.
  destruct (lead_digits cls (c :: s)) as [[[ld ds] rest]|] eqn:E.
  - apply lead_digits_spec in E as (Hs & Hacc & Hne & _ & _).
    rewrite (re_sub_match _ _ _ _ _ Hm).
    + rewrite expand_lead by assumption. now rewrite <- app_assoc.
    + destruct ld; [|discriminate]. inversion Hacc.
  - now apply re_sub_nomatch.
Qed.

Lemma accepts_no_digit ld :
  accepts cls ld -> Forall (fun c => is_digit c = false) ld.
Proof.
  unfold accepts. generalize cls_digit_free. generalize cls. clear.
  intros cls Hdf Hacc. induction Hacc as [|f c cls ld Hc _ IH]; [constructor|].
  inversion Hdf as [|? ? Hf Hdf']; subst. constructor; [|auto].
  destruct (is_digit c) eqn:E; [|reflexivity]. rewrite (Hf c E) in Hc. discriminate.
Qed.

Lemma accepts_head ld : accepts cls ld -> exists c ld', ld = c :: ld' /\ is_digit c = false.
Proof.
  intros H. pose proof (accepts_no_digit _ H) as Hn.
  inversion H; subst. inversion Hn; subst. eauto.
Qed.

Lemma accepts_lower ld : accepts cls ld -> lower ld = ld.
Proof.
  unfold accepts. generalize cls_lower. generalize cls. clear.
  intros cls Hlow Hacc. apply lower_fixed.
  induction Hacc as [|f c cls ld Hc _ IH]; [constructor|].
  inversion Hlow as [|? ? Hf Hlow']; subst. constructor; auto.
Qed.

Lemma head_digit_sub s : head_digit (re_sub S t s) = head_digit s.
Proof.
  rewrite sub_step. destruct s as [|c s]; [reflexivity|].
  destruct (lead_digits cls (c :: s)) as [[[ld ds] rest]|] eqn:E; [|reflexivity].
  apply lead_digits_spec in E as (Hs & Hacc & _).
  destruct (accepts_head _ (rho_lead _ Hacc)) as (y & l' & -> & Hy).
  destruct (accepts_head _ Hacc) as (z & l2 & -> & Hz).
  cbn in Hs. injection Hs as -> _. cbn. congruence.
Qed.

Lemma phil_digit c : is_digit (phil c) = is_digit c.
Proof. unfold phil. now rewrite phi_digit, lower_char_digit. Qed.

Lemma map_phil s : map phil s = map phi (lower s).
Proof. unfold phil, lower. now rewrite map_map. Qed.

Lemma rho_phil ld : accepts cls ld -> map phil (rho ld) = map phil ld.
Proof.
  intros H. rewrite !map_phil, (accepts_lower _ H), (accepts_lower _ (rho_lead _ H)).
  now apply rho_phi.
Qed.

(** Lower-casing first and normalising is normalising with [phil]. *)
Lemma norm_lower s : norm phi (lower s) = norm phil s.
Proof.
  induction s as [|c s IH]; [reflexivity|].
  change (lower (c :: s)) with (lower_char c :: lower s).
  rewrite !norm_cons, IH. unfold norm_step, phil.
  rewrite lower_char_digit. destruct (is_digit c) eqn:E; [|reflexivity].
  destruct (head_digit (norm _ s)); [reflexivity|]. reflexivity.
Qed.

Lemma norm_sub_bounded n : forall s,
  (length s <= n)%nat -> norm phil (re_sub S t s) = norm phil s.
Proof.
  induction n as [|n IH]; intros s Hlen.
  - destruct s; [reflexivity | cbn in Hlen; lia].
  - rewrite sub_step. destruct s as [|c s]; [reflexivity|].
    destruct (lead_digits cls (c :: s)) as [[[ld ds] rest]|] eqn:E.
    + apply lead_digits_spec in E as (Hs & Hacc & Hne & Hds & Hrest).
      rewrite Hs. rewrite !norm_app.
      assert (Hlr : (length rest <= n)%nat).
      { apply (f_equal (@length ascii)) in Hs. rewrite !length_app in Hs. cbn in Hs, Hlen.
        destruct (accepts_head _ Hacc) as (z & l2 & -> & _). cbn in Hs. lia. }
      rewrite (IH rest Hlr).
      assert (Hh : head_digit (norm phil rest) = false).
      { rewrite head_digit_norm by apply phil_digit.
        destruct rest; [reflexivity | assumption]. }
      rewrite (fold_norm_digits phil phil_digit vs _ vs_nonempty vs_digits Hh).
      rewrite (fold_norm_digits phil phil_digit ds _ Hne Hds Hh).
      rewrite !(fold_norm_lead phil) by (apply accepts_no_digit; auto).
      now rewrite rho_phil.
    + rewrite !norm_cons. rewrite IH by (cbn in Hlen; lia). reflexivity.
Qed.

(** The rewrite changes nothing that the normal form of the
    lower-cased text shows. *)
Lemma norm_sub s : norm phi (lower (re_sub S t s)) = norm phi (lower s).
Proof. rewrite !norm_lower. apply (norm_sub_bounded (length s)). lia. Qed.

Lemma lead_ok_lower s : lead_ok cls s = true -> lead_ok cls (lower s) = true.
Proof.
  generalize cls_lower. generalize cls. clear. intros cls Hlow. revert s.
  induction Hlow as [|f cls Hf _ IH]; intros s.
  - cbn. now rewrite head_digit_lower.
  - destruct s as [|c s]; [discriminate|].
    change (lower (c :: s)) with (lower_char c :: lower s). cbn [lead_ok].
    rewrite !andb_true_iff. intros [Hc Hs]. rewrite (Hf c Hc). auto.
Qed.

Lemma lead_ok_sub_cons c s :
  lead_ok cls (lower (c :: re_sub S t s)) = lead_ok cls (lower (c :: s)).
Proof.
  change (lower (c :: re_sub S t s)) with (lower_char c :: lower (re_sub S t s)).
  change (lower (c :: s)) with (lower_char c :: lower s).
  unfold cls. cbn [lead_ok]. f_equal.
  assert (Hdf : Forall digit_free cls') by now inversion cls_digit_free.
  rewrite <- (lead_ok_norm phi phi_digit cls' (lower (re_sub S t s))) by assumption.
  rewrite norm_sub. now apply lead_ok_norm.
Qed.

(** When the first occurrence in the lower-cased text is spelled the
    same way in the text, the first match of the search pattern in the
    lower-cased rewritten text carries the new digits. *)
Lemma search_sub s :
  first_exact (digits_after cls) s = true ->
  exists ld, search (digits_after cls) (lower (re_sub S t s))
             = Some (tag 0 ld ++ tag 1 vs).
Proof.
  induction s as [|c s IH]; intros Hs; rewrite first_exact_step in Hs.
  - discriminate.
  - rewrite sub_step.
    destruct (lead_ok cls (lower (c :: s))) eqn:El.
    + apply lead_digits_ok in Hs as [[[ld ds] rest] E]. rewrite E.
      apply lead_digits_spec in E as (Hurl & Hacc & Hne & Hds & Hrest).
      exists (rho ld). rewrite search_lead_digits.
      rewrite !lower_app, (accepts_lower _ (rho_lead _ Hacc)), (lower_digits _ vs_digits).
      assert (E' : lead_digits cls (rho ld ++ vs ++ lower (re_sub S t rest))
                   = Some (rho ld, vs, lower (re_sub S t rest))).
      { apply lead_digits_spec.
        split; [reflexivity|]. split; [apply rho_lead; assumption|].
        split; [assumption|]. split; [assumption|].
        pose proof (head_digit_lower (re_sub S t rest)) as Hh.
        rewrite head_digit_sub in Hh.
        destruct (lower (re_sub S t rest)) as [|y r]; [exact I|]. cbn in Hh. rewrite Hh.
        destruct rest; [reflexivity | assumption]. }
      now rewrite E'.
    + assert (En : lead_digits cls (c :: s) = None).
      { apply lead_digits_none. destruct (lead_ok cls (c :: s)) eqn:E0; [|reflexivity].
        apply lead_ok_lower in E0. congruence. }
      rewrite En. destruct (IH Hs) as (ld & Hld). exists ld.
      rewrite search_lead_digits.
      assert (E' : lead_digits cls (lower (c :: re_sub S t s)) = None).
      { apply lead_digits_none. now rewrite lead_ok_sub_cons. }
      rewrite E'. exact Hld.
Qed.

(** No other pattern of the same shape appears or disappears. *)
Lemma search_other_sub q qcls s :
  Forall digit_free (q :: qcls) -> Forall (respects phi) (q :: qcls) ->
  search (digits_after (q :: qcls)) (lower (re_sub S t s)) = None <->
  search (digits_after (q :: qcls)) (lower s) = None.
Proof.
  intros Hdf Hphi. rewrite !search_none_found.
  rewrite <- (found_norm phi phi_digit q qcls (lower (re_sub S t s))) by assumption.
  rewrite norm_sub, found_norm by assumption. reflexivity.
Qed.
End Rewrite.

(** ** Decimal text *)

Lemma digit_char_ok d : 0 <= d <= 9 ->
  is_digit (digit_char d) = true /\ digit_val (digit_char d) = d.
Proof.
  intros H.
  assert (E : d = 0 \/ d = 1 \/ d = 2 \/ d = 3 \/ d = 4 \/ d = 5 \/ d = 6 \/
              d = 7 \/ d = 8 \/ d = 9) by lia.
  repeat (destruct E as [-> | E]; [split; reflexivity|]). subst. split; reflexivity.
Qed.

Lemma int_of_digits_snoc ds d :
  int_of_digits (ds ++ [d]) = 10 * int_of_digits ds + digit_val d.
Proof. unfold int_of_digits. now rewrite fold_left_app. Qed.

Lemma digits_aux_spec fuel : forall n acc,
  0 <= n < 2 ^ Z.of_nat fuel -> (0 < fuel)%nat ->
  exists ds, digits_aux fuel n acc = ds ++ acc /\ ds <> [] /\
             Forall (fun c => is_digit c = true) ds /\ int_of_digits ds = n.
Proof.
  induction fuel as [|fuel IH]; intros n acc Hn Hf; [lia|].
  cbn [digits_aux].
  assert (Hmod : 0 <= n mod 10 <= 9) by (pose proof (Z.mod_pos_bound n 10); lia).
  destruct (digit_char_ok _ Hmod) as [Hd Hv].
  destruct (Z.eqb_spec (n / 10) 0) as [Hz|Hnz].
  - exists [digit_char (n mod 10)]. split; [reflexivity|]. split; [discriminate|].
    split; [repeat constructor; assumption|].
    unfold int_of_digits. cbn. rewrite Hv.
    pose proof (Z.div_mod n 10 ltac:(lia)). lia.
  - assert (Hq : 1 <= n / 10) by (pose proof (Z.div_pos n 10); lia).
    assert (Hn10 : 10 <= n).
    { destruct (Z.lt_ge_cases n 10) as [Hlt|]; [|assumption].
      rewrite Z.div_small in Hq by lia. lia. }
    assert (Hfuel : (0 < fuel)%nat).
    { destruct fuel; [|lia]. cbn in Hn. lia. }
    destruct (IH (n / 10) (digit_char (n mod 10) :: acc)) as (ds & E & Hne & Hall & Hval).
    + split; [lia|]. rewrite Nat2Z.inj_succ, Z.pow_succ_r in Hn by lia.
      apply Z.div_lt_upper_bound; lia.
    + assumption.
    + exists (ds ++ [digit_char (n mod 10)]). rewrite E, <- app_assoc.
      split; [reflexivity|]. split; [destruct ds; discriminate|].
      split; [apply Forall_app; split; [assumption | repeat constructor; assumption]|].
      rewrite int_of_digits_snoc, Hval, Hv.
      pose proof (Z.div_mod n 10 ltac:(lia)). lia.
Qed.

Lemma digits_of_spec n : 0 <= n ->
  digits_of n <> [] /\ Forall (fun c => is_digit c = true) (digits_of n) /\
  int_of_digits (digits_of n) = n.
Proof.
  intros Hn. unfold digits_of.
  destruct (digits_aux_spec (S (Z.to_nat (Z.log2 n))) n []) as (ds & E & Hne & Hall & Hval).
  - split; [assumption|]. rewrite Nat2Z.inj_succ, Z2Nat.id by apply Z.log2_nonneg.
    destruct (Z.eq_dec n 0) as [->|]; [reflexivity|]. apply Z.log2_spec. lia.
  - lia.
  - rewrite app_nil_r in E. rewrite E. auto.
Qed.

Lemma str_of_int_nonneg n : 0 <= n -> str_of_int n = digits_of n.
Proof. intros H. unfold str_of_int. destruct (Z.ltb_spec n 0); [lia | reflexivity]. Qed.

Lemma int_literal_tail_digits ds :
  Forall (fun c => is_digit c = true) ds -> int_literal_tail ds = true.
Proof. induction 1 as [|d ds Hd _ IH]; cbn; [reflexivity|]. now rewrite Hd. Qed.

Lemma filter_digits ds :
  Forall (fun c => is_digit c = true) ds -> List.filter (fun c => is_digit c) ds = ds.
Proof. induction 1 as [|d ds Hd _ IH]; cbn; [reflexivity|]. now rewrite Hd, IH. Qed.

Lemma int_literal_digits ds :
  ds <> [] -> Forall (fun c => is_digit c = true) ds -> int_literal ds = true.
Proof.
  intros Hne Hall. unfold int_literal. destruct ds as [|d ds]; [congruence|].
  rewrite (int_literal_tail_digits _ Hall). inversion Hall as [|? ? Hd _]; subst.
  now rewrite Hd.
Qed.

(** [int] reads back a run of at most 4300 digits and refuses a longer
    one. *)
Lemma py_int_digits ds :
  ds <> [] -> Forall (fun c => is_digit c = true) ds ->
  Z.of_nat (length ds) <= int_max_str_digits ->
  py_int ds = Ok (int_of_digits ds).
Proof.
  intros Hne Hall Hlen. unfold py_int.
  rewrite (int_literal_digits _ Hne Hall), (filter_digits _ Hall).
  destruct (Z.leb_spec (Z.of_nat (length ds)) int_max_str_digits); [reflexivity | lia].
Qed.

Lemma py_int_long ds :
  Forall (fun c => is_digit c = true) ds ->
  int_max_str_digits < Z.of_nat (length ds) ->
  py_int ds = Raise ValueError.
Proof.
  intros Hall Hlen. unfold py_int. rewrite (filter_digits _ Hall).
  destruct (Z.leb_spec (Z.of_nat (length ds)) int_max_str_digits); [lia|].
  now rewrite andb_false_r.
Qed.

Lemma py_int_digits_ok ds v :
  Forall (fun c => is_digit c = true) ds -> py_int ds = Ok v ->
  Z.of_nat (length ds) <= int_max_str_digits /\ v = int_of_digits ds.
Proof.
  intros Hall. unfold py_int. rewrite (filter_digits _ Hall).
  destruct (int_literal ds); cbn [andb]; [|discriminate].
  destruct (Z.leb_spec (Z.of_nat (length ds)) int_max_str_digits); [|discriminate].
  intros [= <-]. auto.
Qed.

Lemma py_int_raise s e : py_int s = Raise e -> e = ValueError.
Proof.
  unfold py_int. destruct (_ && _); [discriminate | congruence].
Qed.

(** The number of digits against the magnitude. *)
Lemma digits_aux_length fuel : forall n acc (k : nat),
  0 <= n < 2 ^ Z.of_nat fuel -> (0 < fuel)%nat -> (1 <= k)%nat ->
  n < 10 ^ Z.of_nat k <->
  (length (digits_aux fuel n acc) <= k + length acc)%nat.
Proof.
  induction fuel as [|fuel IH]; intros n acc k Hn Hf Hk; [lia|].
  cbn [digits_aux].
  destruct (Z.eqb_spec (n / 10) 0) as [Hz|Hnz].
  - assert (Hlt : n < 10).
    { pose proof (Z.div_mod n 10 ltac:(lia)). pose proof (Z.mod_pos_bound n 10). lia. }
    assert (H10 : 10 ^ 1 <= 10 ^ Z.of_nat k) by (apply Z.pow_le_mono_r; lia).
    change (10 ^ 1) with 10 in H10. cbn [length]. split; intros; lia.
  - assert (Hq : 1 <= n / 10) by (pose proof (Z.div_pos n 10); lia).
    assert (Hn10 : 10 <= n).
    { destruct (Z.lt_ge_cases n 10) as [Hlt|]; [|assumption].
      rewrite Z.div_small in Hq by lia. lia. }
    assert (Hfuel : (0 < fuel)%nat).
    { destruct fuel; [|lia]. cbn in Hn. lia. }
    assert (Hn' : 0 <= n / 10 < 2 ^ Z.of_nat fuel).
    { split; [lia|]. rewrite Nat2Z.inj_succ, Z.pow_succ_r in Hn by lia.
      apply Z.div_lt_upper_bound; lia. }
    destruct (digits_aux_spec fuel (n / 10) (digit_char (n mod 10) :: acc) Hn' Hfuel)
      as (ds & E & Hne & _ & _).
    destruct k as [|[|k]]; [lia | |].
    + change (10 ^ Z.of_nat 1) with 10. rewrite E, length_app. cbn [length].
      destruct ds; [congruence|]. cbn [length]. split; intros; lia.
    + pose proof (IH (n / 10) (digit_char (n mod 10) :: acc) (S k) Hn' Hfuel
                    ltac:(lia)) as IH'.
      cbn [length] in IH'.
      replace (S k + S (length acc))%nat with (S (S k) + length acc)%nat in IH' by lia.
      rewrite <- IH'. rewrite (Nat2Z.inj_succ (S k)), Z.pow_succ_r by lia.
      split; intros H.
      * apply Z.div_lt_upper_bound; lia.
      * pose proof (Z.div_mod n 10 ltac:(lia)). pose proof (Z.mod_pos_bound n 10). lia.
Qed.

Lemma digits_of_length n (k : nat) :
  0 <= n -> (1 <= k)%nat ->
  n < 10 ^ Z.of_nat k <-> (length (digits_of n) <= k)%nat.
Proof.
  intros Hn Hk. unfold digits_of.
  rewrite (digits_aux_length (S (Z.to_nat (Z.log2 n))) n [] k);
    [cbn [length]; lia | | lia | lia].
  split; [assumption|]. rewrite Nat2Z.inj_succ, Z2Nat.id by apply Z.log2_nonneg.
  destruct (Z.eq_dec n 0) as [->|]; [reflexivity|]. apply Z.log2_spec. lia.
Qed.

Lemma int_str_bound_large : 2 <= int_str_bound.
Proof. vm_compute. discriminate. Qed.

(** [str] refuses exactly the integers whose magnitude reaches
    [int_str_bound]. *)
Lemma digits_within n :
  0 <= n ->
  Z.of_nat (length (digits_of n)) <= int_max_str_digits <-> n < int_str_bound.
Proof.
  intros Hn. unfold int_str_bound, int_max_str_digits.
  change 4300 with (Z.of_nat 4300). rewrite (digits_of_length n 4300 Hn) by lia. lia.
Qed.

Lemma py_str_spec n :
  py_str n = if Z.abs n <? int_str_bound then Ok (str_of_int n) else Raise ValueError.
Proof.
  unfold py_str. pose proof (digits_within (Z.abs n) (Z.abs_nonneg n)) as H.
  destruct (Z.leb_spec (Z.of_nat (length (digits_of (Z.abs n)))) int_max_str_digits),
           (Z.ltb_spec (Z.abs n) int_str_bound); try reflexivity; lia.
Qed.

Lemma py_str_within n : Z.abs n < int_str_bound -> py_str n = Ok (str_of_int n).
Proof.
  intros H. rewrite py_str_spec. destruct (Z.ltb_spec (Z.abs n) int_str_bound); [reflexivity | lia].
Qed.

Lemma py_str_beyond n : int_str_bound <= Z.abs n -> py_str n = Raise ValueError.
Proof.
  intros H. rewrite py_str_spec. destruct (Z.ltb_spec (Z.abs n) int_str_bound); [lia | reflexivity].
Qed.

Lemma py_str_text n t : py_str n = Ok t -> t = str_of_int n.
Proof. unfold py_str. destruct (_ <=? _); congruence. Qed.

Lemma py_str_raise n e : py_str n = Raise e -> e = ValueError.
Proof. unfold py_str. destruct (_ <=? _); congruence. Qed.

Lemma str_of_int_length n :
  0 <= n < int_str_bound -> Z.of_nat (length (str_of_int n)) <= int_max_str_digits.
Proof.
  intros [Hn Hb]. rewrite str_of_int_nonneg by assumption. now apply digits_within.
Qed.

Lemma py_int_str_of_int n : 0 <= n < int_str_bound -> py_int (str_of_int n) = Ok n.
Proof.
  intros Hn. pose proof (str_of_int_length n Hn) as Hlen.
  rewrite str_of_int_nonneg in * by lia.
  destruct (digits_of_spec n ltac:(lia)) as (Hne & Hall & Hval).
  now rewrite py_int_digits, Hval.
Qed.

Lemma word_plain c :
  is_word c = true ->
  is_int_space c = false /\ ascii_eqb c "-" = false /\ ascii_eqb c "+" = false.
Proof. destruct c as [[] [] [] [] [] [] [] []]; intros H; try discriminate H; auto. Qed.

Lemma drop_while_words s :
  Forall (fun c => is_word c = true) s -> drop_while is_int_space s = s.
Proof.
  intros H. destruct H as [|c s Hc _]; [reflexivity|]. cbn.
  now rewrite (proj1 (word_plain c Hc)).
Qed.

(** On the texts that reach it, [py_int] is [int] as modelled for
    arbitrary text. *)
Lemma py_int_text_word s :
  Forall (fun c => is_word c = true) s -> py_int_text s = py_int s.
Proof.
  intros H. unfold py_int_text, py_int.
  rewrite (drop_while_words s H).
  rewrite (drop_while_words (rev s)) by now apply Forall_rev.
  rewrite rev_involutive.
  destruct s as [|c s]; [reflexivity|].
  inversion H as [|? ? Hc _]; subst.
  destruct (word_plain c Hc) as (_ & Hm & Hp). now rewrite Hm, Hp.
Qed.

(** * Pagination patterns *)

Section Pagination.

Import URLGenerator.

(** ** Formatting the number first *)

Lemma query_sub_text key v url :
  query_sub key v url
  = bind (py_str v) (fun _ =>
      Ok (re_sub (Atom 1 (One is_sep) :: lit 1 key ++ lit 1 (str_of_string "=")
                    ++ [Atom 0 (Many1 is_digit)])
                 [RGroup 1; RText (str_of_int v)] url)).
Proof.
  unfold query_sub, py_str.
  destruct (Z.of_nat (length (digits_of (Z.abs v))) <=? int_max_str_digits); reflexivity.
Qed.

Lemma path_sub_text pattern prefix v url :
  path_sub pattern prefix v url
  = bind (py_str v) (fun _ =>
      Ok (re_sub pattern [RText (prefix ++ str_of_int v)] url)).
Proof.
  unfold path_sub, py_str.
  destruct (Z.of_nat (length (digits_of (Z.abs v))) <=? int_max_str_digits); reflexivity.
Qed.

Lemma append_page_beyond url N :
  int_str_bound <= Z.abs N -> append_page url N = Raise ValueError.
Proof. intros H. unfold append_page. now rewrite py_str_beyond. Qed.

(** ** The loop of [detect_pattern] *)

Lemma detect_loop_skip pats1 pats2 s :
  Forall (fun np => search (snd np) s = None) pats1 ->
  detect_loop (pats1 ++ pats2) s = detect_loop pats2 s.
Proof.
  induction 1 as [|[n p] pats1 Hn _ IH]; [reflexivity|].
  cbn in *. now rewrite Hn.
Qed.

Lemma detect_loop_none pats s :
  Forall (fun np => search (snd np) s = None) pats ->
  detect_loop pats s = Ok unknown_info.
Proof.
  intros H. rewrite <- (app_nil_r pats), detect_loop_skip by assumption. reflexivity.
Qed.

Lemma detect_loop_hit pats1 name p pats2 s m v :
  Forall (fun np => search (snd np) s = None) pats1 ->
  search p s = Some m -> py_int (group 1 m) = Ok v ->
  detect_loop (pats1 ++ (name, p) :: pats2) s
  = Ok (PatternInfo name (Some p) v (groups p m)).
Proof.
  intros H Hm Hv. rewrite detect_loop_skip by assumption. cbn. now rewrite Hm, Hv.
Qed.

Lemma detect_loop_name pats s info :
  detect_loop pats s = Ok info ->
  pattern_type info = "unknown"%string \/ In (pattern_type info) (map fst pats).
Proof.
  induction pats as [|[n p] pats IH]; cbn.
  - intros [= <-]. now left.
  - destruct (search p s) as [m|].
    + destruct (py_int (group 1 m)); cbn; [|discriminate]. intros [= <-]. cbn. auto.
    + intros H. destruct (IH H); auto.
Qed.

Lemma detect_loop_found pats s info :
  detect_loop pats s = Ok info ->
  info = unknown_info \/
  exists p, pattern_regex info = Some p /\ is_Some (search p s).
Proof.
  induction pats as [|[n p] pats IH]; cbn.
  - intros [= <-]. now left.
  - destruct (search p s) as [m|] eqn:E; [|assumption].
    destruct (py_int (group 1 m)); cbn; [|discriminate]. intros [= <-].
    right. exists p. rewrite E. eauto.
Qed.

(** A detected pattern is spelled as found when the URL has no
    upper-case letter. *)
Lemma spelled_as_found_lower (url : str) (info : pattern_info) :
  lower url = url -> detect_pattern url = Ok info ->
  pattern_type info <> "unknown"%string ->
  spelled_as_found info url = true.
Proof.
  intros Hl Hd Hn. unfold detect_pattern in Hd. rewrite Hl in Hd.
  apply detect_loop_found in Hd as [-> | (p & Hp & Hs)]; [now contradiction Hn|].
  unfold spelled_as_found. rewrite Hp. now apply first_exact_lower.
Qed.

(** What a result naming the pattern at a given place of the list tells. *)
Lemma detect_loop_at pats1 name p pats2 s info :
  ~ In name (map fst pats1) -> ~ In name (map fst pats2) ->
  name <> "unknown"%string ->
  detect_loop (pats1 ++ (name, p) :: pats2) s = Ok info ->
  pattern_type info = name ->
  Forall (fun np => search (snd np) s = None) pats1 /\
  pattern_regex info = Some p /\
  exists m, search p s = Some m /\ py_int (group 1 m) = Ok (current_page info).
Proof.
  intros H1 H2 Hu. induction pats1 as [|[n' p'] pats1 IH]; cbn [app detect_loop].
  - intros Hd Hn. split; [constructor|].
    destruct (search p s) as [m|].
    + destruct (py_int (group 1 m)) eqn:Ep; cbn in Hd; [|discriminate].
      injection Hd as <-. split; [reflexivity|]. exists m. split; [reflexivity | exact Ep].
    + apply detect_loop_name in Hd as [Hd|Hd]; congruence.
  - intros Hd Hn. cbn in H1.
    destruct (search p' s) as [m|] eqn:E.
    + destruct (py_int (group 1 m)); cbn in Hd; [|discriminate].
      injection Hd as <-. cbn in Hn. tauto.
    + destruct (IH ltac:(tauto) Hd Hn) as [HF Hm]. split; [|assumption].
      constructor; assumption.
Qed.

Lemma group_tag_other g k s : g <> k -> group k (tag g s) = [].
Proof.
  intros H. unfold group, tag. induction s as [|c s IH]; [reflexivity|].
  cbn. destruct (Nat.eqb_spec g k); [congruence | assumption].
Qed.

Lemma group_tag_same g s : group g (tag g s) = s.
Proof.
  unfold group, tag. induction s as [|c s IH]; [reflexivity|].
  cbn. rewrite Nat.eqb_refl. cbn. now f_equal.
Qed.

Lemma group_app k a b : group k (a ++ b) = group k a ++ group k b.
Proof. unfold group. now rewrite filter_app, map_app. Qed.

Section RoundTrip.
Variable pats1 pats2 : list (string * regex).
Variable name : string.
Variable f1 : ascii -> bool.
Variable cls' : list (ascii -> bool).
Variable g : nat.
Variable phi : ascii -> ascii.
Variable t : Z -> template.
Variable rho : str -> str.
Variable value : Z -> Z.

Let cls := f1 :: cls'.

Hypothesis patterns_split :
  PATTERNS = pats1 ++ (name, digits_after cls) :: pats2.
Hypothesis name_before : ~ In name (map fst pats1).
Hypothesis name_after : ~ In name (map fst pats2).
Hypothesis name_known : name <> "unknown"%string.
Hypothesis before_plain : Forall (fun np => plain_pattern phi (snd np)) pats1.
Hypothesis phi_digit : forall c, is_digit (phi c) = is_digit c.
Hypothesis cls_digit_free : Forall digit_free cls.
Hypothesis cls_respects : Forall (respects phi) cls'.
Hypothesis cls_lower : Forall lower_stable cls.
Hypothesis expand_lead : forall N ld ds,
    accepts cls ld ->
    expand (t N) (tag g ld ++ tag 0 ds) = rho ld ++ str_of_int (value N).
Hypothesis rho_lead : forall ld, accepts cls ld -> accepts cls (rho ld).
Hypothesis rho_phi : forall ld, accepts cls ld -> map phi (rho ld) = map phi ld.
Hypothesis generate_kind : forall url N info,
    pattern_type info = name ->
    generate_with url N info
    = bind (py_str (value N)) (fun _ =>
        Ok (re_sub (ones g cls ++ [Atom 0 (Many1 is_digit)]) (t N) url)).

Lemma round_trip_kind (url : str) (N : Z) (info : pattern_info) :
  spelled_as_found info url = true -> 0 <= value N < int_str_bound ->
  detect_pattern url = Ok info -> pattern_type info = name ->
  exists u info',
    generate_next_url url N = Ok u /\ detect_pattern u = Ok info' /\
    pattern_type info' = name /\ current_page info' = value N.
Proof.
  intros Hsp Hv Hdet Hname. unfold cls in *.
  unfold generate_next_url. rewrite Hdet. cbn [bind].
  rewrite (generate_kind url N info Hname), py_str_within by lia. cbn [bind].
  set (u := re_sub _ (t N) url).
  unfold detect_pattern in Hdet. rewrite patterns_split in Hdet.
  destruct (detect_loop_at _ _ _ _ _ _ name_before name_after name_known Hdet Hname)
    as (Hnone & Hre & _).
  unfold spelled_as_found in Hsp. rewrite Hre in Hsp.
  destruct (digits_of_spec _ (proj1 Hv)) as (Hne & Hall & Hval).
  rewrite <- (str_of_int_nonneg _ (proj1 Hv)) in Hne, Hall.
  destruct (search_sub f1 cls' g (t N) rho (str_of_int (value N)) phi
              phi_digit cls_digit_free cls_respects cls_lower (expand_lead N)
              rho_lead rho_phi Hall Hne url Hsp) as (ld & Hld).
  fold u in Hld.
  exists u. eexists. split; [reflexivity|].
  unfold detect_pattern. rewrite patterns_split.
  rewrite (detect_loop_hit pats1 name _ pats2 (lower u)
             (tag 0 ld ++ tag 1 (str_of_int (value N))) (value N)).
  - split; [reflexivity|]. split; reflexivity.
  - apply Forall_forall. intros np Hin.
    pose proof (proj1 (Forall_forall _ _) Hnone np Hin) as Hnp. cbv beta in Hnp.
    destruct (proj1 (Forall_forall _ _) before_plain np Hin) as (q & qcls & Hq & Hdf & Hphi).
    rewrite Hq in *.
    apply (search_other_sub f1 cls' g (t N) rho (str_of_int (value N)) phi
             phi_digit cls_digit_free cls_lower (expand_lead N) rho_lead rho_phi
             Hall Hne q qcls url Hdf Hphi).
    exact Hnp.
  - exact Hld.
  - rewrite group_app, group_tag_other, group_tag_same by lia. cbn [app].
    now apply py_int_str_of_int.
Qed.
End RoundTrip.

(** ** Character classes of the patterns *)

Lemma digit_free_eqb c0 : is_digit c0 = false -> digit_free (ascii_eqb c0).
Proof.
  intros H c Hc. destruct (ascii_eqb c0 c) eqn:E; [|reflexivity].
  apply ascii_eqb_eq in E. congruence.
Qed.

Lemma digit_free_word w :
  Forall (fun c => is_digit c = false) w -> Forall digit_free (map ascii_eqb w).
Proof. induction 1; constructor; auto using digit_free_eqb. Qed.

Lemma is_sep_cases c : is_sep c = true -> c = "?"%char \/ c = "&"%char.
Proof.
  unfold is_sep. rewrite orb_true_iff, !ascii_eqb_eq. tauto.
Qed.

Lemma is_slash_dash_cases c : is_slash_dash c = true -> c = "/"%char \/ c = "-"%char.
Proof.
  unfold is_slash_dash. rewrite orb_true_iff, !ascii_eqb_eq. tauto.
Qed.

Lemma digit_free_sep : digit_free is_sep.
Proof.
  intros c Hc. destruct (is_sep c) eqn:E; [|reflexivity].
  apply is_sep_cases in E as [-> | ->]; discriminate.
Qed.

Lemma digit_free_slash_dash : digit_free is_slash_dash.
Proof.
  intros c Hc. destruct (is_slash_dash c) eqn:E; [|reflexivity].
  apply is_slash_dash_cases in E as [-> | ->]; discriminate.
Qed.

Lemma lower_stable_eqb c0 : lower_char c0 = c0 -> lower_stable (ascii_eqb c0).
Proof. intros H c Hc. apply ascii_eqb_eq in Hc as <-. exact H. Qed.

Lemma lower_stable_word w :
  Forall (fun c => lower_char c = c) w -> Forall lower_stable (map ascii_eqb w).
Proof. induction 1; constructor; auto using lower_stable_eqb. Qed.

Lemma lower_stable_sep : lower_stable is_sep.
Proof. intros c Hc. apply is_sep_cases in Hc as [-> | ->]; reflexivity. Qed.

Lemma lower_stable_slash_dash : lower_stable is_slash_dash.
Proof. intros c Hc. apply is_slash_dash_cases in Hc as [-> | ->]; reflexivity. Qed.

Lemma respects_same f : respects same f.
Proof. intros c. reflexivity. Qed.

Lemma Forall_respects_same cls : Forall (respects same) cls.
Proof. induction cls; constructor; auto using respects_same. Qed.

Lemma dash_to_slash_cases c :
  (c = "-"%char /\ dash_to_slash c = "/"%char) \/ (c <> "-"%char /\ dash_to_slash c = c).
Proof.
  unfold dash_to_slash. destruct (ascii_eqb c "-") eqn:E.
  - apply ascii_eqb_eq in E. auto.
  - right. split; [|reflexivity]. intros ->. discriminate.
Qed.

Lemma dash_to_slash_digit c : is_digit (dash_to_slash c) = is_digit c.
Proof. destruct (dash_to_slash_cases c) as [[-> ->] | [_ ->]]; reflexivity. Qed.

Lemma respects_dash_eqb c0 :
  c0 <> "-"%char -> c0 <> "/"%char -> respects dash_to_slash (ascii_eqb c0).
Proof.
  intros H1 H2 c. destruct (dash_to_slash_cases c) as [[-> ->] | [_ ->]]; [|reflexivity].
  destruct (ascii_eqb c0 "/") eqn:E1; [apply ascii_eqb_eq in E1; congruence|].
  destruct (ascii_eqb c0 "-") eqn:E2; [apply ascii_eqb_eq in E2; congruence|].
  reflexivity.
Qed.

Lemma respects_dash_sep : respects dash_to_slash is_sep.
Proof.
  intros c. destruct (dash_to_slash_cases c) as [[-> ->] | [_ ->]]; reflexivity.
Qed.

Lemma respects_dash_slash_dash : respects dash_to_slash is_slash_dash.
Proof.
  intros c. destruct (dash_to_slash_cases c) as [[-> ->] | [_ ->]]; reflexivity.
Qed.

Lemma not_in_names (name : string) (l : list string) :
  forallb (fun n => negb (String.eqb n name)) l = true -> ~ In name l.
Proof.
  intros H Hin. rewrite forallb_forall in H. specialize (H _ Hin).
  now rewrite String.eqb_refl in H.
Qed.

Lemma accepts_word w : forall ld, accepts (map ascii_eqb w) ld -> ld = w.
Proof.
  unfold accepts. induction w as [|c w IH]; intros ld H; inversion H; subst; [reflexivity|].
  f_equal; [symmetry; now apply ascii_eqb_eq | auto].
Qed.

Lemma accepts_word_then w f : forall ld,
  accepts (map ascii_eqb w ++ [f]) ld -> exists x, ld = w ++ [x] /\ f x = true.
Proof.
  unfold accepts. induction w as [|c w IH]; intros ld H; cbn in H.
  - inversion H as [|? x ? l' Hx Hl]; subst. inversion Hl; subst. exists x. auto.
  - inversion H as [|? x ? l' Hx Hl]; subst. apply ascii_eqb_eq in Hx as <-.
    destruct (IH _ Hl) as (y & -> & Hy). exists y. auto.
Qed.

Lemma expand_query vs ld ds :
  expand [RGroup 1; RText vs] (tag 1 ld ++ tag 0 ds) = ld ++ vs.
Proof.
  cbn. rewrite group_app, group_tag_same, group_tag_other, !app_nil_r by lia. reflexivity.
Qed.

Lemma ones_word g w : ones g (map ascii_eqb w) = lit g w.
Proof. unfold ones, lit. induction w as [|c w IH]; cbn; congruence. Qed.

Lemma lit_app g a b : lit g (a ++ b) = lit g a ++ lit g b.
Proof. unfold lit. apply map_app. Qed.

(** ** Query parameters *)

Section QueryKind.
Variable name : string.
Variable key : str.
Variable value : Z -> Z.
Variable pats1 pats2 : list (string * regex).

Let cls' := map ascii_eqb (key ++ str_of_string "=").

Hypothesis key_plain : Forall (fun c => is_digit c = false) (key ++ str_of_string "=").
Hypothesis key_lower : Forall (fun c => lower_char c = c) (key ++ str_of_string "=").
Hypothesis patterns_split :
  PATTERNS = pats1 ++ (name, digits_after (is_sep :: cls')) :: pats2.
Hypothesis names_before : forallb (fun n => negb (String.eqb n name)) (map fst pats1) = true.
Hypothesis names_after : forallb (fun n => negb (String.eqb n name)) (map fst pats2) = true.
Hypothesis name_known : name <> "unknown"%string.
Hypothesis before_plain : Forall (fun np => plain_pattern same (snd np)) pats1.
Hypothesis generate_kind : forall url N info,
    pattern_type info = name ->
    generate_with url N info = query_sub key (value N) url.

Lemma query_round_trip (url : str) (N : Z) (info : pattern_info) :
  spelled_as_found info url = true -> 0 <= value N < int_str_bound ->
  detect_pattern url = Ok info -> pattern_type info = name ->
  exists u info',
    generate_next_url url N = Ok u /\ detect_pattern u = Ok info' /\
    pattern_type info' = name /\ current_page info' = value N.
Proof.
  apply (round_trip_kind pats1 pats2 name is_sep cls' 1 same
           (fun N => [RGroup 1; RText (str_of_int (value N))]) (fun ld => ld) value).
  - exact patterns_split.
  - now apply not_in_names.
  - now apply not_in_names.
  - exact name_known.
  - exact before_plain.
  - reflexivity.
  - constructor; [apply digit_free_sep | now apply digit_free_word].
  - apply Forall_respects_same.
  - constructor; [apply lower_stable_sep | now apply lower_stable_word].
  - intros N0 ld ds _. apply expand_query.
  - auto.
  - reflexivity.
  - intros url0 N0 info0 Hn. rewrite (generate_kind _ _ _ Hn), query_sub_text.
    unfold cls'. do 4 f_equal.
    change (ones 1 (is_sep :: map ascii_eqb (key ++ str_of_string "=")))
      with (Atom 1 (One is_sep) :: ones 1 (map ascii_eqb (key ++ str_of_string "="))).
    rewrite ones_word, lit_app. cbn [app]. now rewrite <- app_assoc.
Qed.
End QueryKind.

Lemma query_regex_shape key :
  query_regex key = digits_after (is_sep :: map ascii_eqb (key ++ str_of_string "=")).
Proof.
  unfold query_regex, digits_after.
  change (ones 0 (is_sep :: map ascii_eqb (key ++ str_of_string "=")))
    with (Atom 0 (One is_sep) :: ones 0 (map ascii_eqb (key ++ str_of_string "="))).
  rewrite ones_word, lit_app. cbn [app]. now rewrite <- app_assoc.
Qed.

Lemma plain_query_same key :
  Forall (fun c => is_digit c = false) (key ++ str_of_string "=") ->
  plain_pattern same (query_regex key).
Proof.
  intros H. exists is_sep, (map ascii_eqb (key ++ str_of_string "=")).
  split; [apply query_regex_shape|]. split.
  - constructor; [apply digit_free_sep | now apply digit_free_word].
  - apply Forall_respects_same.
Qed.

Lemma plain_query_dash key :
  Forall (fun c => is_digit c = false /\ c <> "-"%char /\ c <> "/"%char)
         (key ++ str_of_string "=") ->
  plain_pattern dash_to_slash (query_regex key).
Proof.
  intros H. exists is_sep, (map ascii_eqb (key ++ str_of_string "=")).
  split; [apply query_regex_shape|]. split.
  - constructor; [apply digit_free_sep|]. apply digit_free_word.
    eapply Forall_impl; [|exact H]. intros c Hc. cbv beta in Hc. tauto.
  - constructor; [apply respects_dash_sep|].
    induction H as [|c w (_ & H1 & H2) _ IH]; constructor; auto using respects_dash_eqb.
Qed.

Lemma round_trip_query_page (url : str) (N : Z) (info : pattern_info) :
  spelled_as_found info url = true -> 0 <= N < int_str_bound ->
  detect_pattern url = Ok info -> pattern_type info = "query_page"%string ->
  exists u info',
    generate_next_url url N = Ok u /\ detect_pattern u = Ok info' /\
    pattern_type info' = "query_page"%string /\ current_page info' = N.
Proof.
  apply (query_round_trip "query_page" (str_of_string "page") (fun N => N)
           [] (skipn 1 PATTERNS)).
  - plain_chars.
  - plain_chars.
  - reflexivity.
  - reflexivity.
  - reflexivity.
  - discriminate.
  - constructor.
  - intros url0 N0 info0 Hn. unfold generate_with. rewrite Hn. reflexivity.
Qed.

Lemma round_trip_query_p (url : str) (N : Z) (info : pattern_info) :
  spelled_as_found info url = true -> 0 <= N < int_str_bound ->
  detect_pattern url = Ok info -> pattern_type info = "query_p"%string ->
  exists u info',
    generate_next_url url N = Ok u /\ detect_pattern u = Ok info' /\
    pattern_type info' = "query_p"%string /\ current_page info' = N.
Proof.
  apply (query_round_trip "query_p" (str_of_string "p") (fun N => N)
           (firstn 1 PATTERNS) (skipn 2 PATTERNS)).
  - plain_chars.
  - plain_chars.
  - reflexivity.
  - reflexivity.
  - reflexivity.
  - discriminate.
  - repeat constructor; apply plain_query_same; plain_chars.
  - intros url0 N0 info0 Hn. unfold generate_with. rewrite Hn. reflexivity.
Qed.

Lemma round_trip_query_offset (url : str) (N : Z) (info : pattern_info) :
  spelled_as_found info url = true -> 0 <= (N - 1) * 20 < int_str_bound ->
  detect_pattern url = Ok info -> pattern_type info = "query_offset"%string ->
  exists u info',
    generate_next_url url N = Ok u /\ detect_pattern u = Ok info' /\
    pattern_type info' = "query_offset"%string /\ current_page info' = (N - 1) * 20.
Proof.
  apply (query_round_trip "query_offset" (str_of_string "offset") (fun N => (N - 1) * 20)
           (firstn 2 PATTERNS) (skipn 3 PATTERNS)).
  - plain_chars.
  - plain_chars.
  - reflexivity.
  - reflexivity.
  - reflexivity.
  - discriminate.
  - repeat constructor; apply plain_query_same; plain_chars.
  - intros url0 N0 info0 Hn. unfold generate_with. rewrite Hn. reflexivity.
Qed.

Lemma round_trip_query_start (url : str) (N : Z) (info : pattern_info) :
  spelled_as_found info url = true -> 0 <= (N - 1) * 20 < int_str_bound ->
  detect_pattern url = Ok info -> pattern_type info = "query_start"%string ->
  exists u info',
    generate_next_url url N = Ok u /\ detect_pattern u = Ok info' /\
    pattern_type info' = "query_start"%string /\ current_page info' = (N - 1) * 20.
Proof.
  apply (query_round_trip "query_start" (str_of_string "start") (fun N => (N - 1) * 20)
           (firstn 3 PATTERNS) (skipn 4 PATTERNS)).
  - plain_chars.
  - plain_chars.
  - reflexivity.
  - reflexivity.
  - reflexivity.
  - discriminate.
  - repeat constructor; apply plain_query_same; plain_chars.
  - intros url0 N0 info0 Hn. unfold generate_with. rewrite Hn. reflexivity.
Qed.

Lemma round_trip_path_page (url : str) (N : Z) (info : pattern_info) :
  spelled_as_found info url = true -> 0 <= N < int_str_bound ->
  detect_pattern url = Ok info -> pattern_type info = "path_page"%string ->
  exists u info',
    generate_next_url url N = Ok u /\ detect_pattern u = Ok info' /\
    pattern_type info' = "path_page"%string /\ current_page info' = N.
Proof.
  apply (round_trip_kind (firstn 4 PATTERNS) (skipn 5 PATTERNS) "path_page"
           (ascii_eqb "/") (map ascii_eqb (str_of_string "page") ++ [is_slash_dash])
           0 dash_to_slash
           (fun N => [RText (str_of_string "/page-" ++ str_of_int N)])
           (fun _ => str_of_string "/page-") (fun N => N)).
  - reflexivity.
  - apply not_in_names. reflexivity.
  - apply not_in_names. reflexivity.
  - discriminate.
  - repeat constructor; apply plain_query_dash; plain_chars.
  - apply dash_to_slash_digit.
  - change (ascii_eqb "/" :: map ascii_eqb (str_of_string "page") ++ [is_slash_dash])
      with (map ascii_eqb (str_of_string "/page") ++ [is_slash_dash]).
    apply Forall_app. split; [apply digit_free_word; plain_chars|].
    repeat constructor. apply digit_free_slash_dash.
  - apply Forall_app. split.
    + repeat constructor; apply respects_dash_eqb; discriminate.
    + repeat constructor. apply respects_dash_slash_dash.
  - change (ascii_eqb "/" :: map ascii_eqb (str_of_string "page") ++ [is_slash_dash])
      with (map ascii_eqb (str_of_string "/page") ++ [is_slash_dash]).
    apply Forall_app. split; [apply lower_stable_word; plain_chars|].
    repeat constructor. apply lower_stable_slash_dash.
  - intros N0 ld ds _. cbn. now rewrite app_nil_r.
  - intros ld _. repeat constructor.
  - intros ld Hld.
    change (ascii_eqb "/" :: map ascii_eqb (str_of_string "page") ++ [is_slash_dash])
      with (map ascii_eqb (str_of_string "/page") ++ [is_slash_dash]) in Hld.
    apply accepts_word_then in Hld as (x & -> & Hx).
    apply is_slash_dash_cases in Hx as [-> | ->]; reflexivity.
  - intros url0 N0 info0 Hn. unfold generate_with. rewrite Hn.
    exact (path_sub_text _ _ _ _).
Qed.

Lemma round_trip_path_p (url : str) (N : Z) (info : pattern_info) :
  spelled_as_found info url = true -> 0 <= N < int_str_bound ->
  detect_pattern url = Ok info -> pattern_type info = "path_p"%string ->
  exists u info',
    generate_next_url url N = Ok u /\ detect_pattern u = Ok info' /\
    pattern_type info' = "path_p"%string /\ current_page info' = N.
Proof.
  apply (round_trip_kind (firstn 5 PATTERNS) (skipn 6 PATTERNS) "path_p"
           (ascii_eqb "/") (map ascii_eqb (str_of_string "p/"))
           0 same
           (fun N => [RText (str_of_string "/p/" ++ str_of_int N)])
           (fun _ => str_of_string "/p/") (fun N => N)).
  - reflexivity.
  - apply not_in_names. reflexivity.
  - apply not_in_names. reflexivity.
  - discriminate.
  - repeat constructor; try (apply plain_query_same; plain_chars).
    exists (ascii_eqb "/"), (map ascii_eqb (str_of_string "page") ++ [is_slash_dash]).
    split; [reflexivity|]. split; [|apply Forall_respects_same].
    change (ascii_eqb "/" :: map ascii_eqb (str_of_string "page") ++ [is_slash_dash])
      with (map ascii_eqb (str_of_string "/page") ++ [is_slash_dash]).
    apply Forall_app. split; [apply digit_free_word; plain_chars|].
    repeat constructor. apply digit_free_slash_dash.
  - reflexivity.
  - change (ascii_eqb "/" :: map ascii_eqb (str_of_string "p/"))
      with (map ascii_eqb (str_of_string "/p/")).
    apply digit_free_word; plain_chars.
  - apply Forall_respects_same.
  - change (ascii_eqb "/" :: map ascii_eqb (str_of_string "p/"))
      with (map ascii_eqb (str_of_string "/p/")).
    apply lower_stable_word; plain_chars.
  - intros N0 ld ds _. cbn. now rewrite app_nil_r.
  - intros ld _. repeat constructor.
  - intros ld Hld.
    change (ascii_eqb "/" :: map ascii_eqb (str_of_string "p/"))
      with (map ascii_eqb (str_of_string "/p/")) in Hld.
    apply accepts_word in Hld as ->. reflexivity.
  - intros url0 N0 info0 Hn. unfold generate_with. rewrite Hn.
    exact (path_sub_text _ _ _ _).
Qed.

Lemma max_group_digits_after cls : max_group (digits_after cls) = 1%nat.
Proof.
  unfold digits_after, max_group, ones. induction cls as [|f cls IH]; cbn; [reflexivity|].
  cbn in IH. now rewrite IH.
Qed.

Lemma groups_digits_after cls ld ds :
  groups (digits_after cls) (tag 0 ld ++ tag 1 ds) = [ds].
Proof.
  unfold groups. rewrite max_group_digits_after. cbn.
  now rewrite group_app, group_tag_other, group_tag_same by lia.
Qed.

(** The six leading entries of [PATTERNS] are a lead followed by digits. *)
Lemma leading_patterns_shape (i : nat) name p :
  (i < 6)%nat -> PATTERNS !! i = Some (name, p) ->
  exists cls, p = digits_after cls.
Proof.
  intros Hi H.
  destruct i as [|[|[|[|[|[|i]]]]]]; try lia; injection H as <- <-.
  - eexists. apply query_regex_shape.
  - eexists. apply query_regex_shape.
  - eexists. apply query_regex_shape.
  - eexists. apply query_regex_shape.
  - exists (map ascii_eqb (str_of_string "/page") ++ [is_slash_dash]). reflexivity.
  - exists (map ascii_eqb (str_of_string "/p/")). reflexivity.
Qed.

Lemma search_first_occurrence cls s m :
  search (digits_after cls) s = Some m ->
  exists pre lead ds rest,
    s = pre ++ lead ++ ds ++ rest /\ m = tag 0 lead ++ tag 1 ds /\
    accepts cls lead /\ ds <> [] /\ Forall (fun c => is_digit c = true) ds /\
    head_digit rest = false /\ lang (digits_after cls) (lead ++ ds) /\
    (forall pre' m' rest', s = pre' ++ m' ++ rest' -> lang (digits_after cls) m' ->
                           (length pre <= length pre')%nat).
Proof.
  intros Hs. destruct (search_some _ _ _ Hs) as (pre & rest & Hurl & Hm & Hleft).
  pose proof (match_here_sound _ _ _ _ Hm) as [_ HL].
  unfold digits_after in Hm. rewrite match_lead_digits in Hm.
  destruct (lead_digits cls (map snd m ++ rest)) as [[[ld ds] rest']|] eqn:E; [|discriminate].
  injection Hm as <- ->.
  apply lead_digits_spec in E as (Htxt & Hacc & Hne & Hds & Hrest).
  exists pre, ld, ds, rest.
  assert (Ht : map snd (tag 0 ld ++ tag 1 ds) = ld ++ ds).
  { unfold tag. rewrite map_app, !map_map. cbn. now rewrite !map_id. }
  rewrite Ht in *.
  split; [now rewrite <- app_assoc in Hurl|]. split; [reflexivity|].
  split; [assumption|]. split; [assumption|]. split; [assumption|].
  split; [destruct rest; [reflexivity | assumption]|]. split; assumption.
Qed.

(** Where [detect_pattern] does what is expected of it.  On the
    lower-cased URL it tries [page=], [p=], [offset=], [start=],
    [/page/N] or [/page-N], and [/p/N], in this order: when one of
    these six occurs and none before it does, the result names it and
    [current_page] is the integer written by the digits of its leftmost
    occurrence, taken as far as they go ([ValueError] when they are
    more than 4300); when none of the patterns of [PATTERNS] occurs the
    result is ["unknown"] with [current_page = 1]. *)
Lemma detect_pattern_priority (url : str) :
  (forall (i : nat) name p,
      (i < 6)%nat -> PATTERNS !! i = Some (name, p) ->
      (forall (j : nat) name' p', (j < i)%nat -> PATTERNS !! j = Some (name', p') ->
                          ~ occurs p' (lower url)) ->
      occurs p (lower url) ->
      exists pre lead ds rest,
        lower url = pre ++ lead ++ ds ++ rest /\
        lang p (lead ++ ds) /\
        ds <> [] /\ Forall (fun c => is_digit c = true) ds /\
        head_digit rest = false /\
        (forall pre' m' rest', lower url = pre' ++ m' ++ rest' -> lang p m' ->
                               (length pre <= length pre')%nat) /\
        detect_pattern url
        = if Z.of_nat (length ds) <=? int_max_str_digits
          then Ok (PatternInfo name (Some p) (int_of_digits ds) [ds])
          else Raise ValueError)
  /\
  ((forall name p, In (name, p) PATTERNS -> ~ occurs p (lower url)) ->
   detect_pattern url = Ok unknown_info).
Proof.
  split.
  - intros i name p Hi Hp Hbefore Hocc.
    destruct (leading_patterns_shape i name p Hi Hp) as [cls ->].
    destruct (search (digits_after cls) (lower url)) as [m|] eqn:Hs;
      [|apply search_none in Hs; contradiction].
    destruct (search_first_occurrence _ _ _ Hs)
      as (pre & ld & ds & rest & Hurl & -> & Hacc & Hne & Hds & Hrest & HL & Hleft).
    exists pre, ld, ds, rest. repeat (split; [assumption|]).
    unfold detect_pattern. rewrite <- (take_drop_middle PATTERNS i _ Hp).
    assert (Hskip : Forall (fun np => search (snd np) (lower url) = None)
                           (take i PATTERNS)).
    { apply Forall_forall. intros [n' p'] Hin. cbn.
      apply list_elem_of_In, list_elem_of_lookup in Hin as [j Hj].
      apply lookup_take_Some in Hj as [Hj Hlt].
      apply search_none. eapply Hbefore; eauto. }
    assert (Hg : group 1 (tag 0 ld ++ tag 1 ds) = ds)
      by now rewrite group_app, group_tag_other, group_tag_same by lia.
    destruct (Z.leb_spec (Z.of_nat (length ds)) int_max_str_digits) as [Hlen|Hlen].
    + rewrite (detect_loop_hit _ name _ _ (lower url) (tag 0 ld ++ tag 1 ds)
                 (int_of_digits ds)); [now rewrite groups_digits_after | | |];
        [exact Hskip | exact Hs |].
      rewrite Hg. now apply py_int_digits.
    + rewrite detect_loop_skip by exact Hskip. cbn [detect_loop]. rewrite Hs, Hg.
      now rewrite py_int_long.
  - intros Hnone. unfold detect_pattern. apply detect_loop_none.
    apply Forall_forall. intros [n p] Hin. cbn. apply search_none. eauto.
Qed.

Lemma detect_pattern_priority_witness :
  exists pre lead ds rest,
    lower (str_of_string "https://x.com/items?page=2") = pre ++ lead ++ ds ++ rest /\
    lang (query_regex (str_of_string "page")) (lead ++ ds) /\
    ds <> [] /\ Forall (fun c => is_digit c = true) ds /\
    head_digit rest = false /\
    (forall pre' m' rest',
        lower (str_of_string "https://x.com/items?page=2") = pre' ++ m' ++ rest' ->
        lang (query_regex (str_of_string "page")) m' ->
        (length pre <= length pre')%nat) /\
    detect_pattern (str_of_string "https://x.com/items?page=2")
    = if Z.of_nat (length ds) <=? int_max_str_digits
      then Ok (PatternInfo "query_page" (Some (query_regex (str_of_string "page")))
                           (int_of_digits ds) [ds])
      else Raise ValueError.
Proof.
  apply (proj1 (detect_pattern_priority (str_of_string "https://x.com/items?page=2"))
           0%nat "query_page"%string (query_regex (str_of_string "page"))).
  - lia.
  - reflexivity.
  - intros j name' p' Hj. lia.
  - exists (str_of_string "https://x.com/items"), (str_of_string "?page=2"), [].
    split; [reflexivity|].
    change (str_of_string "?page=2")
      with ("?"%char :: "p"%char :: "a"%char :: "g"%char :: "e"%char :: "="%char
              :: (["2"%char] ++ [])).
    unfold query_regex. cbn [lit map app str_of_string list_ascii_of_string].
    repeat (apply lang_one; [reflexivity|]).
    apply (lang_many 1 is_digit [] ["2"%char] []);
      [discriminate | repeat constructor | constructor].
Defined.

(** C3.  A URL whose only integer query parameter has another name,
    ["https://x.com/items?limit=30"]: the generic pattern
    [[?&](\w+)=(\d+)] matches [?limit=30] with the key in group 1 and
    the integer in group 2, [int] is applied to group 1, and
    [detect_pattern] raises [ValueError] where the claim has it return
    30 as [current_page]; [extract_page_number] and
    [generate_next_url], which call it outside any [try], raise with
    it. *)
Theorem detect_pattern_generic_key_raises :
  (exists m,
      search generic_regex (lower (str_of_string "https://x.com/items?limit=30"))
      = Some m /\
      matched_text m = str_of_string "?limit=30" /\
      group 1 m = str_of_string "limit" /\ group 2 m = str_of_string "30") /\
  detect_pattern (str_of_string "https://x.com/items?limit=30") = Raise ValueError /\
  extract_page_number (str_of_string "https://x.com/items?limit=30")
  = Raise ValueError /\
  generate_next_url (str_of_string "https://x.com/items?limit=30") 2
  = Raise ValueError.
Proof.
  split; [|repeat split; vm_compute; reflexivity].
  eexists. split; [vm_compute; reflexivity|]. repeat split; vm_compute; reflexivity.
Qed.

(** [/p/N], the sixth entry of [PATTERNS], is recognised as well. *)
Lemma detect_pattern_path_p :
  exists info, detect_pattern (str_of_string "https://x.com/p/3") = Ok info /\
               pattern_type info = "path_p"%string /\ current_page info = 3.
Proof. eexists. split; [vm_compute; reflexivity|]. split; reflexivity. Qed.

(** C10.  The URL ["https://x.com/items?Page=2"] differs from the
    [page=] pattern in letter case only: [detect_pattern], which looks
    at the lower-cased copy, reports [query_page] with page 2, and
    [generate_next_url] returns the URL unchanged for every target
    page, since the case-sensitive rewrite finds nothing to replace and
    no fallback parameter is appended for a detected pattern.  (Every
    target page that can be written, that is: one of more than 4300
    digits makes the call raise [ValueError] like any other call with
    it.) *)
Theorem case_variant_unchanged :
  forall N : Z,
    (exists info,
        detect_pattern (str_of_string "https://x.com/items?Page=2") = Ok info /\
        pattern_type info = "query_page"%string /\ current_page info = 2) /\
    generate_next_url (str_of_string "https://x.com/items?Page=2") N
    = if Z.abs N <? int_str_bound
      then Ok (str_of_string "https://x.com/items?Page=2")
      else Raise ValueError.
Proof.
  intros N.
  assert (Hdet : detect_pattern (str_of_string "https://x.com/items?Page=2")
                 = Ok (PatternInfo "query_page"
                         (Some (query_regex (str_of_string "page"))) 2
                         [str_of_string "2"])) by (vm_compute; reflexivity).
  split.
  - eexists. split; [exact Hdet|]. split; reflexivity.
  - unfold generate_next_url. rewrite Hdet. cbn [bind].
    change (generate_with (str_of_string "https://x.com/items?Page=2") N _)
      with (query_sub (str_of_string "page") N
              (str_of_string "https://x.com/items?Page=2")).
    rewrite query_sub_text, py_str_spec.
    destruct (Z.ltb_spec (Z.abs N) int_str_bound) as [Hn|Hn]; cbn [bind].
    + vm_compute. reflexivity.
    + now apply append_page_beyond.
Qed.

(** Where the round trip holds.  Let [detect_pattern] find [page=],
    [p=], [/page/N], [/page-N] or [/p/N] in a URL, and let the
    occurrence it found in the lower-cased copy be spelled the same way
    in the URL itself (as it is in every URL without upper-case
    letters).  Then for every target page [N >= 0] of at most 4300
    digits, [generate_next_url] followed by [detect_pattern] gives the
    same pattern with [current_page = N]; for [offset=] and [start=]
    and [N >= 1] it gives [current_page = (N - 1) * 20], the offset
    that was written; and ["https://x.com/items?page=2"] with target
    page 5 becomes ["https://x.com/items?page=5"]. *)
Lemma generate_then_detect :
  (forall (url : str) (N : Z) (info : pattern_info),
      detect_pattern url = Ok info -> spelled_as_found info url = true ->
      In (pattern_type info)
         ["query_page"; "query_p"; "path_page"; "path_p"]%string ->
      0 <= N < int_str_bound ->
      exists u info',
        generate_next_url url N = Ok u /\ detect_pattern u = Ok info' /\
        pattern_type info' = pattern_type info /\ current_page info' = N)
  /\
  (forall (url : str) (N : Z) (info : pattern_info),
      detect_pattern url = Ok info -> spelled_as_found info url = true ->
      In (pattern_type info) ["query_offset"; "query_start"]%string ->
      1 <= N -> (N - 1) * 20 < int_str_bound ->
      exists u info',
        generate_next_url url N = Ok u /\ detect_pattern u = Ok info' /\
        pattern_type info' = pattern_type info /\
        current_page info' = (N - 1) * 20)
  /\
  (forall (url : str) (info : pattern_info),
      lower url = url -> detect_pattern url = Ok info ->
      pattern_type info <> "unknown"%string ->
      spelled_as_found info url = true)
  /\
  generate_next_url (str_of_string "https://x.com/items?page=2") 5
  = Ok (str_of_string "https://x.com/items?page=5").
Proof.
  split; [|split; [|split]].
  - intros url N info Hdet Hsp Hin HN.
    destruct Hin as [H|[H|[H|[H|[]]]]]; symmetry in H; rewrite H.
    + now apply (round_trip_query_page url N info).
    + now apply (round_trip_query_p url N info).
    + now apply (round_trip_path_page url N info).
    + now apply (round_trip_path_p url N info).
  - intros url N info Hdet Hsp Hin HN Hb.
    destruct Hin as [H|[H|[]]]; symmetry in H; rewrite H.
    + apply (round_trip_query_offset url N info); auto; lia.
    + apply (round_trip_query_start url N info); auto; lia.
  - apply spelled_as_found_lower.
  - vm_compute. reflexivity.
Qed.

Lemma generate_then_detect_witness :
  exists u info',
    generate_next_url (str_of_string "https://x.com/Items?page=2") 5 = Ok u /\
    detect_pattern u = Ok info' /\
    pattern_type info' = "query_page"%string /\ current_page info' = 5.
Proof.
  refine (proj1 generate_then_detect
            (str_of_string "https://x.com/Items?page=2") 5
            (PatternInfo "query_page" (Some (query_regex (str_of_string "page"))) 2
                         [str_of_string "2"]) _ _ _ _).
  - vm_compute. reflexivity.
  - vm_compute. reflexivity.
  - cbn. auto.
  - split; [lia | vm_compute; reflexivity].
Defined.

(** The offsets: what the claim itself says of [offset=] and [start=],
    the rewrite writes [(N - 1) * 20] and that is the number read
    back. *)
Lemma round_trip_offset_example :
  exists info u info',
    detect_pattern (str_of_string "https://x.com/items?offset=40") = Ok info /\
    pattern_type info = "query_offset"%string /\
    generate_next_url (str_of_string "https://x.com/items?offset=40") 5 = Ok u /\
    u = str_of_string "https://x.com/items?offset=80" /\
    detect_pattern u = Ok info' /\ current_page info' = 80.
Proof.
  do 3 eexists. split; [vm_compute; reflexivity|]. split; [reflexivity|].
  split; [vm_compute; reflexivity|]. split; [reflexivity|].
  split; [vm_compute; reflexivity|]. reflexivity.
Qed.

(** C1.  Two URLs in which a known pattern is detected and for which
    the round trip to page 5 fails.  In ["https://x.com/items?Page=2"]
    the pattern [page=] is found in the lower-cased copy, the
    case-sensitive rewrite of the URL itself replaces nothing, the URL
    comes back as it was and [detect_pattern] reads page 2 again.  In
    ["https://x.com/items?7=3"] the generic pattern is found, the
    rewrite writes [?7=5], and [detect_pattern] reads the key, 7, as
    the page. *)
Theorem round_trip_lost :
  (exists info u info',
      detect_pattern (str_of_string "https://x.com/items?Page=2") = Ok info /\
      pattern_type info = "query_page"%string /\ current_page info = 2 /\
      generate_next_url (str_of_string "https://x.com/items?Page=2") 5 = Ok u /\
      u = str_of_string "https://x.com/items?Page=2" /\
      detect_pattern u = Ok info' /\ current_page info' = 2 /\
      current_page info' <> 5)
  /\
  (exists info u info',
      detect_pattern (str_of_string "https://x.com/items?7=3") = Ok info /\
      pattern_type info = "query_custom"%string /\
      generate_next_url (str_of_string "https://x.com/items?7=3") 5 = Ok u /\
      u = str_of_string "https://x.com/items?7=5" /\
      detect_pattern u = Ok info' /\ current_page info' = 7 /\
      current_page info' <> 5).
Proof.
  split.
  - do 3 eexists. split; [vm_compute; reflexivity|]. split; [reflexivity|].
    split; [reflexivity|]. split; [vm_compute; reflexivity|]. split; [reflexivity|].
    split; [vm_compute; reflexivity|]. split; [reflexivity | discriminate].
  - do 3 eexists. split; [vm_compute; reflexivity|]. split; [reflexivity|].
    split; [vm_compute; reflexivity|]. split; [reflexivity|].
    split; [vm_compute; reflexivity|]. split; [reflexivity | discriminate].
Qed.

End Pagination.

(** * Consolidation *)

Section Consolidation.

Import DataConsolidationService.

Lemma dict_to_list_fits h r :
  fits h r = true -> Csv.dict_to_list h r = Ok (map (Csv.field_text r) h).
Proof.
  intros H. unfold Csv.dict_to_list.
  replace (List.filter _ r) with (@nil (option str * Csv.cell)); [reflexivity|].
  symmetry. unfold fits in H. induction r as [|kv r IH]; [reflexivity|].
  cbn in *. apply andb_true_iff in H as [H1 H2]. rewrite H1. cbn. auto.
Qed.

Lemma dict_to_list_ok h r row :
  Csv.dict_to_list h r = Ok row -> row = map (Csv.field_text r) h.
Proof.
  unfold Csv.dict_to_list. destruct (List.filter _ r); [|discriminate]. congruence.
Qed.

Lemma writerows_fits h rs :
  Forall (fun r => fits h r = true) rs ->
  Csv.writerows h rs
  = Ok (flat_map (fun r => Csv.writerow (map (Csv.field_text r) h)) rs).
Proof.
  induction 1 as [|r rs Hr _ IH]; [reflexivity|].
  cbn. rewrite (dict_to_list_fits _ _ Hr). cbn. rewrite IH. reflexivity.
Qed.

Lemma writerows_ok h rs body :
  Csv.writerows h rs = Ok body ->
  body = flat_map (fun r => Csv.writerow (map (Csv.field_text r) h)) rs.
Proof.
  revert body. induction rs as [|r rs IH]; intros body; cbn.
  - congruence.
  - destruct (Csv.dict_to_list h r) as [row|] eqn:E; [|discriminate]. cbn.
    destruct (Csv.writerows h rs) as [rest|]; [|discriminate]. cbn.
    intros [= <-]. apply dict_to_list_ok in E as ->. now rewrite (IH rest).
Qed.

Lemma field_text_missing r key :
  Csv.dict_get (Some key) r = None -> Csv.field_text r key = [].
Proof. intros H. unfold Csv.field_text. now rewrite H. Qed.

Section MergeFacts.
Variable hash : Csv.record -> str.
Variable deduplicate : bool.

Lemma add_record_headers st r :
  headers (add_record hash deduplicate st r) = headers st.
Proof. unfold add_record. destruct deduplicate; [destruct (bool_decide _)|]; reflexivity. Qed.

Lemma add_records_headers rs : forall st,
  headers (fold_left (add_record hash deduplicate) rs st) = headers st.
Proof.
  induction rs as [|r rs IH]; intros st; [reflexivity|].
  cbn. now rewrite IH, add_record_headers.
Qed.

Lemma add_file_headers st f :
  headers (add_file hash deduplicate st f)
  = match headers st with
    | None => Some (fst (parse_csv_to_records f))
    | Some h => Some h
    end.
Proof.
  unfold add_file. destruct (parse_csv_to_records f) as [h rs].
  rewrite add_records_headers. destruct (headers st) eqn:E; [assumption | reflexivity].
Qed.

Lemma add_files_headers_some fs : forall st h,
  headers st = Some h ->
  headers (fold_left (add_file hash deduplicate) fs st) = Some h.
Proof.
  induction fs as [|f fs IH]; intros st h H; [assumption|].
  cbn. apply IH. now rewrite add_file_headers, H.
Qed.

(** The headers are those of the first batch, whatever follows. *)
Lemma merge_headers f fs :
  headers (fold_left (add_file hash deduplicate) (f :: fs) merge_init)
  = Some (fst (parse_csv_to_records f)).
Proof. cbn [fold_left]. apply add_files_headers_some. now rewrite add_file_headers. Qed.

(** Every record is either kept or counted as a duplicate. *)
Lemma add_record_count st r :
  Z.of_nat (length (all_records (add_record hash deduplicate st r)))
    + duplicates_found (add_record hash deduplicate st r)
  = Z.of_nat (length (all_records st)) + duplicates_found st + 1.
Proof.
  unfold add_record. destruct deduplicate; [destruct (bool_decide _)|];
    cbn; rewrite ?length_app; cbn; lia.
Qed.

Lemma add_records_count rs : forall st,
  let st' := fold_left (add_record hash deduplicate) rs st in
  Z.of_nat (length (all_records st')) + duplicates_found st'
  = Z.of_nat (length (all_records st)) + duplicates_found st + Z.of_nat (length rs).
Proof.
  induction rs as [|r rs IH]; intros st; cbn [fold_left length]; [lia|].
  cbv zeta in *. rewrite IH, add_record_count. lia.
Qed.

Lemma add_file_records st f :
  add_file hash deduplicate st f
  = fold_left (add_record hash deduplicate) (snd (parse_csv_to_records f))
      (match headers st with
       | None => MergeState (all_records st) (Some (fst (parse_csv_to_records f)))
                            (record_hashes st) (duplicates_found st)
       | Some _ => st
       end).
Proof. unfold add_file. now destruct (parse_csv_to_records f). Qed.

Lemma add_files_count fs : forall st,
  let st' := fold_left (add_file hash deduplicate) fs st in
  Z.of_nat (length (all_records st')) + duplicates_found st'
  = Z.of_nat (length (all_records st)) + duplicates_found st
    + Z.of_nat (length (parsed_records fs)).
Proof.
  induction fs as [|f fs IH]; intros st; cbn [fold_left parsed_records flat_map length]; [lia|].
  cbv zeta in *. rewrite IH, add_file_records, add_records_count.
  fold (parsed_records fs). rewrite length_app.
  destruct (headers st); cbn; lia.
Qed.

(** The kept records are input records, in their order. *)
Lemma add_record_sublist st r acc :
  sublist (all_records st) acc ->
  sublist (all_records (add_record hash deduplicate st r)) (acc ++ [r]).
Proof.
  intros H. unfold add_record.
  destruct deduplicate; [destruct (bool_decide _)|]; cbn.
  - now apply sublist_inserts_r.
  - apply sublist_app; [assumption | reflexivity].
  - apply sublist_app; [assumption | reflexivity].
Qed.

Lemma add_records_sublist rs : forall st acc,
  sublist (all_records st) acc ->
  sublist (all_records (fold_left (add_record hash deduplicate) rs st)) (acc ++ rs).
Proof.
  induction rs as [|r rs IH]; intros st acc H; cbn [fold_left].
  - now rewrite app_nil_r.
  - replace (acc ++ r :: rs) with ((acc ++ [r]) ++ rs) by now rewrite <- app_assoc.
    apply IH. now apply add_record_sublist.
Qed.

Lemma add_files_sublist fs : forall st acc,
  sublist (all_records st) acc ->
  sublist (all_records (fold_left (add_file hash deduplicate) fs st))
          (acc ++ parsed_records fs).
Proof.
  induction fs as [|f fs IH]; intros st acc H; cbn [fold_left parsed_records flat_map].
  - now rewrite app_nil_r.
  - fold (parsed_records fs). rewrite app_assoc. apply IH.
    rewrite add_file_records. apply add_records_sublist. now destruct (headers st).
Qed.

Lemma merge_kept_sublist fs :
  sublist (all_records (fold_left (add_file hash deduplicate) fs merge_init))
          (parsed_records fs).
Proof. apply (add_files_sublist fs merge_init []). constructor. Qed.

(** What [merge_with] returns once the loop is over. *)
Lemma merge_with_result f fs :
  let st := fold_left (add_file hash deduplicate) (f :: fs) merge_init in
  let h := fst (parse_csv_to_records f) in
  h <> [] ->
  Forall (fun r => fits h r = true) (all_records st) ->
  merge_with hash (f :: fs) deduplicate
  = (Csv.writerow h
       ++ flat_map (fun r => Csv.writerow (map (Csv.field_text r) h)) (all_records st),
     Z.of_nat (length (all_records st)), duplicates_found st).
Proof.
  intros st h Hh Hfit. unfold merge_with. fold st.
  unfold st at 1 2. rewrite merge_headers. fold h.
  destruct h as [|x h'] eqn:Eh; [congruence|]. cbn [is_empty_headers].
  unfold Csv.DictWriter_dump. rewrite (writerows_fits _ _ Hfit). reflexivity.
Qed.
End MergeFacts.

Lemma Forall_of_sublist {A} (P : A -> Prop) (l1 l2 : list A) :
  sublist l1 l2 -> Forall P l2 -> Forall P l1.
Proof.
  induction 1 as [|x l1 l2 _ IH|x l1 l2 _ IH]; intros H.
  - constructor.
  - inversion H; subst. constructor; auto.
  - inversion H; subst. auto.
Qed.

Lemma add_records_all hash rs : forall st,
  all_records (fold_left (add_record hash false) rs st) = all_records st ++ rs.
Proof.
  induction rs as [|r rs IH]; intros st; cbn [fold_left]; [now rewrite app_nil_r|].
  rewrite IH. cbn. now rewrite <- app_assoc.
Qed.

Lemma add_files_all hash fs : forall st,
  all_records (fold_left (add_file hash false) fs st)
  = all_records st ++ parsed_records fs.
Proof.
  induction fs as [|f fs IH]; intros st; cbn [fold_left parsed_records flat_map];
    [now rewrite app_nil_r|].
  fold (parsed_records fs). rewrite IH, add_file_records, add_records_all, app_assoc.
  now destruct (headers st).
Qed.

(** ** Compatible headers *)

Lemma key_eqb_refl k : Csv.key_eqb k k = true.
Proof. destruct k as [x|]; [|reflexivity]. cbn. now apply str_eqb_eq. Qed.

Lemma fits_cons h kv r :
  fits h (kv :: r) = existsb (fun f => Csv.key_eqb (fst kv) (Some f)) h && fits h r.
Proof. reflexivity. Qed.

Lemma field_known h f : In f h -> existsb (fun x => Csv.key_eqb (Some f) (Some x)) h = true.
Proof. intros H. apply existsb_exists. exists f. split; [assumption | apply key_eqb_refl]. Qed.

Lemma fits_dict_set h f v d :
  In f h -> fits h d = true -> fits h (Csv.dict_set (Some f) v d) = true.
Proof.
  intros Hf. induction d as [|[k w] d IH]; intros Hd.
  - cbn [Csv.dict_set]. rewrite fits_cons. cbn [fst].
    now rewrite (field_known h f Hf).
  - rewrite fits_cons in Hd. apply andb_true_iff in Hd as [Hk Hd].
    cbn [Csv.dict_set]. destruct (Csv.key_eqb (Some f) k).
    + rewrite fits_cons. cbn [fst]. now rewrite (field_known h f Hf).
    + rewrite fits_cons. cbn [fst] in *. rewrite Hk. auto.
Qed.

Lemma fits_dict_zip h fs : forall xs d,
  incl fs h -> fits h d = true -> fits h (Csv.dict_zip fs xs d) = true.
Proof.
  induction fs as [|f fs IH]; intros xs d Hin Hd; [assumption|].
  destruct xs as [|x xs]; [assumption|]. cbn [Csv.dict_zip].
  apply IH.
  - intros y Hy. apply Hin. now right.
  - apply fits_dict_set; [apply Hin; now left | assumption].
Qed.

Lemma fits_fill h fs : forall d,
  incl fs h -> fits h d = true ->
  fits h (fold_left (fun d key => Csv.dict_set (Some key) Csv.VNone d) fs d) = true.
Proof.
  induction fs as [|f fs IH]; intros d Hin Hd; [assumption|].
  cbn [fold_left]. apply IH.
  - intros y Hy. apply Hin. now right.
  - apply fits_dict_set; [apply Hin; now left | assumption].
Qed.

Lemma skipn_incl {A} (n : nat) : forall l : list A, incl (skipn n l) l.
Proof.
  induction n as [|n IH]; intros l; [apply incl_refl|].
  destruct l as [|x l]; [apply incl_refl|]. cbn. intros y Hy. right. now apply IH.
Qed.

(** A row that is not longer than the header gives a record with
    fields of the header only. *)
Lemma fits_row_to_dict h row :
  (length row <= length h)%nat -> fits h (Csv.row_to_dict h row) = true.
Proof.
  intros Hlen. unfold Csv.row_to_dict.
  assert (Hz : fits h (Csv.dict_zip h row []) = true)
    by (apply fits_dict_zip; [apply incl_refl | reflexivity]).
  destruct (Nat.ltb_spec (length h) (length row)); [lia|].
  destruct (Nat.ltb_spec (length row) (length h)); [|assumption].
  apply fits_fill; [|assumption].
  apply skipn_incl.
Qed.

Lemma fits_incl h h' r : incl h h' -> fits h r = true -> fits h' r = true.
Proof.
  intros Hin. unfold fits. rewrite !forallb_forall. intros H kv Hkv.
  specialize (H kv Hkv). apply existsb_exists in H as (f & Hf & Hk).
  apply existsb_exists. exists f. auto.
Qed.

Lemma parse_of_rows b h rows :
  batch_rows b = Ok (h :: rows) ->
  parse_csv_to_records b
  = (h, map (Csv.row_to_dict h)
            (List.filter (fun row => negb (Csv.is_blank row)) rows)).
Proof.
  unfold batch_rows, parse_csv_to_records, Csv.DictReader. now intros ->.
Qed.

(** Two batches the reader accepts, the header of the second within
    the header of the first and no row longer than its header, have
    records that fit the header of the first. *)
Lemma compatible_batches_fit b1 b2 h1 h2 rows1 rows2 :
  batch_rows b1 = Ok (h1 :: rows1) -> batch_rows b2 = Ok (h2 :: rows2) ->
  incl h2 h1 ->
  Forall (fun row => (length row <= length h1)%nat) rows1 ->
  Forall (fun row => (length row <= length h2)%nat) rows2 ->
  fst (parse_csv_to_records b1) = h1 /\
  Forall (fun r => fits h1 r = true)
         (snd (parse_csv_to_records b1) ++ snd (parse_csv_to_records b2)).
Proof.
  intros H1 H2 Hin Hr1 Hr2.
  rewrite (parse_of_rows _ _ _ H1), (parse_of_rows _ _ _ H2). cbn [fst snd].
  split; [reflexivity|]. apply Forall_app. split.
  - apply Forall_forall. intros r Hr. apply in_map_iff in Hr as (row & <- & Hrow).
    apply filter_In in Hrow as [Hrow _]. apply fits_row_to_dict.
    exact (proj1 (Forall_forall _ _) Hr1 row Hrow).
  - apply Forall_forall. intros r Hr. apply in_map_iff in Hr as (row & <- & Hrow).
    apply filter_In in Hrow as [Hrow _]. apply (fits_incl h2 h1 _ Hin).
    apply fits_row_to_dict. exact (proj1 (Forall_forall _ _) Hr2 row Hrow).
Qed.

(** For two batches that parse, the first with a non-empty header and
    every record of both having only fields of that header,
    [merge_csv_data [b1; b2]] with deduplication returns a record count
    and a duplicates-dropped count whose sum is the number of records
    of both. *)
Lemma merge_counts_fitting (b1 b2 : str) :
  let h1 := fst (parse_csv_to_records b1) in
  let r1 := snd (parse_csv_to_records b1) in
  let r2 := snd (parse_csv_to_records b2) in
  h1 <> [] ->
  Forall (fun r => fits h1 r = true) (r1 ++ r2) ->
  exists out record_count duplicates_dropped,
    merge_csv_data [b1; b2] true = (out, record_count, duplicates_dropped) /\
    record_count + duplicates_dropped
    = Z.of_nat (length r1) + Z.of_nat (length r2).
Proof.
  intros h1 r1 r2 Hh Hfit.
  pose proof (merge_kept_sublist generate_record_hash true [b1; b2]) as Hsub.
  pose proof (add_files_count generate_record_hash true [b1; b2] merge_init) as Hcount.
  cbv zeta in Hcount. cbn [parsed_records flat_map] in Hsub, Hcount.
  rewrite app_nil_r in Hsub, Hcount. fold r1 r2 in Hsub, Hcount.
  do 3 eexists. split.
  - unfold merge_csv_data. apply merge_with_result; [exact Hh|].
    eapply Forall_of_sublist; eassumption.
  - rewrite Hcount, length_app. cbn. lia.
Qed.

(** A record without the key [None] has the fingerprint of the
    specification. *)
Lemma fits_no_none_key h r : fits h r = true -> Json.has_none_key r = false.
Proof.
  unfold fits, Json.has_none_key. intros H.
  destruct (existsb _ r) eqn:E; [|reflexivity].
  apply existsb_exists in E as ([k v] & Hin & Hk). cbn [fst] in Hk.
  destruct k as [k|]; [discriminate|].
  rewrite forallb_forall in H. specialize (H _ Hin). cbn [fst] in H.
  apply existsb_exists in H as (f & _ & Hf). discriminate.
Qed.

Lemma generate_record_hash_fits h r :
  fits h r = true -> generate_record_hash r = fingerprint r.
Proof.
  intros H. unfold generate_record_hash, Json.dumps_sorted, fingerprint.
  now rewrite (fits_no_none_key h r H).
Qed.

(** Without rows that count there are no records, and with an empty
    header no row counts. *)
Lemma no_records_without_header rows :
  Forall (fun row : list str => (length row <= 0)%nat) rows -> data_rows rows = [].
Proof.
  induction 1 as [|row rows Hrow _ IH]; [reflexivity|].
  unfold data_rows in *. cbn [List.filter].
  destruct row; [exact IH | cbn in Hrow; lia].
Qed.

(** C4 (amended).  Two batches that the reader accepts, the fields of
    the second header among those of the first and no row with more
    cells than its header: [merge_csv_data [b1; b2]] with deduplication
    returns a record count and a duplicates-dropped count whose sum is
    the number of records of [b1] plus that of [b2]; and when each has
    one row and the two records have the same fingerprint, the MD5
    digest of the record serialised with its keys sorted, the record
    count is 1 and 1 duplicate is dropped. *)
Theorem merge_counts_two_batches :
  (forall (b1 b2 : str) (h1 h2 : list str) (rows1 rows2 : list (list str)),
      batch_rows b1 = Ok (h1 :: rows1) -> batch_rows b2 = Ok (h2 :: rows2) ->
      incl h2 h1 ->
      Forall (fun row => (length row <= length h1)%nat) rows1 ->
      Forall (fun row => (length row <= length h2)%nat) rows2 ->
      exists out record_count duplicates_dropped,
        merge_csv_data [b1; b2] true = (out, record_count, duplicates_dropped) /\
        record_count + duplicates_dropped
        = Z.of_nat (length (snd (parse_csv_to_records b1)))
          + Z.of_nat (length (snd (parse_csv_to_records b2))))
  /\
  (forall (b1 b2 : str) (h1 h2 row1 row2 : list str),
      batch_rows b1 = Ok [h1; row1] -> batch_rows b2 = Ok [h2; row2] ->
      incl h2 h1 -> row1 <> [] -> row2 <> [] ->
      (length row1 <= length h1)%nat -> (length row2 <= length h2)%nat ->
      fingerprint (Csv.row_to_dict h1 row1) = fingerprint (Csv.row_to_dict h2 row2) ->
      snd (parse_csv_to_records b1) = [Csv.row_to_dict h1 row1] /\
      snd (parse_csv_to_records b2) = [Csv.row_to_dict h2 row2] /\
      exists out, merge_csv_data [b1; b2] true = (out, 1, 1)).
Proof.
  split.
  - intros b1 b2 h1 h2 rows1 rows2 H1 H2 Hin Hr1 Hr2.
    destruct h1 as [|f1 h1'].
    + assert (Hh2 : h2 = []).
      { destruct h2 as [|f h2]; [reflexivity|]. destruct (Hin f). now left. }
      subst h2.
      pose proof (parse_of_rows _ _ _ H1) as P1. pose proof (parse_of_rows _ _ _ H2) as P2.
      fold (data_rows rows1) in P1. fold (data_rows rows2) in P2.
      rewrite (no_records_without_header _ Hr1) in P1.
      rewrite (no_records_without_header _ Hr2) in P2.
      exists [], 0, 0. split; [|rewrite P1, P2; reflexivity].
      unfold merge_csv_data, merge_with. cbn [fold_left].
      rewrite !add_file_records, P1, P2. reflexivity.
    + destruct (compatible_batches_fit b1 b2 _ _ _ _ H1 H2 Hin Hr1 Hr2) as [Hh Hfit].
      apply merge_counts_fitting; rewrite Hh; [discriminate | exact Hfit].
  - intros b1 b2 h1 h2 row1 row2 H1 H2 Hin Hn1 Hn2 Hl1 Hl2 Hhash.
    pose proof (parse_of_rows _ _ _ H1) as P1. pose proof (parse_of_rows _ _ _ H2) as P2.
    assert (Hh : h1 <> []).
    { intros ->. destruct row1; [congruence | cbn in Hl1; lia]. }
    assert (B1 : Csv.is_blank row1 = false) by (destruct row1; [congruence | reflexivity]).
    assert (B2 : Csv.is_blank row2 = false) by (destruct row2; [congruence | reflexivity]).
    cbn [List.filter map] in P1, P2. rewrite B1 in P1. rewrite B2 in P2.
    cbn [negb map] in P1, P2.
    set (x1 := Csv.row_to_dict h1 row1) in *. set (x2 := Csv.row_to_dict h2 row2) in *.
    assert (F1 : fits h1 x1 = true) by now apply fits_row_to_dict.
    assert (F2 : fits h2 x2 = true) by now apply fits_row_to_dict.
    assert (Hg : generate_record_hash x1 = generate_record_hash x2).
    { now rewrite (generate_record_hash_fits _ _ F1), (generate_record_hash_fits _ _ F2). }
    rewrite P1, P2. cbn [snd]. split; [reflexivity|]. split; [reflexivity|].
    assert (Hst : fold_left (add_file generate_record_hash true) [b1; b2] merge_init
                  = MergeState [x1] (Some h1)
                               ({[ generate_record_hash x1 ]} ∪ ∅) (0 + 1)).
    { cbn [fold_left]. rewrite !add_file_records, P1. cbn [headers merge_init fold_left fst snd].
      unfold add_record at 2. cbn [record_hashes all_records headers duplicates_found app].
      rewrite bool_decide_eq_false_2 by set_solver.
      cbn [headers]. rewrite P2. cbn [fold_left snd]. unfold add_record.
      cbn [record_hashes all_records headers duplicates_found].
      rewrite <- Hg, bool_decide_eq_true_2 by set_solver. reflexivity. }
    eexists. unfold merge_csv_data.
    pose proof (merge_with_result generate_record_hash true b1 [b2]) as Hm.
    cbv zeta in Hm. rewrite P1 in Hm. cbn [fst] in Hm. rewrite Hst in Hm.
    cbn [all_records duplicates_found length] in Hm. rewrite Hm; [reflexivity | exact Hh |].
    repeat constructor. exact F1.
Qed.

(** Two one-row batches with the same fields in another column order:
    the records have one fingerprint, the digest of the serialised
    dictionary with [a] first. *)
Lemma merge_counts_two_batches_witness :
  (snd (parse_csv_to_records (text_of_lines ["a,b"; "1,2"]%string))
   = [Csv.row_to_dict [str_of_string "a"; str_of_string "b"]
                      [str_of_string "1"; str_of_string "2"]] /\
   snd (parse_csv_to_records (text_of_lines ["b,a"; "2,1"]%string))
   = [Csv.row_to_dict [str_of_string "b"; str_of_string "a"]
                      [str_of_string "2"; str_of_string "1"]] /\
   exists out,
     merge_csv_data [text_of_lines ["a,b"; "1,2"]; text_of_lines ["b,a"; "2,1"]]%string true
     = (out, 1, 1)) /\
  generate_record_hash (Csv.row_to_dict [str_of_string "b"; str_of_string "a"]
                                        [str_of_string "2"; str_of_string "1"])
  = str_of_string "e9cf9b2edf610d87b64ebb636306f6b1".
Proof.
  split; [|vm_compute; reflexivity].
  refine (proj2 merge_counts_two_batches
            (text_of_lines ["a,b"; "1,2"]%string) (text_of_lines ["b,a"; "2,1"]%string)
            [str_of_string "a"; str_of_string "b"] [str_of_string "b"; str_of_string "a"]
            [str_of_string "1"; str_of_string "2"] [str_of_string "2"; str_of_string "1"]
            _ _ _ _ _ _ _ _).
  - vm_compute. reflexivity.
  - vm_compute. reflexivity.
  - intros x [<- | [<- | []]]; cbn; auto.
  - discriminate.
  - discriminate.
  - cbn. lia.
  - cbn. lia.
  - vm_compute. reflexivity.
Defined.

(** The digests are those of RFC 1321, and records that differ have
    different fingerprints here. *)
Lemma fingerprint_examples :
  MD5.hexdigest [] = str_of_string "d41d8cd98f00b204e9800998ecf8427e" /\
  MD5.hexdigest (str_of_string "abc") = str_of_string "900150983cd24fb0d6963f7d28e17f72" /\
  MD5.hexdigest (repeat "a"%char 64) = str_of_string "014842d480b571495a4a0363793f7367" /\
  fingerprint [(Some (str_of_string "a"), Csv.VStr (str_of_string "1"));
               (Some (str_of_string "b"), Csv.VStr (str_of_string "3"))]
  = str_of_string "8152d8403447f5ec2870f39d182f444c" /\
  merge_csv_data [text_of_lines ["a,b"; "1,2"]; text_of_lines ["a,b"; "1,3"]]%string true
  = (written_lines ["a,b"; "1,2"; "1,3"]%string, 2, 0).
Proof. repeat split; vm_compute; reflexivity. Qed.

(** C4 as stated fails: both batches parse and have the header [a],
    one record each; the first row has a cell more than the header,
    the writer refuses its record, and the merge returns the error
    result, whose counts add up to 0 and not to 2. *)
Lemma merge_counts_counterexample :
  parse_csv_to_records (text_of_lines ["a"; "1,2"]%string)
  = ([str_of_string "a"],
     [[(Some (str_of_string "a"), Csv.VStr (str_of_string "1"));
       (None, Csv.VList [str_of_string "2"])]]) /\
  parse_csv_to_records (text_of_lines ["a"; "3"]%string)
  = ([str_of_string "a"], [[(Some (str_of_string "a"), Csv.VStr (str_of_string "3"))]]) /\
  merge_csv_data [text_of_lines ["a"; "1,2"]; text_of_lines ["a"; "3"]]%string true
  = ([], 0, 0).
Proof. repeat split; vm_compute; reflexivity. Qed.

(** C2 (amended).  Whenever [merge_csv_data] returns a non-empty text,
    its header row is the header of the first batch, in that batch's
    order, and it is followed by one row per kept record, the kept
    records being input records in input order (all of them without
    deduplication); a row gives, for each field of that header in turn,
    the record's value, and the empty text for a field the record does
    not have. *)
Theorem merge_header_is_first_batch :
  forall (csv_files : list str) (deduplicate : bool) (out : str) (n d : Z),
    merge_csv_data csv_files deduplicate = (out, n, d) ->
    out <> [] ->
    exists first rest kept,
      csv_files = first :: rest /\
      let h := fst (parse_csv_to_records first) in
      sublist kept (parsed_records csv_files) /\
      (deduplicate = false -> kept = parsed_records csv_files) /\
      out = Csv.writerow h
              ++ flat_map (fun r => Csv.writerow (map (Csv.field_text r) h)) kept /\
      n = Z.of_nat (length kept) /\
      (forall r key, Csv.dict_get (Some key) r = None -> Csv.field_text r key = []).
Proof.
  intros files dedup out n d Hm Hout.
  destruct files as [|f fs]; [cbv in Hm; congruence|].
  unfold merge_csv_data, merge_with in Hm. rewrite merge_headers in Hm.
  set (st := fold_left _ (f :: fs) merge_init) in Hm.
  destruct (fst (parse_csv_to_records f)) as [|x h'] eqn:Eh;
    [cbn in Hm; congruence|].
  cbn [is_empty_headers] in Hm. unfold Csv.DictWriter_dump in Hm.
  destruct (Csv.writerows (x :: h') (all_records st)) as [body|] eqn:Ew;
    cbn [bind] in Hm; [|congruence].
  injection Hm as <- <- <-. apply writerows_ok in Ew as ->.
  exists f, fs, (all_records st). split; [reflexivity|]. cbv zeta. rewrite Eh.
  split; [apply merge_kept_sublist|].
  split; [intros ->; unfold st; now rewrite add_files_all|].
  split; [reflexivity|]. split; [reflexivity|]. apply field_text_missing.
Qed.

Lemma merge_header_is_first_batch_witness :
  exists first rest kept,
    [text_of_lines ["b,a"; "1,2"]; text_of_lines ["b"; "3"]]%string = first :: rest /\
    let h := fst (parse_csv_to_records first) in
    sublist kept (parsed_records [text_of_lines ["b,a"; "1,2"]; text_of_lines ["b"; "3"]]%string) /\
    (true = false ->
     kept = parsed_records [text_of_lines ["b,a"; "1,2"]; text_of_lines ["b"; "3"]]%string) /\
    written_lines ["b,a"; "1,2"; "3,"]%string
    = Csv.writerow h ++ flat_map (fun r => Csv.writerow (map (Csv.field_text r) h)) kept /\
    2 = Z.of_nat (length kept) /\
    (forall r key, Csv.dict_get (Some key) r = None -> Csv.field_text r key = []).
Proof.
  apply (merge_header_is_first_batch
           [text_of_lines ["b,a"; "1,2"]; text_of_lines ["b"; "3"]]%string true
           (written_lines ["b,a"; "1,2"; "3,"]%string) 2 0).
  - vm_compute. reflexivity.
  - vm_compute. discriminate.
Defined.

(** C2 as stated fails: the header row is ["b,a"], not the sorted
    union ["a,b"]; and a later batch with a field the first batch lacks
    makes the whole merge return the empty result. *)
Lemma merge_header_counterexample :
  merge_csv_data [text_of_lines ["b,a"; "1,2"]; text_of_lines ["b"; "3"]]%string true
  = (written_lines ["b,a"; "1,2"; "3,"]%string, 2, 0)
  /\
  merge_csv_data [text_of_lines ["a"; "1"]; text_of_lines ["a,b"; "2,3"]]%string true
  = ([], 0, 0).
Proof. split; vm_compute; reflexivity. Qed.

(** An empty input list gives the empty result. *)
Lemma merge_empty_input deduplicate : merge_csv_data [] deduplicate = ([], 0, 0).
Proof. reflexivity. Qed.

(** A batch that gives no header and no record, in any place but the
    first, is passed over. *)
Lemma merge_skips_later_batch hash deduplicate first before bad after :
  parse_csv_to_records bad = ([], []) ->
  merge_with hash (first :: before ++ bad :: after) deduplicate
  = merge_with hash (first :: before ++ after) deduplicate.
Proof.
  intros Hbad. unfold merge_with.
  assert (E : fold_left (add_file hash deduplicate) (first :: before ++ bad :: after) merge_init
              = fold_left (add_file hash deduplicate) (first :: before ++ after) merge_init).
  { change (first :: before ++ bad :: after) with ((first :: before) ++ bad :: after).
    change (first :: before ++ after) with ((first :: before) ++ after).
    rewrite !fold_left_app. cbn [fold_left]. f_equal.
    pose proof (merge_headers hash deduplicate first before) as Hh.
    cbn [fold_left] in Hh. rewrite add_file_records, Hbad, Hh. reflexivity. }
  now rewrite E.
Qed.

(** C9, evaluated where the code departs from it.  The reader rejects
    the first batch (a carriage return inside a line), so
    [parse_csv_to_records] gives no header and no record for it; the
    second batch alone merges to one record, yet the merge of both
    returns the empty text with zero counts: the row of the second
    batch is neither merged nor counted. *)
Theorem merge_lost_after_unparsable_first_batch :
  Csv.DictReader (split_lines (strip unparsable_batch)) = Raise CsvError /\
  parse_csv_to_records unparsable_batch = ([], []) /\
  (exists out, merge_csv_data [text_of_lines ["a,b"; "1,2"]%string] true = (out, 1, 0)) /\
  merge_csv_data [unparsable_batch; text_of_lines ["a,b"; "1,2"]%string] true
  = ([], 0, 0).
Proof.
  split; [vm_compute; reflexivity|]. split; [vm_compute; reflexivity|].
  split; [eexists; vm_compute; reflexivity|]. vm_compute. reflexivity.
Qed.

End Consolidation.

(** * Page comparison *)

Section Percentages.

Import PyFloat DataConsolidationService.

Lemma strip_twos_below fuel : forall m e C,
  0 <= m -> 0 <= C -> raw_below m e C ->
  0 <= fst (strip_twos fuel m e) /\
  raw_below (fst (strip_twos fuel m e)) (snd (strip_twos fuel m e)) C.
Proof.
  induction fuel as [|fuel IH]; intros m e C Hm HC Hb; [cbn; auto|].
  cbn [strip_twos]. destruct (Z.even m) eqn:Ev; [|cbn; auto].
  apply Zeven_bool_iff, Zeven_ex_iff in Ev as [h ->].
  replace (2 * h / 2) with h by (rewrite Z.mul_comm, Z.div_mul; lia).
  apply IH; [lia | assumption |].
  unfold raw_below in *.
  destruct (Z.leb_spec 0 e) as [He|He].
  - destruct (Z.leb_spec 0 (e + 1)); [|lia].
    rewrite Z.pow_add_r by lia. lia.
  - destruct (Z.leb_spec 0 (e + 1)) as [He1|He1].
    + assert (e = -1) by lia. subst e. cbn in *. lia.
    + replace (- e) with (1 + - (e + 1)) in Hb by lia.
      rewrite Z.pow_add_r in Hb by lia. lia.
Qed.

Lemma canon_below m e C :
  0 <= m -> 0 <= C -> raw_below m e C -> below (canon m e) C.
Proof.
  intros Hm HC Hb. unfold canon. destruct (Z.eqb_spec m 0) as [->|Hne].
  - unfold below, raw_below. change (0 <=? 0) with true. change (2 ^ 0) with 1. lia.
  - pose proof (strip_twos_below (Z.to_nat (Z.log2 (Z.abs m))) m e C Hm HC Hb) as H.
    destruct (strip_twos _ m e) as [m' e']. exact H.
Qed.

Lemma grid_exponent_floor n d :
  0 < n -> 0 < d -> 0 <= grid_exponent n d ->
  d * 2 ^ grid_exponent n d <= n.
Proof.
  intros Hn Hd. unfold grid_exponent.
  set (k := Z.log2 n - Z.log2 d).
  pose proof (Z.log2_spec n Hn) as [Hn1 Hn2].
  pose proof (Z.log2_spec d Hd) as [Hd1 Hd2].
  pose proof (Z.log2_nonneg n). pose proof (Z.log2_nonneg d).
  destruct (Z.leb_spec 0 k) as [Hk|Hk].
  - destruct (Z.leb_spec (d * 2 ^ k) n) as [Ht|Ht]; intros He.
    + assert (E : Z.max (k - 52) (-1074) = k - 52) by lia. rewrite E.
      assert (H1 : 2 ^ (k - 52) <= 2 ^ k) by (apply Z.pow_le_mono_r; lia).
      assert (d * 2 ^ (k - 52) <= d * 2 ^ k) by (apply Z.mul_le_mono_nonneg_l; lia).
      lia.
    + assert (E : Z.max (k - 1 - 52) (-1074) = k - 1 - 52) by lia. rewrite E.
      assert (H1 : 2 ^ (k - 1 - 52) <= 2 ^ (k - 1)) by (apply Z.pow_le_mono_r; lia).
      assert (H2 : d * 2 ^ (k - 1) <= 2 ^ Z.log2 n).
      { replace (Z.log2 n) with (Z.succ (Z.log2 d) + (k - 1)) by (unfold k; lia).
        rewrite Z.pow_add_r by lia.
        apply Z.mul_le_mono_nonneg_r; [apply Z.pow_nonneg|]; lia. }
      assert (d * 2 ^ (k - 1 - 52) <= d * 2 ^ (k - 1))
        by (apply Z.mul_le_mono_nonneg_l; lia).
      lia.
  - destruct (d <=? n * 2 ^ (- k)); intros He; lia.
Qed.

(** Rounding to the grid stays within a factor two of the bound. *)
Lemma nearest_bound n d B :
  0 <= n -> 0 < d -> 1 <= B -> n <= B * d -> 2 * B < 2 ^ 1024 ->
  below (nearest n d) (2 * B).
Proof.
  intros Hn Hd HB Hnd HB2. unfold nearest. rewrite Z.abs_eq by assumption.
  unfold nearest_pos. destruct (Z.eqb_spec n 0) as [->|Hn0].
  - change (below (Finite 0 0) (2 * B)). unfold below, raw_below.
    change (0 <=? 0) with true. change (2 ^ 0) with 1. lia.
  - assert (Hpos : 0 < n) by lia. replace (Z.sgn n) with 1 by lia.
    set (e := grid_exponent n d).
    set (num := if 0 <=? e then n else n * 2 ^ (- e)).
    set (den := if 0 <=? e then d * 2 ^ e else d).
    set (q := num / den). set (r := num mod den).
    set (m := if (den <? 2 * r) || ((2 * r =? den) && Z.odd q) then q + 1 else q).
    assert (Hden : 0 < den).
    { unfold den. destruct (Z.leb_spec 0 e); [|assumption].
      apply Z.mul_pos_pos; [assumption|]. apply Z.pow_pos_nonneg; lia. }
    assert (Hnum : 0 <= num).
    { unfold num. destruct (Z.leb_spec 0 e); [lia|].
      apply Z.mul_nonneg_nonneg; [lia|]. apply Z.pow_nonneg. lia. }
    assert (Hq : 0 <= q) by (apply Z.div_pos; lia).
    assert (Hqd : q * den <= num).
    { unfold q. pose proof (Z.mul_div_le num den Hden). lia. }
    assert (Hm : 0 <= m <= q + 1) by (unfold m; destruct (_ || _); lia).
    assert (Hraw : raw_below m e (2 * B) /\ m * 2 ^ e < 2 ^ 1024).
    { unfold raw_below. destruct (Z.leb_spec 0 e) as [He|He].
      - pose proof (grid_exponent_floor n d Hpos Hd He) as Hfl. fold e in Hfl.
        assert (Hp : 0 < 2 ^ e) by (apply Z.pow_pos_nonneg; lia).
        unfold num, den in Hqd. destruct (Z.leb_spec 0 e); [|lia].
        assert (q * 2 ^ e <= B) by nia.
        assert (2 ^ e <= B) by nia.
        nia.
      - rewrite (Z.pow_neg_r 2 e) by lia.
        assert (Hp : 0 < 2 ^ (- e)) by (apply Z.pow_pos_nonneg; lia).
        unfold num, den in Hqd. destruct (Z.leb_spec 0 e); [lia|].
        split; [nia | lia]. }
    destruct Hraw as [Hraw Hov].
    destruct (Z.leb_spec (2 ^ 1024) (m * 2 ^ e)); [lia|].
    rewrite Z.mul_1_l. apply canon_below; [lia | lia | assumption].
Qed.

Lemma below_finite f C : below f C -> exists m e, f = Finite m e /\ 0 <= m /\ raw_below m e C.
Proof. destruct f as [m e|s]; cbn; [eauto | tauto]. Qed.

Lemma mul_int_below x B k :
  below x B -> 1 <= B -> 1 <= k -> 2 * (k * B) < 2 ^ 1024 ->
  below (mul_int x k) (2 * (k * B)).
Proof.
  intros Hx HB Hk Hov. apply below_finite in Hx as (m & e & -> & Hm & Hb).
  unfold mul_int, raw_below in *. destruct (Z.leb_spec 0 e) as [He|He].
  - apply nearest_bound; try lia.
    assert (0 <= 2 ^ e) by (apply Z.pow_nonneg; lia). nia.
  - assert (0 < 2 ^ (- e)) by (apply Z.pow_pos_nonneg; lia).
    apply nearest_bound; try lia. nia.
Qed.

Lemma round_half_even_near n d :
  0 < d -> let k := round_half_even n d in 2 * Z.abs (n - k * d) <= d.
Proof.
  intros Hd. cbv zeta. unfold round_half_even.
  pose proof (Z.div_mod n d ltac:(lia)) as Hdm.
  pose proof (Z.mod_pos_bound n d Hd) as Hr.
  destruct (Z.ltb_spec d (2 * (n mod d))) as [H1|H1]; cbn [orb].
  - nia.
  - destruct (Z.eqb_spec (2 * (n mod d)) d) as [H2|H2]; cbn [andb].
    + destruct (Z.odd (n / d)); nia.
    + nia.
Qed.

(** At a tie the even neighbour is taken. *)
Lemma round_half_even_tie n d :
  0 < d -> let k := round_half_even n d in
  2 * Z.abs (n - k * d) = d -> Z.even k = true.
Proof.
  intros Hd. cbv zeta. unfold round_half_even.
  pose proof (Z.div_mod n d ltac:(lia)) as Hdm.
  pose proof (Z.mod_pos_bound n d Hd) as Hr.
  destruct (Z.ltb_spec d (2 * (n mod d))) as [H1|H1]; cbn [orb].
  - intros H. exfalso. nia.
  - destruct (Z.eqb_spec (2 * (n mod d)) d) as [H2|H2]; cbn [andb].
    + destruct (Z.odd (n / d)) eqn:Eo; intros _.
      * change (n / d + 1) with (Z.succ (n / d)). now rewrite Z.even_succ.
      * now rewrite <- Z.negb_odd, Eo.
    + intros H. exfalso. nia.
Qed.

(** [tenths] names one integer. *)
Lemma tenths_unique k k' m e : tenths k m e -> tenths k' m e -> k = k'.
Proof.
  unfold tenths. destruct (Z.leb_spec 0 e) as [He|He]; [congruence|].
  assert (Hp : 0 < 2 ^ (- e)) by (apply Z.pow_pos_nonneg; lia).
  set (D := 2 ^ (- e)) in *. set (a := m * 10).
  intros [H1 T1] [H2 T2].
  assert (Hd : -1 <= k - k' <= 1) by nia.
  assert (Hc : k' = k \/ k' = k + 1 \/ k = k' + 1) by lia.
  destruct Hc as [Hc|[Hc|Hc]]; [congruence | |]; exfalso.
  - assert (E1 : 2 * Z.abs (a - k * D) = D) by nia.
    assert (E2 : 2 * Z.abs (a - k' * D) = D) by nia.
    specialize (T1 E1). specialize (T2 E2). subst k'.
    change (k + 1) with (Z.succ k) in T2. rewrite Z.even_succ, <- Z.negb_even, T1 in T2.
    discriminate.
  - assert (E1 : 2 * Z.abs (a - k * D) = D) by nia.
    assert (E2 : 2 * Z.abs (a - k' * D) = D) by nia.
    specialize (T1 E1). specialize (T2 E2). subst k.
    change (k' + 1) with (Z.succ k') in T1. rewrite Z.even_succ, <- Z.negb_even, T2 in T1.
    discriminate.
Qed.

Lemma round_digits_below x B :
  below x B -> 1 <= B -> 4 * B < 2 ^ 1024 ->
  exists r, round_digits x 1 = Ok r /\ below r (4 * B).
Proof.
  intros Hx HB Hov. apply below_finite in Hx as (m & e & -> & Hm & Hb).
  unfold round_digits. change (10 ^ 1) with 10.
  set (t := if 0 <=? e then m * 10 * 2 ^ e else round_half_even (m * 10) (2 ^ (- e))).
  assert (Ht : 0 <= t <= (2 * B) * 10).
  { unfold t, raw_below in *. destruct (Z.leb_spec 0 e) as [He|He].
    - assert (0 <= 2 ^ e) by (apply Z.pow_nonneg; lia). nia.
    - assert (Hp : 0 < 2 ^ (- e)) by (apply Z.pow_pos_nonneg; lia).
      pose proof (round_half_even_near (m * 10) (2 ^ (- e)) Hp) as Hn. cbv zeta in Hn.
      nia. }
  pose proof (nearest_bound t 10 (2 * B) ltac:(lia) ltac:(lia) ltac:(lia) ltac:(lia) ltac:(lia)) as Hr.
  replace (2 * (2 * B)) with (4 * B) in Hr by lia.
  destruct (nearest t 10) as [m' e'|s] eqn:E; [|destruct Hr].
  eexists. split; [reflexivity | exact Hr].
Qed.

Lemma int_truediv_below a b :
  0 <= a < 2 ^ 1000 -> 0 < b ->
  exists q, int_truediv a b = Ok q /\ below q (2 ^ 1001).
Proof.
  intros Ha Hb. unfold int_truediv. destruct (Z.eqb_spec b 0); [lia|].
  replace (Z.sgn b) with 1 by lia. rewrite Z.mul_1_l, Z.abs_eq by lia.
  pose proof (nearest_bound a b (2 ^ 1000) ltac:(lia) Hb ltac:(lia) ltac:(nia) ltac:(lia)) as H.
  change (2 * 2 ^ 1000) with (2 ^ 1001) in H.
  destruct (nearest a b) as [m e|s] eqn:E; [|destruct H].
  eexists. split; [reflexivity | exact H].
Qed.

Lemma round_digits_tenths m e r :
  round_digits (Finite m e) 1 = Ok r ->
  exists k, tenths k m e /\ r = nearest k 10.
Proof.
  unfold round_digits. change (10 ^ 1) with 10.
  set (t := if 0 <=? e then m * 10 * 2 ^ e else round_half_even (m * 10) (2 ^ (- e))).
  intros H. exists t. split.
  - unfold tenths, t. destruct (Z.leb_spec 0 e) as [He|He]; [reflexivity|].
    assert (Hp : 0 < 2 ^ (- e)) by (apply Z.pow_pos_nonneg; lia).
    split; [now apply round_half_even_near | now apply round_half_even_tie].
  - destruct (nearest t 10); congruence.
Qed.

(** C8 (amended).  For all integers [0 <= scraped < 2 ^ 1000] and
    [0 <= target], [compare_pages] returns, with
    [is_complete = (scraped >= target)] and
    [pages_remaining = max 0 (target - scraped)]; when [target = 0] the
    percentage is the integer 0 (nothing is divided); when
    [target > 0] the percentage is [round(scraped / target * 100, 1)]:
    the [float] nearest to [k / 10], where [k] is the one integer that
    [tenths] names for the [float] product [scraped / target * 100],
    the nearest to ten times the product and the even one at a tie. *)
Theorem compare_pages_rounded :
  forall scraped target : Z,
    0 <= scraped < 2 ^ 1000 -> 0 <= target ->
    exists c,
      compare_pages scraped target = Ok c /\
      is_complete c = (target <=? scraped) /\
      pages_remaining c = Z.max 0 (target - scraped) /\
      (target = 0 -> percentage c = PInt 0) /\
      (0 < target ->
       exists q m e k,
         int_truediv scraped target = Ok q /\
         mul_int q 100 = Finite m e /\
         tenths k m e /\
         (forall k', tenths k' m e -> k' = k) /\
         percentage c = PFloat (nearest k 10)).
Proof.
  intros scraped target Hs Ht. unfold compare_pages.
  destruct (Z.ltb_spec 0 target) as [Hpos|Hzero].
  - destruct (int_truediv_below scraped target Hs Hpos) as (q & Hq & Hqb).
    rewrite Hq. cbn [bind round1].
    pose proof (mul_int_below q (2 ^ 1001) 100 Hqb ltac:(lia) ltac:(lia) ltac:(lia)) as Hp.
    destruct (round_digits_below _ _ Hp ltac:(lia) ltac:(lia)) as (r & Hr & _).
    rewrite Hr. cbn [bind]. eexists. split; [reflexivity|]. cbn.
    split; [reflexivity|]. split; [reflexivity|]. split; [lia|].
    intros _. apply below_finite in Hp as (m & e & Hme & _).
    rewrite Hme in Hr. destruct (round_digits_tenths _ _ _ Hr) as (k & Hk & ->).
    exists q, m, e, k. repeat (split; [assumption || reflexivity|]).
    split; [|reflexivity]. intros k' Hk'. exact (tenths_unique _ _ _ _ Hk' Hk).
  - cbn [bind round1]. eexists. split; [reflexivity|]. cbn.
    split; [reflexivity|]. split; [reflexivity|]. split; [reflexivity | lia].
Qed.

Lemma compare_pages_rounded_witness :
  exists c,
    compare_pages 1 16 = Ok c /\
    is_complete c = (16 <=? 1) /\
    pages_remaining c = Z.max 0 (16 - 1) /\
    (16 = 0 -> percentage c = PInt 0) /\
    (0 < 16 ->
     exists q m e k,
       int_truediv 1 16 = Ok q /\
       mul_int q 100 = Finite m e /\
       tenths k m e /\
       (forall k', tenths k' m e -> k' = k) /\
       percentage c = PFloat (nearest k 10)).
Proof. apply (compare_pages_rounded 1 16); lia. Defined.

(** A tie: [1 / 16 * 100] is 6.25 exactly, half way between 6.2 and
    6.3; [tenths] names 62 and not 63, and the percentage is 6.2. *)
Lemma compare_pages_tie :
  mul_int (nearest 1 16) 100 = Finite 25 (-2) /\
  tenths 62 25 (-2) /\ ~ tenths 63 25 (-2) /\
  compare_pages 1 16 = Ok (Comparison false 15 1 16 (PFloat (nearest 62 10))).
Proof.
  split; [vm_compute; reflexivity|]. split; [|split].
  - unfold tenths. cbn. split; [lia | reflexivity].
  - unfold tenths. cbn. intros [_ H]. specialize (H eq_refl). discriminate.
  - vm_compute. reflexivity.
Qed.

(** The scenario of the specification: no division takes place for a
    target of zero. *)
Lemma compare_pages_zero_target :
  exists c, compare_pages 0 0 = Ok c /\ percentage c = PInt 0.
Proof. eexists. split; reflexivity. Qed.

Lemma round_digits_raise x n e : round_digits x n = Raise e -> e = OverflowError.
Proof.
  unfold round_digits. destruct x as [m k|s]; [|discriminate].
  destruct (nearest _ _); congruence.
Qed.

Lemma compare_pages_never_divides_by_zero (scraped target : Z) :
  compare_pages scraped target <> Raise ZeroDivisionError.
Proof.
  unfold compare_pages. destruct (Z.ltb_spec 0 target) as [Hpos|Hzero].
  - unfold int_truediv. destruct (Z.eqb_spec target 0); [lia|].
    destruct (nearest _ _) as [m e|s]; cbn [bind round1]; [|discriminate].
    destruct (round_digits _ 1) as [r|e0] eqn:E; cbn [bind]; [discriminate|].
    apply round_digits_raise in E as ->. discriminate.
  - cbn. discriminate.
Qed.

(** C8 as stated fails: [compare_pages 1 3] has percentage 33.3, which
    differs from the product [1 / 3 * 100]; and a quotient beyond the
    [float] range raises instead of returning. *)
Lemma percentage_counterexample :
  (exists c q,
      compare_pages 1 3 = Ok c /\ int_truediv 1 3 = Ok q /\
      percentage c = PFloat (nearest 333 10) /\
      num_eqb (percentage c) (PFloat (mul_int q 100)) = false)
  /\ compare_pages (2 ^ 1024) 1 = Raise OverflowError.
Proof.
  split; [|vm_compute; reflexivity].
  do 2 eexists. split; [vm_compute; reflexivity|]. split; [vm_compute; reflexivity|].
  split; vm_compute; reflexivity.
Qed.

End Percentages.

(** * Further properties of the embedded code *)

(** ** Pagination: rewriting again, and what a rewrite preserves *)

Lemma found_cons cls c s : found cls (c :: s) = lead_ok cls (c :: s) || found cls s.
Proof. reflexivity. Qed.

Lemma found_here cls s : lead_ok cls s = true -> found cls s = true.
Proof. intros H. destruct s; cbn [found]; now rewrite H. Qed.

Lemma found_later cls c s : found cls s = true -> found cls (c :: s) = true.
Proof. intros H. rewrite found_cons, H. apply orb_true_r. Qed.

Lemma lead_ok_app a : forall b s,
  lead_ok (a ++ b) s = true -> lead_ok b (skipn (length a) s) = true.
Proof.
  induction a as [|f a IH]; intros b s H; [assumption|].
  destruct s as [|c s]; [discriminate|]. cbn in H. apply andb_true_iff in H as [_ H].
  cbn [length skipn]. now apply IH.
Qed.

Lemma found_skipn cls n : forall s,
  lead_ok cls (skipn n s) = true -> found cls s = true.
Proof.
  induction n as [|n IH]; intros s H; [now apply found_here|].
  destruct s as [|c s]; [now apply found_here|].
  apply found_later, IH. exact H.
Qed.

(** A pattern that ends like another one occurs only where the other
    one does. *)
Lemma found_longer a b : forall s, found (a ++ b) s = true -> found b s = true.
Proof.
  induction s as [|c s IH]; intros H.
  - cbn [found] in H. rewrite orb_false_r in H.
    apply lead_ok_app in H. now apply (found_skipn b (length a)).
  - rewrite found_cons in H. apply orb_true_iff in H as [H|H].
    + apply lead_ok_app in H. now apply (found_skipn b (length a)).
    + now apply found_later, IH.
Qed.

Lemma search_some_found cls s : is_Some (search (digits_after cls) s) <-> found cls s = true.
Proof.
  pose proof (search_none_found cls s) as H.
  destruct (found cls s).
  - split; [reflexivity|]. intros _. destruct (search _ s) eqn:E; [eauto|].
    assert (true = false) by now apply H. discriminate.
  - split; [|discriminate]. intros [m Hm]. rewrite (proj2 H eq_refl) in Hm. discriminate.
Qed.

Section RewriteTwice.
Variable f1 : ascii -> bool.
Variable cls' : list (ascii -> bool).
Variable g : nat.
Variable t1 t2 : template.
Variable rho : str -> str.
Variable vs1 vs2 : str.
Variable phi : ascii -> ascii.

Let cls := f1 :: cls'.
Let Pat := ones g cls ++ [Atom 0 (Many1 is_digit)].

Hypothesis phi_digit : forall c, is_digit (phi c) = is_digit c.
Hypothesis cls_digit_free : Forall digit_free cls.
Hypothesis cls_respects : Forall (respects phi) cls'.
Hypothesis cls_lower : Forall lower_stable cls.
Hypothesis expand_lead1 : forall ld ds,
    accepts cls ld -> expand t1 (tag g ld ++ tag 0 ds) = rho ld ++ vs1.
Hypothesis expand_lead2 : forall ld ds,
    accepts cls ld -> expand t2 (tag g ld ++ tag 0 ds) = rho ld ++ vs2.
Hypothesis rho_lead : forall ld, accepts cls ld -> accepts cls (rho ld).
Hypothesis rho_phi : forall ld, accepts cls ld -> map phi (rho ld) = map phi ld.
Hypothesis rho_twice : forall ld, accepts cls ld -> rho (rho ld) = rho ld.
Hypothesis vs1_digits : Forall (fun c => is_digit c = true) vs1.
Hypothesis vs1_nonempty : vs1 <> [].

Lemma rest_length (s ld ds rest : str) :
  lead_digits cls s = Some (ld, ds, rest) -> (length rest < length s)%nat.
Proof.
  intros E. apply lead_digits_spec in E as (Hs & Hacc & _).
  apply (f_equal (@length ascii)) in Hs. rewrite !length_app in Hs.
  destruct (accepts_head f1 cls' cls_digit_free _ Hacc) as (z & l & -> & _).
  cbn in Hs. lia.
Qed.

(** The rewritten text starts with a match again. *)
Lemma lead_digits_rewritten ld ds rest s :
  lead_digits cls s = Some (ld, ds, rest) ->
  lead_digits cls (rho ld ++ vs1 ++ re_sub Pat t1 rest)
  = Some (rho ld, vs1, re_sub Pat t1 rest).
Proof.
  intros E. apply lead_digits_spec in E as (Hs & Hacc & Hne & Hds & Hrest).
  apply lead_digits_spec.
  split; [reflexivity|]. split; [now apply rho_lead|].
  split; [assumption|]. split; [assumption|].
  pose proof (head_digit_sub f1 cls' g t1 rho vs1 cls_digit_free expand_lead1 rho_lead rest) as Hh.
  fold cls Pat in Hh.
  destruct (re_sub Pat t1 rest) as [|y r]; [exact I|]. cbn in Hh. rewrite Hh.
  destruct rest; [reflexivity | assumption].
Qed.

Lemma norm_sub_plain_bounded n : forall s,
  (length s <= n)%nat -> norm phi (re_sub Pat t1 s) = norm phi s.
Proof.
  induction n as [|n IH]; intros s Hlen.
  - destruct s; [reflexivity | cbn in Hlen; lia].
  - unfold Pat, cls. rewrite (sub_step f1 cls' g t1 rho vs1 expand_lead1). fold cls Pat.
    destruct s as [|c s]; [reflexivity|].
    destruct (lead_digits cls (c :: s)) as [[[ld ds] rest]|] eqn:E.
    + pose proof (rest_length _ _ _ _ E) as Hlr.
      apply lead_digits_spec in E as (Hs & Hacc & Hne & Hds & Hrest).
      rewrite Hs. rewrite !norm_app.
      rewrite (IH rest) by (cbn in Hlen, Hlr; lia).
      assert (Hh : head_digit (norm phi rest) = false).
      { rewrite head_digit_norm by assumption. destruct rest; [reflexivity | assumption]. }
      rewrite (fold_norm_digits phi phi_digit vs1 _ vs1_nonempty vs1_digits Hh).
      rewrite (fold_norm_digits phi phi_digit ds _ Hne Hds Hh).
      rewrite !(fold_norm_lead phi)
        by (apply (accepts_no_digit f1 cls' cls_digit_free); auto).
      now rewrite rho_phi.
    + rewrite !norm_cons. rewrite IH by (cbn in Hlen; lia). reflexivity.
Qed.

(** The rewrite changes nothing that the normal form shows. *)
Lemma norm_sub_plain s : norm phi (re_sub Pat t1 s) = norm phi s.
Proof. apply (norm_sub_plain_bounded (length s)). lia. Qed.

Lemma lead_ok_sub_cons_plain c s :
  lead_ok cls (c :: re_sub Pat t1 s) = lead_ok cls (c :: s).
Proof.
  unfold cls. cbn [lead_ok]. f_equal.
  assert (Hdf : Forall digit_free cls') by now inversion cls_digit_free.
  rewrite <- (lead_ok_norm phi phi_digit cls' (re_sub Pat t1 s)) by assumption.
  fold cls Pat. rewrite norm_sub_plain. now apply lead_ok_norm.
Qed.

(** Rewriting to one number and then to another is rewriting to the
    other. *)
Lemma re_sub_twice_bounded n : forall s,
  (length s <= n)%nat -> re_sub Pat t2 (re_sub Pat t1 s) = re_sub Pat t2 s.
Proof.
  induction n as [|n IH]; intros s Hlen.
  - destruct s; [reflexivity | cbn in Hlen; lia].
  - destruct s as [|c s]; [reflexivity|].
    unfold Pat, cls.
    rewrite (sub_step f1 cls' g t1 rho vs1 expand_lead1 (c :: s)).
    rewrite (sub_step f1 cls' g t2 rho vs2 expand_lead2 (c :: s)). fold cls Pat.
    destruct (lead_digits cls (c :: s)) as [[[ld ds] rest]|] eqn:E.
    + pose proof (rest_length _ _ _ _ E) as Hlr.
      pose proof (lead_digits_rewritten _ _ _ _ E) as E'.
      apply lead_digits_spec in E as (Hs & Hacc & _).
      unfold Pat, cls.
      rewrite (sub_step f1 cls' g t2 rho vs2 expand_lead2). fold cls Pat.
      destruct (rho ld ++ vs1 ++ re_sub Pat t1 rest) as [|y r] eqn:Ey.
      { destruct (accepts_head f1 cls' cls_digit_free _ (rho_lead _ Hacc)) as (z & l & Hz & _).
        rewrite Hz in Ey. discriminate. }
      rewrite E'. rewrite (rho_twice _ Hacc).
      rewrite IH by (cbn in Hlen, Hlr; lia). reflexivity.
    + unfold Pat, cls.
      rewrite (sub_step f1 cls' g t2 rho vs2 expand_lead2). fold cls Pat.
      assert (En : lead_digits cls (c :: re_sub Pat t1 s) = None).
      { apply lead_digits_none. rewrite lead_ok_sub_cons_plain. now apply lead_digits_none. }
      rewrite En, IH by (cbn in Hlen; lia). reflexivity.
Qed.

Lemma re_sub_twice s : re_sub Pat t2 (re_sub Pat t1 s) = re_sub Pat t2 s.
Proof. apply (re_sub_twice_bounded (length s)). lia. Qed.

(** The pattern occurs in the lower-cased rewritten text exactly when
    it occurs in the lower-cased text. *)
Lemma found_sub_lower s :
  found cls (lower (re_sub Pat t1 s)) = found cls (lower s).
Proof.
  induction s as [|c s IH]; [reflexivity|].
  unfold Pat, cls. rewrite (sub_step f1 cls' g t1 rho vs1 expand_lead1 (c :: s)). fold cls Pat.
  destruct (lead_digits cls (c :: s)) as [[[ld ds] rest]|] eqn:E.
  - pose proof (lead_digits_rewritten _ _ _ _ E) as E'.
    assert (H1 : lead_ok cls (c :: s) = true) by (apply lead_digits_ok; eauto).
    assert (H2 : lead_ok cls (rho ld ++ vs1 ++ re_sub Pat t1 rest) = true)
      by (apply lead_digits_ok; eauto).
    apply (lead_ok_lower f1 cls' cls_lower) in H1, H2. fold cls in H1, H2.
    now rewrite (found_here _ _ H1), (found_here _ _ H2).
  - change (lower (c :: re_sub Pat t1 s)) with (lower_char c :: lower (re_sub Pat t1 s)).
    change (lower (c :: s)) with (lower_char c :: lower s).
    rewrite !found_cons, IH. f_equal.
    apply (lead_ok_sub_cons f1 cls' g t1 rho vs1 phi phi_digit cls_digit_free cls_respects
             cls_lower expand_lead1 rho_lead rho_phi vs1_digits vs1_nonempty c s).
Qed.
(** No match starts inside a lead that digits follow, or inside the
    digits. *)
Lemma lead_ok_short (a ds r : str) :
  (length a < length cls)%nat -> ds <> [] ->
  Forall (fun c => is_digit c = true) ds ->
  lead_ok cls (a ++ ds ++ r) = false.
Proof.
  generalize cls_digit_free. generalize cls. clear. intros cls Hdf. revert cls Hdf.
  induction a as [|x a IH]; intros cls Hdf Hlen Hne Hds.
  - destruct cls as [|f cls]; [cbn in Hlen; lia|].
    destruct ds as [|d ds]; [congruence|].
    inversion Hds as [|? ? Hd _]; subst. inversion Hdf as [|? ? Hf _]; subst.
    cbn. now rewrite (Hf d Hd).
  - destruct cls as [|f cls]; [cbn in Hlen; lia|].
    inversion Hdf as [|? ? _ Hdf']; subst. cbn [app lead_ok].
    rewrite IH; [apply andb_false_r | assumption | cbn in Hlen; lia | assumption | assumption].
Qed.

Lemma sub_through (a ds r : str) :
  (length a < length cls)%nat -> ds <> [] ->
  Forall (fun c => is_digit c = true) ds ->
  re_sub Pat t1 (a ++ ds ++ r) = a ++ ds ++ re_sub Pat t1 r.
Proof.
  intros Hlen Hne Hds. induction a as [|x a IH].
  - cbn [app]. clear Hlen.
    assert (H0 : (length (@nil ascii) < length cls)%nat) by (unfold cls; cbn; lia).
    induction ds as [|d ds IHd]; [congruence|].
    pose proof (lead_ok_short [] (d :: ds) r H0 Hne Hds) as Hn.
    apply lead_digits_none in Hn. cbn [app] in Hn |- *.
    unfold Pat, cls. rewrite (sub_step f1 cls' g t1 rho vs1 expand_lead1). fold cls Pat.
    rewrite Hn. f_equal. destruct ds as [|d' ds]; [reflexivity|].
    apply IHd; [discriminate | now inversion Hds].
  - pose proof (lead_ok_short (x :: a) ds r Hlen Hne Hds) as Hn.
    apply lead_digits_none in Hn. cbn [app] in Hn |- *.
    unfold Pat, cls. rewrite (sub_step f1 cls' g t1 rho vs1 expand_lead1). fold cls Pat.
    rewrite Hn. f_equal. apply IH. cbn [length] in Hlen. lia.
Qed.

(** The digits of the first occurrence in the lower-cased rewritten
    text are the new ones or those of the first occurrence in the
    lower-cased text. *)
Lemma search_sub_digits s : forall m',
  search (digits_after cls) (lower (re_sub Pat t1 s)) = Some m' ->
  group 1 m' = vs1 \/
  exists m, search (digits_after cls) (lower s) = Some m /\ group 1 m' = group 1 m.
Proof.
  induction s as [|c s IH]; intros m' Hm'.
  - right. exists m'. auto.
  - unfold Pat, cls in Hm'.
    rewrite (sub_step f1 cls' g t1 rho vs1 expand_lead1 (c :: s)) in Hm'. fold cls Pat in Hm'.
    destruct (lead_digits cls (c :: s)) as [[[ld ds] rest]|] eqn:E.
    + left. apply lead_digits_spec in E as (Hurl & Hacc & Hne & Hds & Hrest).
      rewrite search_lead_digits in Hm'.
      rewrite !lower_app, (accepts_lower f1 cls' cls_lower _ (rho_lead _ Hacc)),
        (lower_digits _ vs1_digits) in Hm'.
      assert (E' : lead_digits cls (rho ld ++ vs1 ++ lower (re_sub Pat t1 rest))
                   = Some (rho ld, vs1, lower (re_sub Pat t1 rest))).
      { apply lead_digits_spec.
        split; [reflexivity|]. split; [apply rho_lead; assumption|].
        split; [assumption|]. split; [assumption|].
        pose proof (head_digit_lower (re_sub Pat t1 rest)) as Hh.
        unfold Pat, cls in Hh.
        rewrite (head_digit_sub f1 cls' g t1 rho vs1 cls_digit_free expand_lead1 rho_lead)
          in Hh. fold cls Pat in Hh.
        destruct (lower (re_sub Pat t1 rest)) as [|y r]; [exact I|]. cbn in Hh. rewrite Hh.
        destruct rest; [reflexivity | assumption]. }
      rewrite E' in Hm'. injection Hm' as <-.
      now rewrite group_app, group_tag_other, group_tag_same by lia.
    + destruct (lead_ok cls (lower (c :: s))) eqn:El.
      * apply lead_digits_ok in El as [[[ld ds] rest'] El].
        pose proof El as El0.
        apply lead_digits_spec in El as (Hl & Hacc & Hne & Hds & Hrest).
        unfold lower in Hl. apply map_eq_app in Hl as (L & y & Hs & HL & Hy).
        apply map_eq_app in Hy as (D & r & -> & HD & Hr).
        fold (lower L) in HL. fold (lower D) in HD. fold (lower r) in Hr.
        assert (HDd : Forall (fun c => is_digit c = true) D).
        { rewrite <- HD in Hds. unfold lower in Hds. apply Forall_map in Hds.
          eapply Forall_impl; [|exact Hds]. intros x Hx. cbv beta in Hx.
          now rewrite lower_char_digit in Hx. }
        assert (HDs : D = ds) by (rewrite <- HD; symmetry; now apply lower_digits).
        subst D.
        assert (HLl : length L = length cls).
        { apply Forall2_length in Hacc. rewrite Hacc, <- HL. unfold lower.
          now rewrite length_map. }
        destruct L as [|c0 a]; [unfold cls in HLl; cbn in HLl; lia|].
        cbn [app] in Hs. injection Hs as <- ->.
        right. exists (tag 0 ld ++ tag 1 ds). split.
        -- rewrite search_lead_digits, El0. reflexivity.
        -- assert (Hla : (length a < length cls)%nat) by (rewrite <- HLl; cbn; lia).
           rewrite (sub_through a ds r Hla Hne HDd) in Hm'.
           change (c :: a ++ ds ++ re_sub Pat t1 r)
             with ((c :: a) ++ ds ++ re_sub Pat t1 r) in Hm'.
           rewrite !lower_app, HL, HD in Hm'.
           rewrite search_lead_digits in Hm'.
           assert (E' : lead_digits cls (ld ++ ds ++ lower (re_sub Pat t1 r))
                        = Some (ld, ds, lower (re_sub Pat t1 r))).
           { apply lead_digits_spec.
             split; [reflexivity|]. split; [assumption|].
             split; [assumption|]. split; [assumption|].
             pose proof (head_digit_lower (re_sub Pat t1 r)) as Hh.
             unfold Pat, cls in Hh.
             rewrite (head_digit_sub f1 cls' g t1 rho vs1 cls_digit_free expand_lead1
                        rho_lead) in Hh. fold cls Pat in Hh.
             rewrite <- (head_digit_lower r), Hr in Hh.
             destruct (lower (re_sub Pat t1 r)) as [|y0 r0]; [exact I|]. cbn in Hh.
             rewrite Hh. destruct rest'; [reflexivity | assumption]. }
           rewrite E' in Hm'. now injection Hm' as <-.
      * assert (E1 : lead_digits cls (lower (c :: re_sub Pat t1 s)) = None).
        { apply lead_digits_none. rewrite <- El.
          apply (lead_ok_sub_cons f1 cls' g t1 rho vs1 phi phi_digit cls_digit_free
                   cls_respects cls_lower expand_lead1 rho_lead rho_phi vs1_digits
                   vs1_nonempty c s). }
        rewrite search_lead_digits, E1 in Hm'.
        change (lower (c :: re_sub Pat t1 s))
          with (lower_char c :: lower (re_sub Pat t1 s)) in Hm'.
        apply lead_digits_none in El.
        destruct (IH _ Hm') as [Hv | (m & Hm & Hg)]; [now left|].
        right. exists m. split; [|assumption].
        rewrite search_lead_digits, El.
        change (lower (c :: s)) with (lower_char c :: lower s). exact Hm.
Qed.
End RewriteTwice.

Section PaginationFacts.

Import URLGenerator.

Section KindFacts.
Variable pats1 pats2 : list (string * regex).
Variable name : string.
Variable f1 : ascii -> bool.
Variable cls' : list (ascii -> bool).
Variable g : nat.
Variable phi : ascii -> ascii.
Variable t : Z -> template.
Variable rho : str -> str.
Variable value : Z -> Z.

Let cls := f1 :: cls'.

Hypothesis patterns_split :
  PATTERNS = pats1 ++ (name, digits_after cls) :: pats2.
Hypothesis name_before : ~ In name (map fst pats1).
Hypothesis name_after : ~ In name (map fst pats2).
Hypothesis name_known : name <> "unknown"%string.
Hypothesis before_plain : Forall (fun np => plain_pattern phi (snd np)) pats1.
Hypothesis phi_digit : forall c, is_digit (phi c) = is_digit c.
Hypothesis cls_digit_free : Forall digit_free cls.
Hypothesis cls_respects : Forall (respects phi) cls'.
Hypothesis cls_lower : Forall lower_stable cls.
Hypothesis expand_lead : forall N ld ds,
    accepts cls ld ->
    expand (t N) (tag g ld ++ tag 0 ds) = rho ld ++ str_of_int (value N).
Hypothesis rho_lead : forall ld, accepts cls ld -> accepts cls (rho ld).
Hypothesis rho_phi : forall ld, accepts cls ld -> map phi (rho ld) = map phi ld.
Hypothesis rho_twice : forall ld, accepts cls ld -> rho (rho ld) = rho ld.
Hypothesis generate_kind : forall url N info,
    pattern_type info = name ->
    generate_with url N info
    = bind (py_str (value N)) (fun _ =>
        Ok (re_sub (ones g cls ++ [Atom 0 (Many1 is_digit)]) (t N) url)).
Hypothesis value_beyond : forall M,
    int_str_bound <= Z.abs M -> int_str_bound <= Z.abs (value M).

(** What holds of the rewritten URL whatever the letter case of the
    input: the same pattern is detected, only digits (and what [phi]
    identifies) have changed, and a further rewrite gives what it gives
    on the input, for every target that is written or refused
    altogether. *)
Lemma kind_facts (url : str) (N : Z) (info : pattern_info) :
  0 <= value N < int_str_bound ->
  detect_pattern url = Ok info -> pattern_type info = name ->
  exists u info',
    generate_next_url url N = Ok u /\ detect_pattern u = Ok info' /\
    pattern_type info' = name /\
    norm phi u = norm phi url /\
    (forall M, Z.abs (value M) < int_str_bound \/ int_str_bound <= Z.abs M ->
               generate_next_url u M = generate_next_url url M).
Proof.
  intros Hv Hdet Hname. unfold cls in *.
  assert (Hgen : forall M, Z.abs (value M) < int_str_bound ->
                 generate_next_url url M
                 = Ok (re_sub (ones g (f1 :: cls') ++ [Atom 0 (Many1 is_digit)]) (t M) url)).
  { intros M HM. unfold generate_next_url. rewrite Hdet. cbn [bind].
    now rewrite (generate_kind url M info Hname), py_str_within. }
  assert (Hraise : forall x i M, detect_pattern x = Ok i -> pattern_type i = name ->
                   int_str_bound <= Z.abs M ->
                   generate_next_url x M = Raise ValueError).
  { intros x i M Hx Hi HM. unfold generate_next_url. rewrite Hx. cbn [bind].
    rewrite (generate_kind x M i Hi), py_str_beyond by now apply value_beyond.
    cbn [bind]. now apply append_page_beyond. }
  rewrite Hgen by lia.
  set (u := re_sub _ (t N) url).
  pose proof Hdet as Hdet0.
  unfold detect_pattern in Hdet. rewrite patterns_split in Hdet.
  destruct (detect_loop_at _ _ _ _ _ _ name_before name_after name_known Hdet Hname)
    as (Hnone & _ & m & Hm & Hpage).
  destruct (digits_of_spec _ (proj1 Hv)) as (Hne & Hall & Hval).
  rewrite <- (str_of_int_nonneg _ (proj1 Hv)) in Hne, Hall.
  assert (Hf : found (f1 :: cls') (lower u) = true).
  { unfold u.
    rewrite (found_sub_lower f1 cls' g (t N) rho (str_of_int (value N)) phi
               phi_digit cls_digit_free cls_respects cls_lower (expand_lead N)
               rho_lead rho_phi Hall Hne url).
    apply search_some_found. rewrite Hm. eauto. }
  apply search_some_found in Hf as [m' Hm'].
  destruct (search_first_occurrence _ _ _ Hm')
    as (pre & ld & ds & rest & _ & -> & _ & Hdne & Hds & _).
  assert (Hdu : detect_pattern u
                = Ok (PatternInfo name (Some (digits_after (f1 :: cls')))
                        (int_of_digits ds) (groups (digits_after (f1 :: cls'))
                                                   (tag 0 ld ++ tag 1 ds)))).
  { unfold detect_pattern. rewrite patterns_split.
    apply detect_loop_hit.
    - apply Forall_forall. intros np Hin.
      pose proof (proj1 (Forall_forall _ _) Hnone np Hin) as Hnp. cbv beta in Hnp.
      destruct (proj1 (Forall_forall _ _) before_plain np Hin)
        as (q & qcls & Hq & Hdf & Hphi).
      rewrite Hq in *.
      apply (search_other_sub f1 cls' g (t N) rho (str_of_int (value N)) phi
               phi_digit cls_digit_free cls_lower (expand_lead N) rho_lead rho_phi
               Hall Hne q qcls url Hdf Hphi).
      exact Hnp.
    - exact Hm'.
    - assert (Hg : group 1 (tag 0 ld ++ tag 1 ds) = ds)
        by now rewrite group_app, group_tag_other, group_tag_same by lia.
      rewrite Hg. apply py_int_digits; [assumption | assumption |].
      destruct (search_sub_digits f1 cls' g (t N) rho (str_of_int (value N)) phi
                  phi_digit cls_digit_free cls_respects cls_lower (expand_lead N)
                  rho_lead rho_phi Hall Hne url _ Hm') as [Hnew | (m0 & Hm0 & Hold)].
      + rewrite Hg in Hnew. rewrite Hnew. now apply str_of_int_length.
      + rewrite Hg in Hold. rewrite Hm in Hm0. injection Hm0 as <-.
        rewrite <- Hold in Hpage. now apply py_int_digits_ok in Hpage as [Hlen _]. }
  exists u. eexists. split; [reflexivity|]. split; [exact Hdu|].
  split; [reflexivity|]. split.
  - apply (norm_sub_plain f1 cls' g (t N) rho (str_of_int (value N)) phi
             phi_digit cls_digit_free (expand_lead N) rho_lead rho_phi Hall Hne).
  - intros M [HM|HM].
    + rewrite Hgen by assumption. unfold generate_next_url. rewrite Hdu. cbn [bind].
      rewrite generate_kind, py_str_within by (reflexivity || assumption).
      cbn [bind]. f_equal.
      apply (re_sub_twice f1 cls' g (t N) (t M) rho (str_of_int (value N))
               (str_of_int (value M)) phi phi_digit cls_digit_free cls_respects
               (expand_lead N) (expand_lead M) rho_lead rho_phi rho_twice Hall Hne).
    + rewrite (Hraise url info M Hdet0 Hname HM).
      now rewrite (Hraise u _ M Hdu eq_refl HM).
Qed.
End KindFacts.

Section QueryFacts.
Variable name : string.
Variable key : str.
Variable value : Z -> Z.
Variable pats1 pats2 : list (string * regex).

Let cls' := map ascii_eqb (key ++ str_of_string "=").

Hypothesis key_plain : Forall (fun c => is_digit c = false) (key ++ str_of_string "=").
Hypothesis key_lower : Forall (fun c => lower_char c = c) (key ++ str_of_string "=").
Hypothesis patterns_split :
  PATTERNS = pats1 ++ (name, digits_after (is_sep :: cls')) :: pats2.
Hypothesis names_before : forallb (fun n => negb (String.eqb n name)) (map fst pats1) = true.
Hypothesis names_after : forallb (fun n => negb (String.eqb n name)) (map fst pats2) = true.
Hypothesis name_known : name <> "unknown"%string.
Hypothesis before_plain : Forall (fun np => plain_pattern same (snd np)) pats1.
Hypothesis generate_kind : forall url N info,
    pattern_type info = name ->
    generate_with url N info = query_sub key (value N) url.
Hypothesis value_beyond : forall M,
    int_str_bound <= Z.abs M -> int_str_bound <= Z.abs (value M).

Lemma query_facts (url : str) (N : Z) (info : pattern_info) :
  0 <= value N < int_str_bound ->
  detect_pattern url = Ok info -> pattern_type info = name ->
  exists u info',
    generate_next_url url N = Ok u /\ detect_pattern u = Ok info' /\
    pattern_type info' = name /\
    norm same u = norm same url /\
    (forall M, Z.abs (value M) < int_str_bound \/ int_str_bound <= Z.abs M ->
               generate_next_url u M = generate_next_url url M).
Proof.
  apply (kind_facts pats1 pats2 name is_sep cls' 1 same
           (fun N => [RGroup 1; RText (str_of_int (value N))]) (fun ld => ld) value).
  - exact patterns_split.
  - now apply not_in_names.
  - now apply not_in_names.
  - exact name_known.
  - exact before_plain.
  - reflexivity.
  - constructor; [apply digit_free_sep | now apply digit_free_word].
  - apply Forall_respects_same.
  - constructor; [apply lower_stable_sep | now apply lower_stable_word].
  - intros N0 ld ds _. apply expand_query.
  - auto.
  - reflexivity.
  - reflexivity.
  - intros url0 N0 info0 Hn. rewrite (generate_kind _ _ _ Hn), query_sub_text.
    unfold cls'. do 4 f_equal.
    change (ones 1 (is_sep :: map ascii_eqb (key ++ str_of_string "=")))
      with (Atom 1 (One is_sep) :: ones 1 (map ascii_eqb (key ++ str_of_string "="))).
    rewrite ones_word, lit_app. cbn [app]. now rewrite <- app_assoc.
  - exact value_beyond.
Qed.
End QueryFacts.

Lemma facts_query_page (url : str) (N : Z) (info : pattern_info) :
  0 <= N < int_str_bound ->
  detect_pattern url = Ok info -> pattern_type info = "query_page"%string ->
  exists u info',
    generate_next_url url N = Ok u /\ detect_pattern u = Ok info' /\
    pattern_type info' = "query_page"%string /\
    norm same u = norm same url /\
    (forall M, Z.abs M < int_str_bound \/ int_str_bound <= Z.abs M ->
               generate_next_url u M = generate_next_url url M).
Proof.
  apply (query_facts "query_page" (str_of_string "page") (fun N => N)
           [] (skipn 1 PATTERNS)).
  - plain_chars.
  - plain_chars.
  - reflexivity.
  - reflexivity.
  - reflexivity.
  - discriminate.
  - constructor.
  - intros url0 N0 info0 Hn. unfold generate_with. rewrite Hn. reflexivity.
  - auto.
Qed.

Lemma facts_query_p (url : str) (N : Z) (info : pattern_info) :
  0 <= N < int_str_bound ->
  detect_pattern url = Ok info -> pattern_type info = "query_p"%string ->
  exists u info',
    generate_next_url url N = Ok u /\ detect_pattern u = Ok info' /\
    pattern_type info' = "query_p"%string /\
    norm same u = norm same url /\
    (forall M, Z.abs M < int_str_bound \/ int_str_bound <= Z.abs M ->
               generate_next_url u M = generate_next_url url M).
Proof.
  apply (query_facts "query_p" (str_of_string "p") (fun N => N)
           (firstn 1 PATTERNS) (skipn 2 PATTERNS)).
  - plain_chars.
  - plain_chars.
  - reflexivity.
  - reflexivity.
  - reflexivity.
  - discriminate.
  - repeat constructor; apply plain_query_same; plain_chars.
  - intros url0 N0 info0 Hn. unfold generate_with. rewrite Hn. reflexivity.
  - auto.
Qed.

Lemma facts_query_offset (url : str) (N : Z) (info : pattern_info) :
  0 <= (N - 1) * 20 < int_str_bound ->
  detect_pattern url = Ok info -> pattern_type info = "query_offset"%string ->
  exists u info',
    generate_next_url url N = Ok u /\ detect_pattern u = Ok info' /\
    pattern_type info' = "query_offset"%string /\
    norm same u = norm same url /\
    (forall M, Z.abs ((M - 1) * 20) < int_str_bound \/ int_str_bound <= Z.abs M ->
               generate_next_url u M = generate_next_url url M).
Proof.
  apply (query_facts "query_offset" (str_of_string "offset") (fun N => (N - 1) * 20)
           (firstn 2 PATTERNS) (skipn 3 PATTERNS)).
  - plain_chars.
  - plain_chars.
  - reflexivity.
  - reflexivity.
  - reflexivity.
  - discriminate.
  - repeat constructor; apply plain_query_same; plain_chars.
  - intros url0 N0 info0 Hn. unfold generate_with. rewrite Hn. reflexivity.
  - intros M HM. pose proof int_str_bound_large. lia.
Qed.

Lemma facts_query_start (url : str) (N : Z) (info : pattern_info) :
  0 <= (N - 1) * 20 < int_str_bound ->
  detect_pattern url = Ok info -> pattern_type info = "query_start"%string ->
  exists u info',
    generate_next_url url N = Ok u /\ detect_pattern u = Ok info' /\
    pattern_type info' = "query_start"%string /\
    norm same u = norm same url /\
    (forall M, Z.abs ((M - 1) * 20) < int_str_bound \/ int_str_bound <= Z.abs M ->
               generate_next_url u M = generate_next_url url M).
Proof.
  apply (query_facts "query_start" (str_of_string "start") (fun N => (N - 1) * 20)
           (firstn 3 PATTERNS) (skipn 4 PATTERNS)).
  - plain_chars.
  - plain_chars.
  - reflexivity.
  - reflexivity.
  - reflexivity.
  - discriminate.
  - repeat constructor; apply plain_query_same; plain_chars.
  - intros url0 N0 info0 Hn. unfold generate_with. rewrite Hn. reflexivity.
  - intros M HM. pose proof int_str_bound_large. lia.
Qed.

Lemma facts_path_page (url : str) (N : Z) (info : pattern_info) :
  0 <= N < int_str_bound ->
  detect_pattern url = Ok info -> pattern_type info = "path_page"%string ->
  exists u info',
    generate_next_url url N = Ok u /\ detect_pattern u = Ok info' /\
    pattern_type info' = "path_page"%string /\
    norm dash_to_slash u = norm dash_to_slash url /\
    (forall M, Z.abs M < int_str_bound \/ int_str_bound <= Z.abs M ->
               generate_next_url u M = generate_next_url url M).
Proof.
  apply (kind_facts (firstn 4 PATTERNS) (skipn 5 PATTERNS) "path_page"
           (ascii_eqb "/") (map ascii_eqb (str_of_string "page") ++ [is_slash_dash])
           0 dash_to_slash
           (fun N => [RText (str_of_string "/page-" ++ str_of_int N)])
           (fun _ => str_of_string "/page-") (fun N => N)).
  - reflexivity.
  - apply not_in_names. reflexivity.
  - apply not_in_names. reflexivity.
  - discriminate.
  - repeat constructor; apply plain_query_dash; plain_chars.
  - apply dash_to_slash_digit.
  - change (ascii_eqb "/" :: map ascii_eqb (str_of_string "page") ++ [is_slash_dash])
      with (map ascii_eqb (str_of_string "/page") ++ [is_slash_dash]).
    apply Forall_app. split; [apply digit_free_word; plain_chars|].
    repeat constructor. apply digit_free_slash_dash.
  - apply Forall_app. split.
    + repeat constructor; apply respects_dash_eqb; discriminate.
    + repeat constructor. apply respects_dash_slash_dash.
  - change (ascii_eqb "/" :: map ascii_eqb (str_of_string "page") ++ [is_slash_dash])
      with (map ascii_eqb (str_of_string "/page") ++ [is_slash_dash]).
    apply Forall_app. split; [apply lower_stable_word; plain_chars|].
    repeat constructor. apply lower_stable_slash_dash.
  - intros N0 ld ds _. cbn. now rewrite app_nil_r.
  - intros ld _. repeat constructor.
  - intros ld Hld.
    change (ascii_eqb "/" :: map ascii_eqb (str_of_string "page") ++ [is_slash_dash])
      with (map ascii_eqb (str_of_string "/page") ++ [is_slash_dash]) in Hld.
    apply accepts_word_then in Hld as (x & -> & Hx).
    apply is_slash_dash_cases in Hx as [-> | ->]; reflexivity.
  - reflexivity.
  - intros url0 N0 info0 Hn. unfold generate_with. rewrite Hn.
    exact (path_sub_text _ _ _ _).
  - auto.
Qed.

Lemma facts_path_p (url : str) (N : Z) (info : pattern_info) :
  0 <= N < int_str_bound ->
  detect_pattern url = Ok info -> pattern_type info = "path_p"%string ->
  exists u info',
    generate_next_url url N = Ok u /\ detect_pattern u = Ok info' /\
    pattern_type info' = "path_p"%string /\
    norm same u = norm same url /\
    (forall M, Z.abs M < int_str_bound \/ int_str_bound <= Z.abs M ->
               generate_next_url u M = generate_next_url url M).
Proof.
  apply (kind_facts (firstn 5 PATTERNS) (skipn 6 PATTERNS) "path_p"
           (ascii_eqb "/") (map ascii_eqb (str_of_string "p/"))
           0 same
           (fun N => [RText (str_of_string "/p/" ++ str_of_int N)])
           (fun _ => str_of_string "/p/") (fun N => N)).
  - reflexivity.
  - apply not_in_names. reflexivity.
  - apply not_in_names. reflexivity.
  - discriminate.
  - repeat constructor; try (apply plain_query_same; plain_chars).
    exists (ascii_eqb "/"), (map ascii_eqb (str_of_string "page") ++ [is_slash_dash]).
    split; [reflexivity|]. split; [|apply Forall_respects_same].
    change (ascii_eqb "/" :: map ascii_eqb (str_of_string "page") ++ [is_slash_dash])
      with (map ascii_eqb (str_of_string "/page") ++ [is_slash_dash]).
    apply Forall_app. split; [apply digit_free_word; plain_chars|].
    repeat constructor. apply digit_free_slash_dash.
  - reflexivity.
  - change (ascii_eqb "/" :: map ascii_eqb (str_of_string "p/"))
      with (map ascii_eqb (str_of_string "/p/")).
    apply digit_free_word; plain_chars.
  - apply Forall_respects_same.
  - change (ascii_eqb "/" :: map ascii_eqb (str_of_string "p/"))
      with (map ascii_eqb (str_of_string "/p/")).
    apply lower_stable_word; plain_chars.
  - intros N0 ld ds _. cbn. now rewrite app_nil_r.
  - intros ld _. repeat constructor.
  - intros ld Hld.
    change (ascii_eqb "/" :: map ascii_eqb (str_of_string "p/"))
      with (map ascii_eqb (str_of_string "/p/")) in Hld.
    apply accepts_word in Hld as ->. reflexivity.
  - reflexivity.
  - intros url0 N0 info0 Hn. unfold generate_with. rewrite Hn.
    exact (path_sub_text _ _ _ _).
  - auto.
Qed.

(** All of it at once, for every kind rewritten in place. *)
Lemma rewrite_facts (url : str) (N : Z) (info : pattern_info) :
  detect_pattern url = Ok info ->
  rewrites_in_place (pattern_type info) N ->
  exists u info',
    generate_next_url url N = Ok u /\ detect_pattern u = Ok info' /\
    pattern_type info' = pattern_type info /\
    digitless (pattern_type info) u = digitless (pattern_type info) url /\
    (forall M, ~ falls_back (pattern_type info) M ->
               generate_next_url u M = generate_next_url url M).
Proof.
  intros Hdet [[Hin HN] | [Hin HN]]; unfold digitless.
  - assert (Hall : forall M, Z.abs M < int_str_bound \/ int_str_bound <= Z.abs M)
      by (intros M; lia).
    destruct Hin as [H|[H|[H|[H|[]]]]]; symmetry in H; rewrite H.
    + destruct (facts_query_page url N info HN Hdet H) as (u & i & H1 & H2 & H3 & H4 & H5).
      exists u, i. eauto 10.
    + destruct (facts_query_p url N info HN Hdet H) as (u & i & H1 & H2 & H3 & H4 & H5).
      exists u, i. eauto 10.
    + destruct (facts_path_page url N info HN Hdet H) as (u & i & H1 & H2 & H3 & H4 & H5).
      exists u, i. eauto 10.
    + destruct (facts_path_p url N info HN Hdet H) as (u & i & H1 & H2 & H3 & H4 & H5).
      exists u, i. eauto 10.
  - assert (Hband : forall M, ~ falls_back (pattern_type info) M ->
                    Z.abs ((M - 1) * 20) < int_str_bound \/ int_str_bound <= Z.abs M).
    { intros M HM.
      destruct (Z.lt_ge_cases (Z.abs ((M - 1) * 20)) int_str_bound); [now left|].
      destruct (Z.lt_ge_cases (Z.abs M) int_str_bound); [|now right].
      exfalso. apply HM. unfold falls_back. auto. }
    destruct Hin as [H|[H|[]]]; symmetry in H; rewrite H in *.
    + destruct (facts_query_offset url N info ltac:(lia) Hdet H)
        as (u & i & H1 & H2 & H3 & H4 & H5).
      exists u, i. eauto 10.
    + destruct (facts_query_start url N info ltac:(lia) Hdet H)
        as (u & i & H1 & H2 & H3 & H4 & H5).
      exists u, i. eauto 10.
Qed.

(** Whatever the letter case of the URL, [detect_pattern] reports for
    the rewritten URL the pattern it reported for the input. *)
Theorem generate_next_url_keeps_pattern :
  forall (url : str) (N : Z) (info : pattern_info),
    detect_pattern url = Ok info ->
    rewrites_in_place (pattern_type info) N ->
    exists u info',
      generate_next_url url N = Ok u /\ detect_pattern u = Ok info' /\
      pattern_type info' = pattern_type info.
Proof.
  intros url N info Hdet Hk.
  destruct (rewrite_facts url N info Hdet Hk) as (u & info' & H1 & H2 & H3 & _).
  eauto.
Qed.

Lemma generate_next_url_keeps_pattern_witness :
  exists u info',
    generate_next_url (str_of_string "https://x.com/Items?Page=2&page=7") 5 = Ok u /\
    detect_pattern u = Ok info' /\
    pattern_type info' = "query_page"%string.
Proof.
  refine (generate_next_url_keeps_pattern
            (str_of_string "https://x.com/Items?Page=2&page=7") 5
            (PatternInfo "query_page" (Some (query_regex (str_of_string "page"))) 2
                         [str_of_string "2"]) _ _).
  - vm_compute. reflexivity.
  - left. split; [cbn; auto | split; [lia | vm_compute; reflexivity]].
Defined.

(** The rewritten URL differs from the input in runs of digits only
    (and, for [/page/N], in the separator that becomes ['-']). *)
Theorem generate_next_url_changes_digits_only :
  forall (url : str) (N : Z) (info : pattern_info),
    detect_pattern url = Ok info ->
    rewrites_in_place (pattern_type info) N ->
    exists u,
      generate_next_url url N = Ok u /\
      digitless (pattern_type info) u = digitless (pattern_type info) url.
Proof.
  intros url N info Hdet Hk.
  destruct (rewrite_facts url N info Hdet Hk) as (u & info' & H1 & _ & _ & H4 & _).
  eauto.
Qed.

Lemma generate_next_url_changes_digits_only_witness :
  exists u,
    generate_next_url (str_of_string "https://x.com/list/page/12?sort=a1") 130 = Ok u /\
    digitless "path_page" u
    = digitless "path_page" (str_of_string "https://x.com/list/page/12?sort=a1").
Proof.
  refine (generate_next_url_changes_digits_only
            (str_of_string "https://x.com/list/page/12?sort=a1") 130
            (PatternInfo "path_page"
               (Some (lit 0 (str_of_string "/page")
                        ++ [Atom 0 (One is_slash_dash); Atom 1 (Many1 is_digit)]))
               12 [str_of_string "12"]) _ _).
  - vm_compute. reflexivity.
  - left. split; [cbn; auto | split; [lia | vm_compute; reflexivity]].
Defined.

(** Generating the URL of page [M] from a generated URL gives what
    generating it from the original URL gives, an exception included;
    left out are the targets [M] for which the call does not rewrite
    but falls back. *)
Theorem generate_next_url_twice :
  forall (url : str) (N M : Z) (info : pattern_info),
    detect_pattern url = Ok info ->
    rewrites_in_place (pattern_type info) N ->
    ~ falls_back (pattern_type info) M ->
    exists u,
      generate_next_url url N = Ok u /\
      generate_next_url u M = generate_next_url url M.
Proof.
  intros url N M info Hdet Hk HM.
  destruct (rewrite_facts url N info Hdet Hk) as (u & info' & H1 & _ & _ & _ & H5).
  eauto.
Qed.

Lemma generate_next_url_twice_witness :
  exists u,
    generate_next_url (str_of_string "https://x.com/items?offset=40&page=x") 3 = Ok u /\
    generate_next_url u 9
    = generate_next_url (str_of_string "https://x.com/items?offset=40&page=x") 9.
Proof.
  refine (generate_next_url_twice
            (str_of_string "https://x.com/items?offset=40&page=x") 3 9
            (PatternInfo "query_offset" (Some (query_regex (str_of_string "offset"))) 40
                         [str_of_string "40"]) _ _ _).
  - vm_compute. reflexivity.
  - right. split; [cbn; auto | split; [lia | vm_compute; reflexivity]].
  - intros (_ & _ & H). vm_compute in H. now apply H.
Defined.

End PaginationFacts.

(** ** Pagination: the fallback, a pattern that is never reported, and
    when detection raises *)

Section PaginationEdges.

Import URLGenerator.

Lemma detect_loop_unknown pats s info :
  ~ In "unknown"%string (map fst pats) ->
  detect_loop pats s = Ok info -> pattern_type info = "unknown"%string ->
  info = unknown_info /\ Forall (fun np => search (snd np) s = None) pats.
Proof.
  induction pats as [|[n p] pats IH]; cbn [detect_loop map fst In]; intros Hn Hd Ht.
  - split; [congruence | constructor].
  - destruct (search p s) as [m|] eqn:E.
    + destruct (py_int (group 1 m)); cbn in Hd; [|discriminate].
      injection Hd as <-. cbn in Ht. tauto.
    + destruct (IH ltac:(tauto) Hd Ht) as [-> HF]. split; [reflexivity|].
      constructor; assumption.
Qed.

(** Where the pattern does not occur, [re.sub] changes nothing. *)
Lemma re_sub_absent g cls t : forall s,
  found cls s = false ->
  re_sub (ones g cls ++ [Atom 0 (Many1 is_digit)]) t s = s.
Proof.
  induction s as [|c s IH]; intros H; [reflexivity|].
  rewrite found_cons in H. apply orb_false_iff in H as [H1 H2].
  rewrite re_sub_nomatch.
  - now rewrite IH.
  - rewrite match_lead_digits. apply lead_digits_none in H1. now rewrite H1.
Qed.

Lemma found_lower f1 cls' : Forall lower_stable (f1 :: cls') ->
  forall s, found (f1 :: cls') s = true -> found (f1 :: cls') (lower s) = true.
Proof.
  intros Hl. induction s as [|c s IH]; intros H.
  - cbn in H. discriminate.
  - rewrite found_cons in H. apply orb_true_iff in H as [H|H].
    + apply found_here. now apply lead_ok_lower.
    + change (lower (c :: s)) with (lower_char c :: lower s). apply found_later. auto.
Qed.

(** A character that no class but the first accepts, and that is no
    digit, ends every attempt to match that started before it. *)
Lemma lead_ok_stop cls x b : is_digit x = false -> Forall (fun f => f x = false) cls ->
  forall a, lead_ok cls (a ++ x :: b) = lead_ok cls a.
Proof.
  intros Hx Hc. induction Hc as [|f cls Hf _ IH]; intros a.
  - destruct a; cbn; [assumption | reflexivity].
  - destruct a as [|c a]; cbn [app lead_ok]; [now rewrite Hf|]. now rewrite IH.
Qed.

Lemma found_stop f1 cls' x b :
  is_digit x = false -> Forall (fun f => f x = false) cls' ->
  forall a, found (f1 :: cls') a = false ->
  search (digits_after (f1 :: cls')) (a ++ x :: b)
  = search (digits_after (f1 :: cls')) (x :: b).
Proof.
  intros Hx Hc. induction a as [|c a IH]; intros H; [reflexivity|].
  rewrite found_cons in H. apply orb_false_iff in H as [H1 H2].
  cbn [app]. rewrite search_lead_digits.
  assert (E : lead_digits (f1 :: cls') (c :: a ++ x :: b) = None).
  { apply lead_digits_none. cbn [lead_ok] in *. now rewrite (lead_ok_stop cls' x b Hx Hc). }
  rewrite E. now apply IH.
Qed.

Lemma separator_cases (url : str) :
  let separator : str := if str_in (str_of_string "?") url
                         then str_of_string "&" else str_of_string "?" in
  exists x, separator = [x] /\ is_sep x = true /\ lower_char x = x /\
            is_digit x = false /\
            Forall (fun f => f x = false) (map ascii_eqb (str_of_string "page=")).
Proof.
  cbv zeta. destruct (str_in _ url);
    eexists; (split; [reflexivity|]); repeat split; repeat constructor.
Qed.

Lemma append_page_within url N :
  Z.abs N < int_str_bound -> append_page url N = Ok (page_appended url N).
Proof. intros H. unfold append_page, page_appended. now rewrite py_str_within. Qed.

(** The fallback: when [detect_pattern] finds no pattern and the page
    number can be written, the page parameter is appended, and it is
    what [detect_pattern] then finds; a page number of more than 4300
    digits makes the call raise. *)
Theorem generate_next_url_appends :
  forall (url : str) (N : Z) (info : pattern_info),
    detect_pattern url = Ok info -> pattern_type info = "unknown"%string ->
    (0 <= N < int_str_bound ->
     generate_next_url url N = Ok (page_appended url N) /\
     detect_pattern (page_appended url N)
     = Ok (PatternInfo "query_page" (Some (query_regex (str_of_string "page"))) N
                       [str_of_int N]) /\
     extract_page_number (page_appended url N) = Ok N) /\
    (int_str_bound <= Z.abs N -> generate_next_url url N = Raise ValueError).
Proof.
  intros url N info Hdet Hty.
  unfold detect_pattern in Hdet.
  destruct (detect_loop_unknown PATTERNS (lower url) info) as [-> Hnone];
    [cbn; intuition discriminate | assumption | assumption |].
  assert (Hpage : found (is_sep :: map ascii_eqb (str_of_string "page" ++ str_of_string "="))
                         (lower url) = false).
  { apply search_none_found. rewrite <- (query_regex_shape (str_of_string "page")).
    now inversion Hnone. }
  assert (Hp : found (is_sep :: map ascii_eqb (str_of_string "p" ++ str_of_string "="))
                      (lower url) = false).
  { apply search_none_found. rewrite <- (query_regex_shape (str_of_string "p")).
    inversion Hnone as [|? ? _ H2]; subst. now inversion H2. }
  assert (Hraw : forall key,
             Forall (fun c => lower_char c = c) (key ++ str_of_string "=") ->
             found (is_sep :: map ascii_eqb (key ++ str_of_string "=")) (lower url) = false ->
             forall v, query_sub key v url = bind (py_str v) (fun _ => Ok url)).
  { intros key Hk Hf v. rewrite query_sub_text. f_equal.
    replace (Atom 1 (One is_sep) :: lit 1 key ++ lit 1 (str_of_string "=")
               ++ [Atom 0 (Many1 is_digit)])
      with (ones 1 (is_sep :: map ascii_eqb (key ++ str_of_string "="))
              ++ [Atom 0 (Many1 is_digit)]).
    - rewrite re_sub_absent; [reflexivity|].
      destruct (found _ url) eqn:E; [|reflexivity].
      apply found_lower in E; [congruence|].
      constructor; [apply lower_stable_sep | now apply lower_stable_word].
    - change (ones 1 (is_sep :: map ascii_eqb (key ++ str_of_string "=")))
        with (Atom 1 (One is_sep) :: ones 1 (map ascii_eqb (key ++ str_of_string "="))).
      rewrite ones_word, lit_app. cbn [app]. now rewrite <- app_assoc. }
  assert (Htry : generate_with url N unknown_info
                 = bind (py_str N) (fun _ => append_page url N)).
  { unfold generate_with.
    change (pattern_type unknown_info) with "unknown"%string.
    cbn [str_of_string list_ascii_of_string].
    change (str_in _ (str_of_string "unknown")) with false.
    cbv iota. cbn [str_in starts_with ascii_eqb Ascii.eqb Bool.eqb andb orb str_eqb].
    rewrite (Hraw (str_of_string "page") ltac:(plain_chars) Hpage).
    rewrite (Hraw (str_of_string "p") ltac:(plain_chars) Hp).
    destruct (py_str N); cbn [bind]; [|reflexivity].
    now rewrite (proj2 (str_eqb_eq url url) eq_refl). }
  split.
  - intros HN.
    assert (Hgen : generate_next_url url N = Ok (page_appended url N)).
    { unfold generate_next_url, detect_pattern. rewrite (detect_loop_none _ _ Hnone).
      cbn [bind]. rewrite Htry, py_str_within by lia. cbn [bind].
      now rewrite append_page_within by lia. }
    assert (Hdet2 : detect_pattern (page_appended url N)
      = Ok (PatternInfo "query_page" (Some (query_regex (str_of_string "page"))) N
                        [str_of_int N])).
    { destruct (separator_cases url) as (x & Hsep & Hx & Hlx & Hdx & Hstop).
      cbv zeta in Hsep.
      destruct (digits_of_spec _ (proj1 HN)) as (Hne & Hall & Hval).
      rewrite <- (str_of_int_nonneg _ (proj1 HN)) in Hne, Hall.
      unfold detect_pattern, page_appended. rewrite Hsep.
      rewrite !lower_app. rewrite (lower_digits _ Hall).
      change (lower [x]) with [lower_char x]. rewrite Hlx.
      change (lower (str_of_string "page=")) with (str_of_string "page=").
      change PATTERNS with ([] ++ ("query_page"%string, query_regex (str_of_string "page"))
                               :: skipn 1 PATTERNS).
      rewrite (detect_loop_hit [] "query_page" _ _ _
                 (tag 0 (x :: str_of_string "page=") ++ tag 1 (str_of_int N)) N).
      - rewrite query_regex_shape, groups_digits_after. reflexivity.
      - constructor.
      - rewrite query_regex_shape.
        change ([x] ++ str_of_string "page=" ++ str_of_int N)
          with (x :: str_of_string "page=" ++ str_of_int N).
        rewrite (found_stop is_sep _ x _ Hdx Hstop _ Hpage).
        rewrite search_lead_digits.
        assert (E : lead_digits (is_sep :: map ascii_eqb (str_of_string "page="))
                      (x :: str_of_string "page=" ++ str_of_int N)
                    = Some (x :: str_of_string "page=", str_of_int N, [])).
        { apply lead_digits_spec. split; [now rewrite app_nil_r|].
          split; [constructor; [assumption | repeat constructor]|].
          split; [assumption|]. split; [assumption | exact I]. }
        now rewrite E.
      - rewrite group_app, group_tag_other, group_tag_same by lia.
        now apply py_int_str_of_int. }
    split; [exact Hgen|]. split; [exact Hdet2|].
    unfold extract_page_number. now rewrite Hdet2.
  - intros HN. unfold generate_next_url, detect_pattern.
    rewrite (detect_loop_none _ _ Hnone). cbn [bind].
    rewrite Htry, py_str_beyond by assumption. cbn [bind].
    now apply append_page_beyond.
Qed.

Lemma generate_next_url_appends_witness :
  generate_next_url (str_of_string "https://x.com/items?sort=asc") 3
  = Ok (str_of_string "https://x.com/items?sort=asc&page=3") /\
  detect_pattern (str_of_string "https://x.com/items?sort=asc&page=3")
  = Ok (PatternInfo "query_page" (Some (query_regex (str_of_string "page"))) 3
                    [str_of_string "3"]) /\
  extract_page_number (str_of_string "https://x.com/items?sort=asc&page=3") = Ok 3.
Proof.
  apply (proj1 (generate_next_url_appends (str_of_string "https://x.com/items?sort=asc") 3
                  unknown_info ltac:(vm_compute; reflexivity) eq_refl)).
  split; [lia | vm_compute; reflexivity].
Defined.

(** The pattern [/products/page[/-]N] contains [/page[/-]N], which is
    tried before it: [detect_pattern] never reports [path_products]. *)
Theorem path_products_never_detected :
  forall (url : str) (info : pattern_info),
    detect_pattern url = Ok info -> pattern_type info <> "path_products"%string.
Proof.
  intros url info Hdet Hty. unfold detect_pattern in Hdet.
  change PATTERNS with (firstn 6 PATTERNS ++
    ("path_products"%string,
     digits_after (map ascii_eqb (str_of_string "/products")
                     ++ map ascii_eqb (str_of_string "/page") ++ [is_slash_dash]))
    :: skipn 7 PATTERNS) in Hdet.
  apply detect_loop_at in Hdet as (Hnone & _ & m & Hm & _);
    [| apply not_in_names; reflexivity | apply not_in_names; reflexivity
     | discriminate | assumption].
  assert (Hf : found (map ascii_eqb (str_of_string "/page") ++ [is_slash_dash]) (lower url)
               = true).
  { apply (found_longer (map ascii_eqb (str_of_string "/products"))).
    apply search_some_found. rewrite Hm. eauto. }
  assert (Hn : search (digits_after (map ascii_eqb (str_of_string "/page") ++ [is_slash_dash]))
                      (lower url) = None).
  { pose proof (proj1 (Forall_forall _ _) Hnone
                  ("path_page"%string,
                   digits_after (map ascii_eqb (str_of_string "/page") ++ [is_slash_dash])))
      as H. apply H. cbn. auto 10. }
  apply search_none_found in Hn. congruence.
Qed.

Lemma path_products_never_detected_witness :
  detect_pattern (str_of_string "https://x.com/products/page/3")
  = Ok (PatternInfo "path_page"
          (Some (lit 0 (str_of_string "/page")
                   ++ [Atom 0 (One is_slash_dash); Atom 1 (Many1 is_digit)]))
          3 [str_of_string "3"]) /\
  pattern_type (PatternInfo "path_page"
          (Some (lit 0 (str_of_string "/page")
                   ++ [Atom 0 (One is_slash_dash); Atom 1 (Many1 is_digit)]))
          3 [str_of_string "3"]) <> "path_products"%string.
Proof.
  assert (H : detect_pattern (str_of_string "https://x.com/products/page/3")
              = Ok (PatternInfo "path_page"
                      (Some (lit 0 (str_of_string "/page")
                               ++ [Atom 0 (One is_slash_dash); Atom 1 (Many1 is_digit)]))
                      3 [str_of_string "3"])) by (vm_compute; reflexivity).
  split; [exact H |].
  exact (path_products_never_detected _ _ H).
Defined.

Lemma search_digits_run cls s m :
  search (digits_after cls) s = Some m ->
  group 1 m <> [] /\ Forall (fun c => is_digit c = true) (group 1 m).
Proof.
  intros H. destruct (search_first_occurrence _ _ _ H)
    as (pre & ld & ds & rest & _ & -> & _ & Hne & Hds & _).
  rewrite group_app, group_tag_other, group_tag_same by lia. cbn [app]. auto.
Qed.

Lemma py_int_run_raise ds e :
  ds <> [] -> Forall (fun c => is_digit c = true) ds ->
  py_int ds = Raise e <-> e = ValueError /\ too_long ds.
Proof.
  intros Hne Hds. unfold too_long. rewrite (filter_digits _ Hds).
  destruct (Z.le_gt_cases (Z.of_nat (length ds)) int_max_str_digits) as [H|H].
  - rewrite py_int_digits by assumption. split; [discriminate | lia].
  - rewrite py_int_long by (assumption || lia).
    split; [intros [= <-]; split; [reflexivity | lia] | intros [-> _]; reflexivity].
Qed.

(** Among patterns that end in [(\d+)], the loop raises at the first
    one that occurs, when its digits are too many. *)
Lemma detect_loop_plain_raise pats rest s e :
  Forall (fun np => exists cls, snd np = digits_after cls) pats ->
  detect_loop (pats ++ rest) s = Raise e <->
  (e = ValueError /\
   exists pre np post m,
     pats = pre ++ np :: post /\
     Forall (fun np => search (snd np) s = None) pre /\
     search (snd np) s = Some m /\ too_long (group 1 m))
  \/ (Forall (fun np => search (snd np) s = None) pats /\
      detect_loop rest s = Raise e).
Proof.
  induction 1 as [|[n p] pats [cls Hp] _ IH]; cbn [app detect_loop].
  - split; [intros H; right; split; [constructor | assumption]|].
    intros [(_ & pre & np & post & m & Hs & _) | [_ H]]; [|assumption].
    destruct pre; discriminate.
  - cbn [snd] in Hp. subst p.
    destruct (search (digits_after cls) s) as [m|] eqn:E.
    + destruct (search_digits_run _ _ _ E) as [Hne Hds].
      split.
      * intros H. left.
        destruct (py_int (group 1 m)) as [v|e0] eqn:Ei; cbn [bind] in H; [discriminate|].
        injection H as <-. apply (py_int_run_raise _ _ Hne Hds) in Ei as [-> Hl].
        split; [reflexivity|]. exists [], (n, digits_after cls), pats, m.
        repeat split; [constructor | assumption | assumption].
      * intros [(-> & pre & np & post & m' & Hs & Hnone & Hm' & Hl) | [Hnone _]].
        -- destruct pre as [|x pre]; cbn [app] in Hs; injection Hs as <- ->.
           ++ cbn [snd] in Hm'. rewrite E in Hm'. injection Hm' as <-.
              now rewrite (proj2 (py_int_run_raise _ ValueError Hne Hds) (conj eq_refl Hl)).
           ++ inversion Hnone as [|? ? Hx _]; subst. cbn [snd] in Hx. congruence.
        -- inversion Hnone as [|? ? Hx _]; subst. cbn [snd] in Hx. congruence.
    + rewrite IH. split.
      * intros [(-> & pre & np & post & m & -> & Hnone & Hm & Hl) | [Hnone H]].
        -- left. split; [reflexivity|].
           exists ((n, digits_after cls) :: pre), np, post, m.
           repeat split; [constructor; assumption | assumption | assumption].
        -- right. split; [constructor; assumption | assumption].
      * intros [(-> & pre & np & post & m & Hs & Hnone & Hm & Hl) | [Hnone H]].
        -- destruct pre as [|x pre]; cbn [app] in Hs; injection Hs as <- ->.
           ++ cbn [snd] in Hm. congruence.
           ++ left. split; [reflexivity|]. exists pre, np, post, m.
              inversion Hnone; subst. auto.
        -- right. inversion Hnone; subst. auto.
Qed.

Lemma leading_seven_plain :
  Forall (fun np : string * regex => exists cls, snd np = digits_after cls)
         (firstn 7 PATTERNS).
Proof.
  repeat constructor; cbn [snd].
  - eexists. apply query_regex_shape.
  - eexists. apply query_regex_shape.
  - eexists. apply query_regex_shape.
  - eexists. apply query_regex_shape.
  - exists (map ascii_eqb (str_of_string "/page") ++ [is_slash_dash]). reflexivity.
  - exists (map ascii_eqb (str_of_string "/p/")). reflexivity.
  - exists (map ascii_eqb (str_of_string "/products/page") ++ [is_slash_dash]). reflexivity.
Qed.

(** [detect_pattern] raises nothing but [ValueError], and it raises in
    two cases only, for the first pattern that occurs in the
    lower-cased URL: one of the seven patterns before the generic one
    whose leftmost occurrence has more than 4300 digits, or the generic
    pattern when the key of its leftmost occurrence is not an integer
    literal or has more than 4300 digits. *)
Theorem detect_pattern_raises_iff :
  forall url : str,
    (forall e, detect_pattern url = Raise e -> e = ValueError) /\
    (detect_pattern url = Raise ValueError <->
     (exists pre np post m,
         firstn 7 PATTERNS = pre ++ np :: post /\
         Forall (fun np => search (snd np) (lower url) = None) pre /\
         search (snd np) (lower url) = Some m /\ too_long (group 1 m))
     \/
     (Forall (fun np => search (snd np) (lower url) = None) (firstn 7 PATTERNS) /\
      exists m, search generic_regex (lower url) = Some m /\
                (int_literal (group 1 m) = false \/ too_long (group 1 m)))).
Proof.
  intros url. unfold detect_pattern.
  change PATTERNS with (firstn 7 PATTERNS ++ [("query_custom"%string, generic_regex)]).
  assert (Hlast : forall e,
    detect_loop [("query_custom"%string, generic_regex)] (lower url) = Raise e <->
    e = ValueError /\
    exists m, search generic_regex (lower url) = Some m /\
              (int_literal (group 1 m) = false \/ too_long (group 1 m))).
  { intros e. cbn [detect_loop].
    destruct (search generic_regex (lower url)) as [m|].
    - unfold py_int, too_long.
      destruct (int_literal (group 1 m)) eqn:E; cbn [andb bind].
      + destruct (Z.leb_spec (Z.of_nat (length (List.filter (fun c => is_digit c)
                                                  (group 1 m))))
                             int_max_str_digits) as [Hl|Hl]; cbn [bind].
        * split; [discriminate|]. intros (_ & m' & [= <-] & [H|H]); [congruence | lia].
        * split; [intros [= <-]; eauto 6 | intros [-> _]; reflexivity].
      + split; [intros [= <-]; eauto 6 | intros [-> _]; reflexivity].
    - split; [discriminate | intros (_ & m & [=] & _)]. }
  split.
  - intros e H.
    apply (detect_loop_plain_raise _ _ _ _ leading_seven_plain) in H as [[-> _] | [_ H]];
      [reflexivity | now apply Hlast in H].
  - rewrite (detect_loop_plain_raise _ _ _ _ leading_seven_plain), Hlast. tauto.
Qed.

(** Both cases occur: a page number of 4301 digits, and a generic
    parameter whose key is a word. *)
Lemma detect_pattern_raises_examples :
  detect_pattern (str_of_string "https://x.com/items?page=" ++ repeat "7"%char 4301)
  = Raise ValueError /\
  (exists info,
      detect_pattern (str_of_string "https://x.com/items?page=" ++ repeat "7"%char 4300)
      = Ok info /\ pattern_type info = "query_page"%string) /\
  detect_pattern (str_of_string "https://x.com/items?limit=30") = Raise ValueError.
Proof.
  split; [vm_compute; reflexivity|]. split; [|vm_compute; reflexivity].
  eexists. split; [vm_compute; reflexivity | reflexivity].
Qed.




End PaginationEdges.

(** ** Recovery: what the cap bounds and what it does not *)

Section RecoveryCap.

Import MonitoringService.

(** ** What the cap bounds and what it does not *)

(** From the creation of the service on, with a cap of at least one, no
    sequence of detected stops and operator resets takes the counter of
    any project above the cap. *)
Theorem recovery_counter_invariant :
  forall (cap : Z) (events : list event),
    1 <= cap -> attempts_bounded (run events (init cap)).
Proof.
  intros cap events Hcap. apply run_bounded; [exact Hcap | apply init_bounded].
Qed.

Lemma recovery_counter_invariant_witness :
  attempts_bounded
    (run [StopDetected Succeeded (str_of_string "tk");
          StopDetected Succeeded (str_of_string "tk");
          CounterReset (str_of_string "tk");
          StopDetected Failed (str_of_string "tk")] (init 1)).
Proof. apply (recovery_counter_invariant 1); lia. Defined.

(** At the cap a detected stop is ignored; once the operator has reset
    the counter the next detected stop calls the recovery service
    again. *)
Theorem reset_reenables_recovery :
  forall (s : service) (token : str) (n : Z) (answer : recovery_answer),
    recovery_attempts s !! token = Some n ->
    max_recovery_attempts s <= n ->
    _handle_stop_detected answer token s = s /\
    let s' := _handle_stop_detected answer token (reset_recovery_counter token s) in
    recovery_calls s' = recovery_calls s ++ [token] /\
    recovery_attempts s' !! token
    = Some (match answer with Succeeded => 1 | _ => 0 end).
Proof.
  intros s token n answer Hn Hcap. split; [now apply (cap_reached_no_action _ _ _ n)|].
  cbv zeta. unfold _handle_stop_detected, reset_recovery_counter.
  cbn [recovery_attempts max_recovery_attempts recovery_calls].
  rewrite lookup_delete_eq. unfold trigger_recovery.
  cbn [recovery_attempts max_recovery_attempts recovery_calls].
  destruct answer; cbn [recovery_attempts recovery_calls];
    rewrite ?lookup_insert_eq; cbn; rewrite ?lookup_insert_eq; auto.
Qed.

Lemma reset_reenables_recovery_witness :
  let s := Service {[ str_of_string "tk" := 3 ]} 3 [] in
  _handle_stop_detected Succeeded (str_of_string "tk") s = s /\
  let s' := _handle_stop_detected Succeeded (str_of_string "tk")
              (reset_recovery_counter (str_of_string "tk") s) in
  recovery_calls s' = recovery_calls s ++ [str_of_string "tk"] /\
  recovery_attempts s' !! (str_of_string "tk") = Some 1.
Proof.
  apply (reset_reenables_recovery (Service {[ str_of_string "tk" := 3 ]} 3 [])
           (str_of_string "tk") 3 Succeeded).
  - apply lookup_singleton_eq.
  - cbn. lia.
Defined.

Lemma run_snoc events ev s : run (events ++ [ev]) s = step (run events s) ev.
Proof. unfold run. now rewrite fold_left_app. Qed.

Lemma repeat_snoc {A} (x : A) n : repeat x (S n) = repeat x n ++ [x].
Proof. apply repeat_cons. Qed.

(** The state after [k >= 1] detected stops of one project, each answered
    by a successful recovery. *)
Lemma run_succeeding cap token (k : nat) :
  let c := Z.to_nat (Z.max cap 1) in
  run (repeat (StopDetected Succeeded token) (S k)) (init cap)
  = Service {[ token := Z.of_nat (Nat.min (S k) c) ]} cap
            (repeat token (Nat.min (S k) c)).
Proof.
  cbv zeta. induction k as [|k IH].
  - cbn [repeat run fold_left step]. unfold _handle_stop_detected, init, trigger_recovery.
    cbn [recovery_attempts max_recovery_attempts recovery_calls].
    rewrite lookup_empty. cbn [recovery_attempts max_recovery_attempts recovery_calls].
    rewrite lookup_insert_eq. cbn [default].
    replace (Nat.min 1 (Z.to_nat (Z.max cap 1))) with 1%nat by lia.
    cbn. f_equal. rewrite insert_insert_eq. apply insert_empty.
  - rewrite (repeat_snoc _ (S k)), run_snoc, IH. cbn [step].
    unfold _handle_stop_detected.
    cbn [recovery_attempts max_recovery_attempts recovery_calls].
    rewrite lookup_singleton_eq.
    destruct (Z.geb_spec (Z.of_nat (Nat.min (S k) (Z.to_nat (Z.max cap 1)))) cap) as [Hge|Hlt].
    + replace (Nat.min (S (S k)) (Z.to_nat (Z.max cap 1)))
        with (Nat.min (S k) (Z.to_nat (Z.max cap 1))) by lia.
      reflexivity.
    + unfold trigger_recovery.
      cbn [recovery_attempts max_recovery_attempts recovery_calls].
      rewrite lookup_singleton_eq. cbn [default].
      replace (Nat.min (S (S k)) (Z.to_nat (Z.max cap 1)))
        with (S (Nat.min (S k) (Z.to_nat (Z.max cap 1)))) by lia.
      rewrite insert_singleton_eq. rewrite (repeat_snoc token). f_equal.
      f_equal. unfold id. lia.
Qed.

(** When every recovery succeeds, [n] detected stops of a project lead
    to [min n cap] calls of the recovery service ([min n 1] for a cap
    below one: the first stop is always recovered). *)
Theorem recoveries_when_succeeding :
  forall (cap : Z) (token : str) (n : nat),
    recovery_calls (run (repeat (StopDetected Succeeded token) n) (init cap))
    = repeat token (Nat.min n (Z.to_nat (Z.max cap 1))).
Proof.
  intros cap token [|k]; [reflexivity|].
  pose proof (run_succeeding cap token k) as H. cbv zeta in H. now rewrite H.
Qed.

Lemma run_failing cap token answer (k : nat) :
  1 <= cap -> answer <> Succeeded ->
  run (repeat (StopDetected answer token) (S k)) (init cap)
  = Service {[ token := 0 ]} cap (repeat token (S k)).
Proof.
  intros Hcap Ha. induction k as [|k IH].
  - cbn [repeat run fold_left step]. unfold _handle_stop_detected, init, trigger_recovery.
    cbn [recovery_attempts max_recovery_attempts recovery_calls].
    rewrite lookup_empty. cbn [recovery_attempts max_recovery_attempts recovery_calls].
    rewrite insert_empty. destruct answer; [congruence | reflexivity | reflexivity].
  - rewrite (repeat_snoc _ (S k)), run_snoc, IH. cbn [step].
    unfold _handle_stop_detected.
    cbn [recovery_attempts max_recovery_attempts recovery_calls].
    rewrite lookup_singleton_eq.
    destruct (Z.geb_spec 0 cap) as [Hge|Hlt]; [lia|].
    unfold trigger_recovery.
    cbn [recovery_attempts max_recovery_attempts recovery_calls].
    rewrite <- (repeat_snoc token (S k)).
    destruct answer; [congruence | reflexivity | reflexivity].
Qed.

(** A recovery that fails or raises is not counted: with a cap of at
    least one, every one of [n] detected stops calls the recovery
    service again and the counter stays at zero. *)
Theorem failed_recoveries_are_retried :
  forall (cap : Z) (token : str) (answer : recovery_answer) (n : nat),
    1 <= cap -> answer <> Succeeded ->
    let s := run (repeat (StopDetected answer token) n) (init cap) in
    recovery_calls s = repeat token n /\
    (forall m, recovery_attempts s !! token = Some m -> m = 0).
Proof.
  intros cap token answer [|k] Hcap Ha; cbv zeta.
  - split; [reflexivity|]. intros m H. cbn in H. rewrite lookup_empty in H. discriminate.
  - rewrite run_failing by assumption. split; [reflexivity|].
    cbn [recovery_attempts]. rewrite lookup_singleton_eq. congruence.
Qed.

Lemma failed_recoveries_are_retried_witness :
  let s := run (repeat (StopDetected Failed (str_of_string "tk")) 5) (init 3) in
  recovery_calls s = repeat (str_of_string "tk") 5 /\
  (forall m, recovery_attempts s !! (str_of_string "tk") = Some m -> m = 0).
Proof.
  apply (failed_recoveries_are_retried 3 (str_of_string "tk") Failed 5);
    [lia | discriminate].
Defined.

End RecoveryCap.

(** ** Session control: progress in steps of ten *)

Section SessionProgress.

Import SessionMonitor.

Section CycleFacts.
Variable get_original_url : Z -> option str.
Variable run_iteration : Z -> Z -> str -> str -> Z -> Z -> str -> iter_res.

(** A pass over a session short of its target, when the executor
    reports the end of the range it was given. *)
Lemma cycle_step (s : session) (url : str) :
  pages_completed s < total_pages_target s ->
  get_original_url (session_id s) = Some url -> url <> [] ->
  (forall i n t p a b u, run_iteration i n t p a b u = IterRes true b) ->
  let e := Z.min (pages_completed s + 10) (total_pages_target s) in
  dispatched (fst (cycle get_original_url run_iteration (Some s)))
  = Some (pages_completed s + 1, e) /\
  snd (cycle get_original_url run_iteration (Some s))
  = if e >=? total_pages_target s then None
    else Some (Session (session_id s) (project_token s) (project_name s)
                       (total_pages_target s) e (current_iteration s + 1)).
Proof.
  intros Hlt Hu Hne Hrun. destruct s as [sid tok name total done it].
  cbn [total_pages_target pages_completed session_id current_iteration
       project_token project_name] in *.
  destruct url as [|ch url']; [congruence|].
  unfold cycle, process_session.
  cbn [total_pages_target pages_completed session_id current_iteration
       project_token project_name].
  destruct (Z.geb_spec done total); [lia|]. rewrite Hu. cbn [length Nat.eqb].
  rewrite Hrun. cbn [success res_pages_completed].
  replace (done + 1 + 10 - 1) with (done + 10) by lia.
  cbv zeta. destruct (Z.min (done + 10) total >=? total); split; reflexivity.
Qed.
End CycleFacts.

(** A session of [total] pages that starts at page 0, with a registered
    URL and an executor that succeeds on every range it is given: after
    [k] passes [10 * k] pages are completed and the next pass dispatches
    [[10 * k + 1, min (10 * k + 10) total]], as long as [10 * k < total];
    from then on the session is complete and out of the store. *)
Theorem session_completes_in_steps_of_ten :
  forall (get_original_url : Z -> option str)
         (run_iteration : Z -> Z -> str -> str -> Z -> Z -> str -> iter_res)
         (s : session) (url : str) (k : nat),
    pages_completed s = 0 ->
    get_original_url (session_id s) = Some url -> url <> [] ->
    (forall i n t p a b u, run_iteration i n t p a b u = IterRes true b) ->
    let r := after_cycles get_original_url run_iteration k (Some s) in
    (10 * Z.of_nat k < total_pages_target s ->
     (exists s', r = Some s' /\ pages_completed s' = 10 * Z.of_nat k /\
                 total_pages_target s' = total_pages_target s) /\
     dispatched (fst (cycle get_original_url run_iteration r))
     = Some (10 * Z.of_nat k + 1,
             Z.min (10 * Z.of_nat k + 10) (total_pages_target s))) /\
    (0 < total_pages_target s <= 10 * Z.of_nat k -> r = None).
Proof.
  intros url_of run s url k Hd Hu Hne Hrun. cbv zeta.
  assert (Hinv : forall j : nat,
    (10 * Z.of_nat j < total_pages_target s ->
     exists s', after_cycles url_of run j (Some s) = Some s' /\
                pages_completed s' = 10 * Z.of_nat j /\
                total_pages_target s' = total_pages_target s /\
                session_id s' = session_id s) /\
    (0 < total_pages_target s <= 10 * Z.of_nat j ->
     after_cycles url_of run j (Some s) = None)).
  { induction j as [|j [IH1 IH2]].
    - split; [|lia]. intros _. exists s. cbn. rewrite Hd. auto.
    - cbn [after_cycles]. split.
      + intros Hlt. destruct IH1 as (s' & Hs' & Hp & Ht & Hi); [lia|].
        rewrite Hs'.
        destruct (cycle_step url_of run s' url) as [_ Hnext];
          [lia | now rewrite Hi | assumption | assumption |].
        rewrite Hnext. rewrite Hp, Ht.
        destruct (Z.geb_spec (Z.min (10 * Z.of_nat j + 10) (total_pages_target s))
                    (total_pages_target s)); [lia|].
        eexists. split; [reflexivity|]. cbn. repeat split; auto; lia.
      + intros Hge.
        destruct (Z.lt_ge_cases (10 * Z.of_nat j) (total_pages_target s)) as [Hlt|Hdone].
        * destruct IH1 as (s' & Hs' & Hp & Ht & Hi); [assumption|].
          rewrite Hs'.
          destruct (cycle_step url_of run s' url) as [_ Hnext];
            [lia | now rewrite Hi | assumption | assumption |].
          rewrite Hnext, Hp, Ht.
          destruct (Z.geb_spec (Z.min (10 * Z.of_nat j + 10) (total_pages_target s))
                      (total_pages_target s)); [reflexivity | lia].
        * rewrite IH2 by lia. reflexivity. }
  destruct (Hinv k) as [H1 H2]. split; [|exact H2].
  intros Hlt. destruct (H1 Hlt) as (s' & Hs' & Hp & Ht & Hi).
  split; [eauto|]. rewrite Hs'.
  destruct (cycle_step url_of run s' url) as [Hdis _];
    [lia | now rewrite Hi | assumption | assumption |].
  now rewrite Hdis, Hp, Ht.
Qed.

Lemma session_completes_in_steps_of_ten_witness :
  let r := after_cycles (fun _ => Some sample_url) ideal_executor 2 (Some sample_session) in
  (10 * Z.of_nat 2 < total_pages_target sample_session ->
   (exists s', r = Some s' /\ pages_completed s' = 10 * Z.of_nat 2 /\
               total_pages_target s' = total_pages_target sample_session) /\
   dispatched (fst (cycle (fun _ => Some sample_url) ideal_executor r))
   = Some (10 * Z.of_nat 2 + 1,
           Z.min (10 * Z.of_nat 2 + 10) (total_pages_target sample_session))) /\
  (0 < total_pages_target sample_session <= 10 * Z.of_nat 2 -> r = None).
Proof.
  apply (session_completes_in_steps_of_ten (fun _ => Some sample_url) ideal_executor
           sample_session sample_url 2).
  - reflexivity.
  - reflexivity.
  - discriminate.
  - reflexivity.
Defined.

(** Whatever the session, the registered URL and the executor's answer:
    [process_session] asks for pages after the completed ones, at most
    ten of them and none beyond the target; it reports progress only
    with what a successful executor returned; and it marks the session
    complete only when the completed pages, before or after the
    iteration, have reached the target. *)
Theorem process_session_safe :
  forall (get_original_url : Z -> option str)
         (run_iteration : Z -> Z -> str -> str -> Z -> Z -> str -> iter_res)
         (s : session),
    let calls := process_session get_original_url run_iteration s in
    (forall i n t p a b u,
        In (execute_iteration i n t p a b u) calls ->
        i = session_id s /\ get_original_url i = Some u /\ u <> [] /\
        a = pages_completed s + 1 /\ a <= b <= total_pages_target s /\ b < a + 10) /\
    (forall i n st,
        In (update_session_progress i n st) calls ->
        exists k t p a b u,
          In (execute_iteration i k t p a b u) calls /\
          run_iteration i k t p a b u = IterRes true n) /\
    (forall i,
        In (mark_session_complete i) calls ->
        total_pages_target s <= pages_completed s \/
        exists n st, In (update_session_progress i n st) calls /\
                     total_pages_target s <= n).
Proof.
  intros url_of run s. cbv zeta. unfold process_session.
  destruct (Z.geb_spec (pages_completed s) (total_pages_target s)) as [Hge|Hlt].
  - split; [intros i n t p a b u [[=] | []]|].
    split; [intros i n st [[=] | []] | intros i _; now left].
  - destruct (url_of (session_id s)) as [url|] eqn:Hu;
      [|split; [intros ? ? ? ? ? ? ? [] | split; [intros ? ? ? [] | intros ? []]]].
    destruct url as [|ch url'];
      [split; [intros ? ? ? ? ? ? ? [] | split; [intros ? ? ? [] | intros ? []]]|].
    cbn [length Nat.eqb].
    set (it := if current_iteration s =? 0 then 1 else current_iteration s).
    set (a0 := pages_completed s + 1).
    set (b0 := Z.min (a0 + 10 - 1) (total_pages_target s)).
    destruct (run (session_id s) it (project_token s) (project_name s) a0 b0 (ch :: url'))
      as [ok n0] eqn:Hres.
    cbn [success res_pages_completed].
    assert (Hexec : forall i n t p a b u tl,
      In (execute_iteration i n t p a b u)
         (execute_iteration (session_id s) it (project_token s) (project_name s)
            a0 b0 (ch :: url') :: tl) ->
      (forall c, In c tl -> match c with execute_iteration _ _ _ _ _ _ _ => False | _ => True end) ->
      i = session_id s /\ n = it /\ t = project_token s /\ p = project_name s /\
      a = a0 /\ b = b0 /\ u = ch :: url').
    { intros i n t p a b u tl [[= <- <- <- <- <- <- <-] | Hin] Htl; [repeat split|].
      destruct (Htl _ Hin). }
    destruct ok.
    + set (tl := update_session_progress (session_id s) n0 "running"%string
                   :: (if n0 >=? total_pages_target s
                       then [mark_session_complete (session_id s)] else [])).
      assert (Htl : forall c, In c tl ->
                match c with execute_iteration _ _ _ _ _ _ _ => False | _ => True end).
      { intros c [<- | Hc]; [exact I|].
        destruct (n0 >=? total_pages_target s); [destruct Hc as [<- | []]; exact I | destruct Hc]. }
      split; [|split].
      * intros i n t p a b u Hin.
        destruct (Hexec _ _ _ _ _ _ _ _ Hin Htl) as (-> & _ & _ & _ & -> & -> & ->).
        rewrite Hu. unfold a0, b0. repeat split; try discriminate; lia.
      * intros i n st [[=] | [[= <- <- <-] | Hin]].
        -- exists it, (project_token s), (project_name s), a0, b0, (ch :: url').
           split; [now left | exact Hres].
        -- destruct (n0 >=? total_pages_target s); [destruct Hin as [[=] | []] | destruct Hin].
      * intros i [[=] | [[=] | Hin]].
        destruct (Z.geb_spec n0 (total_pages_target s)) as [Hn|Hn];
          [destruct Hin as [[= <-] | []] | destruct Hin].
        right. exists n0, (str_of_string "running"). split; [right; now left | lia].
    + split; [|split].
      * intros i n t p a b u Hin.
        destruct (Hexec _ _ _ _ _ _ _ [] Hin ltac:(intros c [])) as (-> & _ & _ & _ & -> & -> & ->).
        rewrite Hu. unfold a0, b0. repeat split; try discriminate; lia.
      * intros i n st [[=] | []].
      * intros i [[=] | []].
Qed.

End SessionProgress.

(** ** Consolidation: counting, unique records, page numbers and
    tracking columns *)

Section Unique.

Import DataConsolidationService.

Variable unique_key : option str.

Lemma unique_step_spec st r st' :
  unique_inv unique_key st -> unique_step unique_key st r = Ok st' ->
  unique_inv unique_key st' /\
  (unique_records st' = unique_records st /\ duplicates st' = duplicates st + 1 \/
   unique_records st' = unique_records st ++ [r] /\ duplicates st' = duplicates st) /\
  (exists u, In u (unique_records st') /\
             record_key unique_key u = record_key unique_key r).
Proof.
  intros [Hseen Hnd] H. unfold unique_step in H.
  destruct (record_key unique_key r) as [key|e] eqn:Ek; cbn [bind] in H; [|discriminate].
  destruct (bool_decide (key ∈ seen st)) eqn:Hd; injection H as <-;
    unfold unique_inv; cbn [seen unique_records duplicates].
  - apply bool_decide_eq_true in Hd. split; [split; assumption|].
    split; [left; auto|]. apply Hseen in Hd as (u & Hu & Hk). exists u. auto.
  - apply bool_decide_eq_false in Hd. split; [split|].
    + intros k. rewrite elem_of_union, elem_of_singleton, Hseen. split.
      * intros [-> | (u & Hu & Hk)].
        -- exists r. split; [apply in_or_app; right; now left | assumption].
        -- exists u. split; [apply in_or_app; now left | assumption].
      * intros (u & Hu & Hk). apply in_app_or in Hu as [Hu | [<- | []]].
        -- right. eauto.
        -- left. congruence.
    + rewrite map_app. cbn [map]. rewrite Ek.
      apply NoDup_app; [assumption | repeat constructor; intros [] |].
      intros a Ha [<- | []]. apply in_map_iff in Ha as (u & Hk & Hu).
      apply Hd, Hseen. eauto.
    + split; [right; auto|]. exists r. split; [apply in_or_app; right; now left | exact Ek].
Qed.

Lemma unique_loop_spec records : forall st st',
  unique_inv unique_key st -> unique_loop unique_key records st = Ok st' ->
  unique_inv unique_key st' /\
  (exists kept, unique_records st' = unique_records st ++ kept /\ sublist kept records) /\
  Z.of_nat (length (unique_records st')) + duplicates st'
  = Z.of_nat (length (unique_records st)) + duplicates st + Z.of_nat (length records) /\
  (forall r, In r records ->
             exists u, In u (unique_records st') /\
                       record_key unique_key u = record_key unique_key r).
Proof.
  induction records as [|r records IH]; intros st st' Hinv H; cbn [unique_loop] in H.
  - injection H as <-. split; [assumption|]. split.
    + exists []. rewrite app_nil_r. split; [reflexivity | constructor].
    + split; [cbn; lia | intros r []].
  - destruct (unique_step unique_key st r) as [st1|e] eqn:E1; cbn [bind] in H; [|discriminate].
    destruct (unique_step_spec _ _ _ Hinv E1) as (Hinv1 & Hcase & u1 & Hu1 & Hk1).
    destruct (IH _ _ Hinv1 H) as (Hinv' & (kept & Hkept & Hsub) & Hcount & Hall).
    split; [assumption|]. split; [|split].
    + destruct Hcase as [[E _] | [E _]]; rewrite E in Hkept.
      * exists kept. split; [assumption | now apply sublist_cons].
      * exists (r :: kept). rewrite <- app_assoc in Hkept. split; [assumption|].
        now apply sublist_skip.
    + cbn [length]. destruct Hcase as [[E1' E2] | [E1' E2]]; rewrite E1', E2 in Hcount;
        rewrite ?length_app in Hcount; cbn [length] in Hcount; lia.
    + intros x [<- | Hx]; [|auto].
      exists u1. split; [|assumption]. rewrite Hkept. apply in_or_app. now left.
Qed.

Lemma unique_loop_raises records : forall st,
  Exists (fun r => record_key unique_key r = Raise TypeError) records ->
  exists e, unique_loop unique_key records st = Raise e.
Proof.
  induction records as [|r records IH]; intros st H; [inversion H|].
  cbn [unique_loop]. destruct (unique_step unique_key st r) as [st1|e] eqn:E; cbn [bind]; [|eauto].
  inversion H as [? ? Hr | ? ? Hrs]; subst; [|auto].
  unfold unique_step in E. rewrite Hr in E. discriminate.
Qed.

Lemma unique_loop_runs records : forall st,
  Forall (fun r => exists key, record_key unique_key r = Ok key) records ->
  exists st', unique_loop unique_key records st = Ok st'.
Proof.
  induction records as [|r records IH]; intros st H; [cbn; eauto|].
  inversion H as [|? ? [key Hk] Hrs]; subst. cbn [unique_loop].
  unfold unique_step at 1. rewrite Hk. cbn [bind].
  destruct (bool_decide _); cbn [bind]; apply IH; assumption.
Qed.

Lemma snoc_split {A} (l upre upost : list A) (r u : A) :
  l ++ [r] = upre ++ u :: upost ->
  (upost = [] /\ upre = l /\ u = r) \/
  (exists upost0, upost = upost0 ++ [r] /\ l = upre ++ u :: upost0).
Proof.
  destruct upost as [|x upost _] using rev_ind; intros H.
  - left. change (upre ++ [u]) with (upre ++ [u]) in H.
    apply app_inj_tail in H as [-> ->]. auto.
  - right. exists upost.
    rewrite app_comm_cons, app_assoc in H. apply app_inj_tail in H as [-> ->]. auto.
Qed.

Lemma unique_step_first st r st' done :
  seen_of unique_key st done -> sublist (unique_records st) done ->
  first_kept unique_key (unique_records st) done ->
  unique_step unique_key st r = Ok st' ->
  seen_of unique_key st' (done ++ [r]) /\ sublist (unique_records st') (done ++ [r]) /\
  first_kept unique_key (unique_records st') (done ++ [r]).
Proof.
  intros Hseen Hsub Hfirst H. unfold unique_step in H.
  destruct (record_key unique_key r) as [key|e] eqn:Ek; cbn [bind] in H; [|discriminate].
  assert (Hold : first_kept unique_key (unique_records st) (done ++ [r])).
  { intros upre u upost E. destruct (Hfirst _ _ _ E) as (pre & post & -> & H1 & H2 & H3).
    exists pre, (post ++ [r]). rewrite <- app_assoc. split; [reflexivity|].
    split; [assumption|]. split; [now apply sublist_inserts_r | assumption]. }
  destruct (bool_decide (key ∈ seen st)) eqn:Hd; injection H as <-;
    cbn [seen unique_records duplicates].
  - apply bool_decide_eq_true in Hd. split; [|split].
    + intros k. rewrite (Hseen k). split.
      * intros (x & Hx & Hk). exists x. split; [apply in_or_app; now left | assumption].
      * intros (x & Hx & Hk). apply in_app_or in Hx as [Hx | [<- | []]]; [eauto|].
        apply Hseen. congruence.
    + now apply sublist_inserts_r.
    + exact Hold.
  - apply bool_decide_eq_false in Hd. split; [|split].
    + unfold seen_of. cbn [seen]. intros k.
      rewrite elem_of_union, elem_of_singleton, (Hseen k). split.
      * intros [-> | (x & Hx & Hk)].
        -- exists r. split; [apply in_or_app; right; now left | assumption].
        -- exists x. split; [apply in_or_app; now left | assumption].
      * intros (x & Hx & Hk). apply in_app_or in Hx as [Hx | [<- | []]].
        -- right. eauto.
        -- left. congruence.
    + now apply sublist_app.
    + intros upre u upost E. apply snoc_split in E as [(-> & -> & ->) | (upost0 & -> & E)].
      * exists done, []. split; [reflexivity|]. split; [assumption|].
        split; [constructor|]. apply Forall_forall. intros x Hx Hkx.
        apply Hd, Hseen. exists x. split; [assumption | congruence].
      * destruct (Hfirst _ _ _ E) as (pre & post & -> & H1 & H2 & H3).
        exists pre, (post ++ [r]). rewrite <- app_assoc. split; [reflexivity|].
        split; [assumption|]. split; [now apply sublist_app | assumption].
Qed.

Lemma unique_loop_first records : forall st st' done,
  seen_of unique_key st done -> sublist (unique_records st) done ->
  first_kept unique_key (unique_records st) done ->
  unique_loop unique_key records st = Ok st' ->
  first_kept unique_key (unique_records st') (done ++ records).
Proof.
  induction records as [|r records IH]; intros st st' done Hseen Hsub Hfirst H;
    cbn [unique_loop] in H.
  - injection H as <-. now rewrite app_nil_r.
  - destruct (unique_step unique_key st r) as [st1|e] eqn:E1; cbn [bind] in H; [|discriminate].
    destruct (unique_step_first _ _ _ _ Hseen Hsub Hfirst E1) as (Hs1 & Hb1 & Hf1).
    change (done ++ r :: records) with (done ++ [r] ++ records). rewrite app_assoc.
    eapply IH; eassumption.
Qed.

Lemma unique_inv_init : unique_inv unique_key (UniqueState ∅ [] 0).
Proof.
  split; [|constructor]. intros key. cbn. rewrite elem_of_empty. split; [intros [] |].
  intros (u & [] & _).
Qed.

End Unique.

Section ConsolidationFacts.

Import DataConsolidationService.

(** *** Counting lines and records *)

Lemma read_rows_count lines : forall r rows,
  Csv.read_rows r lines = Ok rows ->
  (length rows <= length lines + (if pending r then 1 else 0))%nat.
Proof.
  induction lines as [|line lines IH]; intros r rows H.
  - cbn [Csv.read_rows] in H. fold (pending r) in H.
    destruct (pending r); injection H as <-; cbn; lia.
  - cbn [Csv.read_rows] in H.
    destruct (Csv.process_chars r line) as [r'|e]; cbn [bind] in H; [|discriminate].
    destruct (Csv.state_eqb (Csv.state r') Csv.START_RECORD).
    + destruct (Csv.read_rows Csv.fresh lines) as [rows'|e] eqn:E; cbn [bind] in H;
        [|discriminate].
      injection H as <-. apply IH in E. cbn in *. lia.
    + apply IH in H. cbn [length]. destruct (pending r'), (pending r); lia.
Qed.

Lemma filter_length_le {A} (f : A -> bool) l : (length (List.filter f l) <= length l)%nat.
Proof. induction l as [|x l IH]; cbn; [lia|]. destruct (f x); cbn; lia. Qed.

(** [get_record_count] counts lines, the parser counts records: the
    count is never below the number of records parsed. *)
Theorem record_count_bounds_records :
  forall csv_text : str,
    Z.of_nat (length (snd (parse_csv_to_records csv_text)))
    <= get_record_count csv_text.
Proof.
  intros b. unfold get_record_count, parse_csv_to_records, Csv.DictReader, Csv.reader_rows.
  destruct (Csv.read_rows Csv.fresh (split_lines (strip b))) as [rows|e] eqn:E;
    cbn [bind snd length]; [|lia].
  apply read_rows_count in E. cbn in E.
  destruct rows as [|h rows]; cbn [snd length]; [lia|].
  rewrite length_map. pose proof (filter_length_le (fun row => negb (Csv.is_blank row)) rows).
  cbn [length] in E. lia.
Qed.

(** *** Unique records *)

(** When every record has a key, [identify_unique_records] keeps the
    first record of every key, in input order, counts the others, and no
    two kept records share a key: the kept records are input records in
    input order, each stands in the input at a place before which no
    record has its key, and every input record has the key of a kept
    one; when a record holds a list under the key column the input
    comes back as it was, with a count of zero. *)
Theorem identify_unique_records_spec :
  forall (records : list Csv.record) (unique_key : option str),
    (Forall (fun r => exists key, record_key unique_key r = Ok key) records ->
     let '(unique, dups) := identify_unique_records records unique_key in
     sublist unique records /\
     Z.of_nat (length unique) + dups = Z.of_nat (length records) /\
     List.NoDup (map (record_key unique_key) unique) /\
     first_kept unique_key unique records /\
     (forall r, In r records ->
                exists u, In u unique /\
                          record_key unique_key u = record_key unique_key r))
    /\
    (Exists (fun r => record_key unique_key r = Raise TypeError) records ->
     identify_unique_records records unique_key = (records, 0)).
Proof.
  intros records k. split.
  - intros Hall. unfold identify_unique_records.
    destruct (unique_loop_runs k records (UniqueState ∅ [] 0) Hall) as [st' E].
    rewrite E.
    destruct (unique_loop_spec k records _ _ (unique_inv_init k) E)
      as ([_ Hnd] & (kept & Hkept & Hsub) & Hcount & Hin).
    assert (Hfirst : first_kept k (unique_records st') records).
    { apply (unique_loop_first k records (UniqueState ∅ [] 0) st' []); [| | |exact E].
      - intros key. cbn [seen]. rewrite elem_of_empty. split; [intros [] |].
        intros (x & [] & _).
      - constructor.
      - intros upre u upost Hu. destruct upre; discriminate. }
    cbn [unique_records duplicates app length] in *. rewrite Hkept in *.
    split; [assumption|]. split; [lia|]. split; [assumption|]. split; assumption.
  - intros Hex. unfold identify_unique_records.
    destruct (unique_loop_raises k records (UniqueState ∅ [] 0) Hex) as [e ->].
    reflexivity.
Qed.

(** Two records with one key and different contents: the first is the
    one kept. *)
Lemma identify_unique_records_keeps_first :
  identify_unique_records
    [[(Some (str_of_string "id"), Csv.VStr (str_of_string "7"));
      (Some (str_of_string "v"), Csv.VStr (str_of_string "old"))];
     [(Some (str_of_string "id"), Csv.VStr (str_of_string "7"));
      (Some (str_of_string "v"), Csv.VStr (str_of_string "new"))]]
    (Some (str_of_string "id"))
  = ([[(Some (str_of_string "id"), Csv.VStr (str_of_string "7"));
       (Some (str_of_string "v"), Csv.VStr (str_of_string "old"))]], 1).
Proof. vm_compute. reflexivity. Qed.

(** ** Deduplication in [merge_csv_data] *)

Lemma add_record_progress ms us r :
  same_progress ms us ->
  exists us', unique_step None us r = Ok us' /\
              same_progress (add_record generate_record_hash true ms r) us'.
Proof.
  intros (Hr & Hd & Hs). unfold unique_step, add_record. cbn [record_key bind].
  assert (Hiff : Some (generate_record_hash r) ∈ seen us
                 <-> generate_record_hash r ∈ record_hashes ms).
  { rewrite Hs. split; [intros (h & [= <-] & Hh); assumption | eauto]. }
  destruct (bool_decide (generate_record_hash r ∈ record_hashes ms)) eqn:E.
  - apply bool_decide_eq_true in E. rewrite bool_decide_eq_true_2 by now apply Hiff.
    eexists. split; [reflexivity|]. repeat split; cbn; try congruence; apply Hs.
  - apply bool_decide_eq_false in E. rewrite bool_decide_eq_false_2 by now rewrite Hiff.
    eexists. split; [reflexivity|]. repeat split; cbn; try congruence.
    + rewrite elem_of_union, elem_of_singleton, Hs.
      intros [-> | (h & -> & Hh)]; eexists; (split; [reflexivity|]);
        apply elem_of_union; [left; now apply elem_of_singleton | now right].
    + intros (h & -> & Hh). apply elem_of_union in Hh as [Hh | Hh].
      * apply elem_of_singleton in Hh as ->. apply elem_of_union. left.
        now apply elem_of_singleton.
      * apply elem_of_union. right. apply Hs. eauto.
Qed.

Lemma add_records_progress rs : forall ms us,
  same_progress ms us ->
  exists us', unique_loop None rs us = Ok us' /\
              same_progress (fold_left (add_record generate_record_hash true) rs ms) us'.
Proof.
  induction rs as [|r rs IH]; intros ms us H; [cbn; eauto|].
  destruct (add_record_progress ms us r H) as (us1 & E1 & H1).
  cbn [unique_loop fold_left]. rewrite E1. cbn [bind]. now apply IH.
Qed.

Lemma unique_loop_app k rs1 rs2 st st1 :
  unique_loop k rs1 st = Ok st1 ->
  unique_loop k (rs1 ++ rs2) st = unique_loop k rs2 st1.
Proof.
  revert st. induction rs1 as [|r rs1 IH]; intros st H; cbn [unique_loop app] in *.
  - now injection H as <-.
  - destruct (unique_step k st r) as [st'|e]; cbn [bind] in *; [auto | discriminate].
Qed.

Lemma add_files_progress fs : forall ms us,
  same_progress ms us ->
  exists us', unique_loop None (parsed_records fs) us = Ok us' /\
              same_progress (fold_left (add_file generate_record_hash true) fs ms) us'.
Proof.
  induction fs as [|f fs IH]; intros ms us H; [cbn; eauto|].
  cbn [fold_left parsed_records flat_map]. fold (parsed_records fs).
  rewrite add_file_records.
  set (ms0 := match headers ms with
              | None => MergeState (all_records ms) (Some (fst (parse_csv_to_records f)))
                                   (record_hashes ms) (duplicates_found ms)
              | Some _ => ms
              end).
  assert (H0 : same_progress ms0 us) by (unfold ms0; destruct (headers ms); exact H).
  destruct (add_records_progress (snd (parse_csv_to_records f)) ms0 us H0) as (us1 & E1 & H1).
  destruct (IH _ _ H1) as (us' & E' & H').
  exists us'. split; [|assumption]. now rewrite (unique_loop_app _ _ _ _ _ E1).
Qed.

(** [merge_csv_data] with deduplication keeps and counts what
    [identify_unique_records] keeps and counts, by fingerprint, over
    the records of all batches. *)
Theorem merge_deduplicates_like_identify :
  forall (csv_files : list str) (out : str) (n d : Z),
    merge_csv_data csv_files true = (out, n, d) ->
    out <> [] ->
    exists first rest,
      csv_files = first :: rest /\
      let h := fst (parse_csv_to_records first) in
      let '(unique, dups) := identify_unique_records (parsed_records csv_files) None in
      out = Csv.writerow h
              ++ flat_map (fun r => Csv.writerow (map (Csv.field_text r) h)) unique /\
      n = Z.of_nat (length unique) /\ d = dups.
Proof.
  intros files out n d Hm Hout.
  destruct files as [|f fs]; [cbv in Hm; congruence|].
  exists f, fs. split; [reflexivity|]. cbv zeta.
  assert (Hinit : same_progress merge_init (UniqueState ∅ [] 0)).
  { repeat split; cbn.
    - intros H. now apply elem_of_empty in H.
    - intros (h & _ & Hh). now apply elem_of_empty in Hh. }
  destruct (add_files_progress (f :: fs) _ _ Hinit) as (us & Eus & Hr & Hd & _).
  unfold identify_unique_records. rewrite Eus.
  unfold merge_csv_data, merge_with in Hm. rewrite merge_headers in Hm.
  set (st := fold_left _ (f :: fs) merge_init) in *.
  destruct (fst (parse_csv_to_records f)) as [|x h'] eqn:Eh;
    [cbn in Hm; congruence|].
  cbn [is_empty_headers] in Hm. unfold Csv.DictWriter_dump in Hm.
  destruct (Csv.writerows (x :: h') (all_records st)) as [body|] eqn:Ew;
    cbn [bind] in Hm; [|congruence].
  injection Hm as <- <- <-. apply writerows_ok in Ew as ->.
  rewrite Hr, Hd. auto.
Qed.

Lemma merge_deduplicates_like_identify_witness :
  exists first rest,
    [text_of_lines ["a,b"; "1,2"]; text_of_lines ["a,b"; "1,2"; "3,4"]]%string = first :: rest /\
    let h := fst (parse_csv_to_records first) in
    let '(unique, dups) :=
      identify_unique_records
        (parsed_records [text_of_lines ["a,b"; "1,2"]; text_of_lines ["a,b"; "1,2"; "3,4"]]%string)
        None in
    written_lines ["a,b"; "1,2"; "3,4"]%string
    = Csv.writerow h ++ flat_map (fun r => Csv.writerow (map (Csv.field_text r) h)) unique /\
    2 = Z.of_nat (length unique) /\ 1 = dups.
Proof.
  apply (merge_deduplicates_like_identify
           [text_of_lines ["a,b"; "1,2"]; text_of_lines ["a,b"; "1,2"; "3,4"]]%string
           (written_lines ["a,b"; "1,2"; "3,4"]%string) 2 1).
  - vm_compute. reflexivity.
  - vm_compute. discriminate.
Defined.

(** *** The page count of a batch *)

Lemma max_page_fold col records : forall m0,
  let m := fold_left (max_page_step col) records m0 in
  m0 <= m /\
  (forall r v, In r records -> page_value r col = Ok v -> v <= m) /\
  (m = m0 \/ exists r, In r records /\ page_value r col = Ok m).
Proof.
  induction records as [|r records IH]; intros m0; cbv zeta; cbn [fold_left].
  - split; [lia|]. split; [intros r v [] | now left].
  - destruct (IH (max_page_step col m0 r)) as (Hle & Hall & Hatt). cbv zeta in *.
    assert (Hstep : m0 <= max_page_step col m0 r /\
                    (forall v, page_value r col = Ok v -> v <= max_page_step col m0 r) /\
                    (max_page_step col m0 r = m0 \/
                     page_value r col = Ok (max_page_step col m0 r))).
    { unfold max_page_step. destruct (page_value r col) as [v|e].
      - split; [lia|]. split; [intros v' [= <-]; lia|].
        destruct (Z.max_spec m0 v) as [[_ ->] | [_ ->]]; auto.
      - split; [lia|]. split; [discriminate | now left]. }
    destruct Hstep as (H1 & H2 & H3).
    split; [lia|]. split.
    + intros x v [<- | Hx] Hv; [specialize (H2 _ Hv); lia | eauto].
    + destruct Hatt as [E | (x & Hx & Hv)].
      * rewrite E. destruct H3 as [H3 | H3]; [now left|].
        right. exists r. split; [now left | assumption].
      * right. exists x. split; [now right | assumption].
Qed.

(** [get_page_count_from_csv] is 0 exactly for a batch without records;
    with records and no header that has [page] in its name it is 1;
    otherwise it is at least 1, at least every number found in the page
    column, and it is 1 or one of these numbers. *)
Theorem page_count_bounds :
  forall csv_text : str,
    let headers := fst (parse_csv_to_records csv_text) in
    let records := snd (parse_csv_to_records csv_text) in
    let n := get_page_count_from_csv csv_text in
    (n = 0 <-> records = []) /\
    (records <> [] -> 1 <= n) /\
    (records <> [] -> page_column headers = None -> n = 1) /\
    (forall col r v,
        page_column headers = Some col -> In r records ->
        page_value r col = Ok v -> v <= n) /\
    (forall col,
        records <> [] -> page_column headers = Some col ->
        n = 1 \/ exists r, In r records /\ page_value r col = Ok n).
Proof.
  intros b. cbv zeta. unfold get_page_count_from_csv.
  destruct (parse_csv_to_records b) as [hs rs]. cbn [fst snd].
  destruct rs as [|r0 rs].
  - split; [tauto|]. split; [congruence|]. split; [congruence|].
    split; [intros col r v _ [] | congruence].
  - destruct (page_column hs) as [col|].
    + pose proof (max_page_fold col (r0 :: rs) 0) as (Hle & Hall & Hatt). cbv zeta in *.
      change (fold_left _ (r0 :: rs) 0) with (fold_left (max_page_step col) (r0 :: rs) 0).
      set (m := fold_left (max_page_step col) (r0 :: rs) 0) in *.
      destruct (Z.ltb_spec 0 m) as [Hpos|Hnp].
      * split; [split; [lia | discriminate]|]. split; [lia|]. split; [discriminate|].
        split.
        -- intros c r v [= <-] Hr Hv. eauto.
        -- intros c _ [= <-]. destruct Hatt as [E | Hx]; [lia | now right].
      * split; [split; [lia | discriminate]|]. split; [lia|]. split; [discriminate|].
        split.
        -- intros c r v [= <-] Hr Hv. specialize (Hall _ _ Hr Hv). lia.
        -- intros c _ _. now left.
    + split; [split; [lia | discriminate]|]. split; [lia|]. split; [reflexivity|].
      split; [discriminate | discriminate].
Qed.

(** *** Page tracking columns *)

Lemma writerows_raises h rs :
  Exists (fun r => Csv.dict_get None r <> None) rs ->
  exists e, Csv.writerows h rs = Raise e.
Proof.
  induction 1 as [r rs Hr | r rs _ [e IH]]; cbn [Csv.writerows].
  - assert (E : exists e, Csv.dict_to_list h r = Raise e).
    { unfold Csv.dict_to_list.
      destruct (List.filter _ r) as [|kv l] eqn:Ef; [|eauto]. exfalso. apply Hr.
      clear Hr. induction r as [|[k v] r IHr]; [reflexivity|].
      cbn [List.filter fst] in Ef. cbn [Csv.dict_get].
      destruct k as [k|].
      - cbn [Csv.key_eqb]. destruct (negb _); [discriminate | auto].
      - cbn in Ef. replace (existsb _ h) with false in Ef; [discriminate|].
        clear. induction h; cbn; auto. }
    destruct E as [e ->]. cbn. eauto.
  - destruct (Csv.dict_to_list h r); cbn [bind]; [|eauto]. rewrite IH. cbn. eauto.
Qed.

Lemma dict_get_set_other k k' v d :
  Csv.key_eqb k k' = false -> Csv.dict_get k (Csv.dict_set k' v d) = Csv.dict_get k d.
Proof.
  intros Hk. induction d as [|[k0 v0] d IH]; cbn [Csv.dict_set Csv.dict_get].
  - now rewrite Hk.
  - destruct (Csv.key_eqb k' k0) eqn:E.
    + cbn [Csv.dict_get]. rewrite Hk.
      destruct (Csv.key_eqb k k0) eqn:E2; [|reflexivity].
      destruct k as [a|], k' as [b|], k0 as [c|]; cbn in *; try discriminate.
      apply str_eqb_eq in E, E2. subst.
      rewrite (proj2 (str_eqb_eq c c) eq_refl) in Hk. discriminate.
    + cbn [Csv.dict_get]. now rewrite IH.
Qed.

Lemma with_field_rest name text r :
  Csv.dict_get None (with_field name text r) = Csv.dict_get None r.
Proof.
  unfold with_field. destruct (Csv.dict_get (Some name) r); [reflexivity|].
  now apply dict_get_set_other.
Qed.

Lemma add_field_ok name value r r' :
  add_field name value r = Ok r' -> r' = with_field name (str_of_int value) r.
Proof.
  unfold add_field, with_field. destruct (Csv.dict_get (Some name) r); [congruence|].
  destruct (py_str value) as [text|] eqn:E; cbn [bind]; [|discriminate].
  apply py_str_text in E as ->. congruence.
Qed.

Lemma add_field_within name value r :
  Z.abs value < int_str_bound ->
  add_field name value r = Ok (with_field name (str_of_int value) r).
Proof.
  intros H. unfold add_field, with_field.
  destruct (Csv.dict_get (Some name) r); [reflexivity|]. now rewrite py_str_within.
Qed.

Lemma add_fields_ok p i rs : forall rs',
  add_fields p i rs = Ok rs' -> rs' = map (tracked p i) rs.
Proof.
  induction rs as [|r rs IH]; intros rs'; cbn [add_fields map]; [congruence|].
  destruct (add_field _ p r) as [r1|] eqn:E1; cbn [bind]; [|discriminate].
  destruct (add_field _ i r1) as [r2|] eqn:E2; cbn [bind]; [|discriminate].
  destruct (add_fields p i rs) as [rs1|]; cbn [bind]; [|discriminate].
  intros [= <-]. apply add_field_ok in E1 as ->. apply add_field_ok in E2 as ->.
  now rewrite (IH rs1).
Qed.

Lemma add_fields_within p i rs :
  Z.abs p < int_str_bound -> Z.abs i < int_str_bound ->
  add_fields p i rs = Ok (map (tracked p i) rs).
Proof.
  intros Hp Hi. induction rs as [|r rs IH]; [reflexivity|].
  cbn [add_fields map]. rewrite (add_field_within _ p r Hp). cbn [bind].
  rewrite (add_field_within _ i _ Hi). cbn [bind]. now rewrite IH.
Qed.

(** A batch that gave no header and no record (an empty or unparsable
    one) is answered by a CSV with the two tracking columns alone; a
    batch with a row longer than its header is returned as it is. *)
Theorem page_tracker_edge_cases :
  forall (csv_text : str) (page_number iteration : Z),
    (parse_csv_to_records csv_text = ([], []) ->
     add_page_tracker_to_csv csv_text page_number iteration
     = written_lines ["source_page,source_iteration"]%string) /\
    (Exists (fun r => Csv.dict_get None r <> None) (snd (parse_csv_to_records csv_text)) ->
     add_page_tracker_to_csv csv_text page_number iteration = csv_text).
Proof.
  intros b p i. split.
  - intros H. unfold add_page_tracker_to_csv. rewrite H. reflexivity.
  - intros H. unfold add_page_tracker_to_csv.
    destruct (parse_csv_to_records b) as [hs rs]. cbn [snd] in H.
    destruct (add_fields p i rs) as [rs'|e0] eqn:Ea; cbn [bind]; [|reflexivity].
    apply add_fields_ok in Ea as ->.
    unfold Csv.DictWriter_dump.
    destruct (writerows_raises
                (add_column (str_of_string "source_iteration")
                   (add_column (str_of_string "source_page") hs))
                (map (tracked p i) rs)) as [e ->]; [|reflexivity].
    apply Exists_exists in H as (r & Hr & Hn). apply Exists_exists.
    eexists. split; [apply in_map; exact Hr|]. unfold tracked.
    now rewrite !with_field_rest.
Qed.

(** *** Rows through the dictionary *)

Lemma key_eqb_some_neq a b : a <> b -> Csv.key_eqb (Some a) (Some b) = false.
Proof.
  intros H. cbn. destruct (str_eqb a b) eqn:E; [|reflexivity].
  apply str_eqb_eq in E. contradiction.
Qed.

Lemma dict_get_set_same k v d : Csv.dict_get k (Csv.dict_set k v d) = Some v.
Proof.
  induction d as [|[k0 v0] d IH]; cbn [Csv.dict_set Csv.dict_get].
  - now rewrite key_eqb_refl.
  - destruct (Csv.key_eqb k k0) eqn:E; cbn [Csv.dict_get]; rewrite ?key_eqb_refl, ?E; auto.
Qed.

Lemma dict_get_zip f fs : forall xs d,
  ~ In f fs -> Csv.dict_get (Some f) (Csv.dict_zip fs xs d) = Csv.dict_get (Some f) d.
Proof.
  induction fs as [|g fs IH]; intros xs d Hn; [reflexivity|].
  destruct xs as [|x xs]; [reflexivity|]. cbn [Csv.dict_zip].
  rewrite IH by (intros H; apply Hn; now right).
  apply dict_get_set_other. apply key_eqb_some_neq. intros ->. apply Hn. now left.
Qed.

Lemma dict_get_fill f fs : forall d,
  ~ In f fs ->
  Csv.dict_get (Some f)
    (fold_left (fun d key => Csv.dict_set (Some key) Csv.VNone d) fs d)
  = Csv.dict_get (Some f) d.
Proof.
  induction fs as [|g fs IH]; intros d Hn; [reflexivity|]. cbn [fold_left].
  rewrite IH by (intros H; apply Hn; now right).
  apply dict_get_set_other. apply key_eqb_some_neq. intros ->. apply Hn. now left.
Qed.

(** The dictionary built from a row, before the two branches on the
    lengths are taken apart. *)
Lemma row_to_dict_short h row :
  (length row <= length h)%nat ->
  Csv.row_to_dict h row
  = fold_left (fun d key => Csv.dict_set (Some key) Csv.VNone d)
              (skipn (length row) h) (Csv.dict_zip h row []).
Proof.
  intros Hlen. unfold Csv.row_to_dict.
  destruct (Nat.ltb_spec (length h) (length row)); [lia|].
  destruct (Nat.ltb_spec (length row) (length h)); [reflexivity|].
  rewrite skipn_all2 by lia. reflexivity.
Qed.

Lemma fields_of_dict h : forall row d,
  List.NoDup h -> (length row <= length h)%nat ->
  map (Csv.field_text
         (fold_left (fun d key => Csv.dict_set (Some key) Csv.VNone d)
                    (skipn (length row) h) (Csv.dict_zip h row d))) h
  = padded h row.
Proof.
  induction h as [|f fs IH]; intros row d Hnd Hlen.
  - destruct row; [reflexivity | cbn in Hlen; lia].
  - inversion Hnd as [|? ? Hf Hfs]; subst. destruct row as [|x xs].
    + cbn [length skipn Csv.dict_zip fold_left map]. unfold padded. cbn [app length Nat.sub repeat].
      f_equal.
      * unfold Csv.field_text. rewrite dict_get_fill by assumption.
        now rewrite dict_get_set_same.
      * specialize (IH [] (Csv.dict_set (Some f) Csv.VNone d) Hfs ltac:(cbn; lia)).
        cbn [length skipn] in IH. unfold padded in IH. cbn [app length] in IH.
        rewrite Nat.sub_0_r in IH. destruct fs; exact IH.
    + cbn [length skipn Csv.dict_zip map]. unfold padded. cbn [app length Nat.sub].
      f_equal.
      * unfold Csv.field_text.
        rewrite dict_get_fill by (intros H; apply Hf; apply (skipn_incl _ _ _ H)).
        rewrite dict_get_zip by assumption. now rewrite dict_get_set_same.
      * apply IH; [assumption | cbn in Hlen; lia].
Qed.

(** Written back, a row that is not longer than a header without
    repeated names is the row itself, padded. *)
Lemma row_fields h row :
  List.NoDup h -> (length row <= length h)%nat ->
  map (Csv.field_text (Csv.row_to_dict h row)) h = padded h row.
Proof.
  intros Hnd Hlen. rewrite row_to_dict_short by assumption. now apply fields_of_dict.
Qed.

(** A batch whose header has no repeated name and no row longer than
    the header comes back from a merge on its own as its header and its
    non-blank rows, short rows padded with empty fields. *)
Theorem merge_single_batch :
  forall (b : str) (h : list str) (rows : list (list str)),
    batch_rows b = Ok (h :: rows) ->
    h <> [] -> List.NoDup h ->
    Forall (fun row => (length row <= length h)%nat) rows ->
    merge_csv_data [b] false
    = (Csv.writerow h ++ flat_map (fun row => Csv.writerow (padded h row)) (data_rows rows),
       Z.of_nat (length (data_rows rows)), 0).
Proof.
  intros b h rows Hb Hne Hnd Hrows.
  pose proof (parse_of_rows _ _ _ Hb) as Hp. fold (data_rows rows) in Hp.
  assert (Hst : fold_left (add_file generate_record_hash false) [b] merge_init
                = MergeState (map (Csv.row_to_dict h) (data_rows rows)) (Some h) ∅ 0).
  { cbn [fold_left]. rewrite add_file_records, Hp. cbn [headers merge_init fst snd].
    assert (E : forall rs st,
      fold_left (add_record generate_record_hash false) rs st
      = MergeState (all_records st ++ rs) (headers st) (record_hashes st)
                   (duplicates_found st)).
    { induction rs as [|r rs IH]; intros st; cbn [fold_left].
      - rewrite app_nil_r. now destruct st.
      - rewrite IH. cbn. now rewrite <- app_assoc. }
    now rewrite E. }
  unfold merge_csv_data.
  pose proof (merge_with_result generate_record_hash false b []) as Hm. cbv zeta in Hm.
  rewrite Hp in Hm. cbn [fst] in Hm. rewrite Hst in Hm. cbn [all_records duplicates_found] in Hm.
  assert (Hrows' : Forall (fun row => (length row <= length h)%nat) (data_rows rows)).
  { apply Forall_forall. intros row Hin. apply filter_In in Hin as [Hin _].
    exact (proj1 (Forall_forall _ _) Hrows row Hin). }
  rewrite Hm.
  - rewrite length_map. f_equal. f_equal. f_equal.
    clear - Hnd Hrows'. induction Hrows' as [|row rs Hrow _ IH]; [reflexivity|].
    cbn [map flat_map]. now rewrite IH, row_fields.
  - assumption.
  - apply Forall_forall. intros r Hr. apply in_map_iff in Hr as (row & <- & Hin).
    apply fits_row_to_dict. exact (proj1 (Forall_forall _ _) Hrows' row Hin).
Qed.

Lemma merge_single_batch_witness :
  merge_csv_data [text_of_lines ["a,b,c"; "1,2"; ""; "3,4,5"]%string] false
  = (Csv.writerow [str_of_string "a"; str_of_string "b"; str_of_string "c"]
       ++ flat_map (fun row => Csv.writerow
                      (padded [str_of_string "a"; str_of_string "b"; str_of_string "c"] row))
            (data_rows [[str_of_string "1"; str_of_string "2"]; [];
                        [str_of_string "3"; str_of_string "4"; str_of_string "5"]]),
     Z.of_nat (length (data_rows [[str_of_string "1"; str_of_string "2"]; [];
                        [str_of_string "3"; str_of_string "4"; str_of_string "5"]])), 0).
Proof.
  apply (merge_single_batch (text_of_lines ["a,b,c"; "1,2"; ""; "3,4,5"]%string)
           [str_of_string "a"; str_of_string "b"; str_of_string "c"]
           [[str_of_string "1"; str_of_string "2"]; [];
            [str_of_string "3"; str_of_string "4"; str_of_string "5"]]).
  - vm_compute. reflexivity.
  - discriminate.
  - repeat constructor; cbn; intuition discriminate.
  - repeat constructor; cbn; lia.
Defined.

Lemma dict_get_outside h r k :
  fits h r = true -> ~ In k h -> Csv.dict_get (Some k) r = None.
Proof.
  intros Hfit Hk. induction r as [|[k0 v0] r IH]; [reflexivity|].
  rewrite fits_cons in Hfit. apply andb_true_iff in Hfit as [H0 Hfit]. cbn [fst] in H0.
  cbn [Csv.dict_get]. destruct (Csv.key_eqb (Some k) k0) eqn:E; [|auto].
  exfalso. apply existsb_exists in H0 as (f & Hf & Hkf).
  destruct k0 as [k0|]; [|discriminate]. cbn in E, Hkf.
  apply str_eqb_eq in E, Hkf. subst. contradiction.
Qed.

Lemma add_column_new name h : ~ In name h -> add_column name h = h ++ [name].
Proof.
  intros Hn. unfold add_column. destruct (existsb (str_eqb name) h) eqn:E; [|reflexivity].
  apply existsb_exists in E as (x & Hx & Hnx). apply str_eqb_eq in Hnx. subst. contradiction.
Qed.

(** The fields of a record with the two tracking fields added. *)
Lemma tracked_fields h r (sp si vp vi : str) :
  fits h r = true -> ~ In sp h -> ~ In si h -> sp <> si ->
  let r' := with_field si vi (with_field sp vp r) in
  fits (h ++ [sp; si]) r' = true /\
  map (Csv.field_text r') (h ++ [sp; si]) = map (Csv.field_text r) h ++ [vp; vi].
Proof.
  intros Hfit Hsp Hsi Hne. cbv zeta.
  assert (E1 : with_field sp vp r = Csv.dict_set (Some sp) (Csv.VStr vp) r).
  { unfold with_field. now rewrite (dict_get_outside h r sp Hfit Hsp). }
  assert (E2 : with_field si vi (with_field sp vp r)
               = Csv.dict_set (Some si) (Csv.VStr vi)
                   (Csv.dict_set (Some sp) (Csv.VStr vp) r)).
  { rewrite E1. unfold with_field.
    rewrite dict_get_set_other by (apply key_eqb_some_neq; congruence).
    now rewrite (dict_get_outside h r si Hfit Hsi). }
  rewrite E2. split.
  - apply fits_dict_set; [apply in_or_app; right; cbn; auto|].
    apply fits_dict_set; [apply in_or_app; right; cbn; auto|].
    apply (fits_incl h); [|assumption]. intros x Hx. apply in_or_app. now left.
  - rewrite map_app. cbn [map]. f_equal.
    + apply map_ext_in. intros f Hf. unfold Csv.field_text.
      rewrite !dict_get_set_other; [reflexivity | |];
        apply key_eqb_some_neq; intros ->; contradiction.
    + unfold Csv.field_text. f_equal.
      * rewrite dict_get_set_other by (apply key_eqb_some_neq; congruence).
        now rewrite dict_get_set_same.
      * now rewrite dict_get_set_same.
Qed.

(** For a batch whose header has no repeated name, lacks the two
    tracking columns and has no row longer than itself,
    [add_page_tracker_to_csv] writes the header with the two columns
    appended and every non-blank row, padded, followed by the page
    number and the iteration; when the batch has such a row and one of
    the two numbers has more than 4300 digits, the batch is returned as
    it is. *)
Theorem page_tracker_rows :
  forall (b : str) (h : list str) (rows : list (list str)) (page_number iteration : Z),
    batch_rows b = Ok (h :: rows) ->
    List.NoDup h ->
    Forall (fun row => (length row <= length h)%nat) rows ->
    ~ In (str_of_string "source_page") h ->
    ~ In (str_of_string "source_iteration") h ->
    (Z.abs page_number < int_str_bound -> Z.abs iteration < int_str_bound ->
     add_page_tracker_to_csv b page_number iteration
     = Csv.writerow (h ++ [str_of_string "source_page"; str_of_string "source_iteration"])
         ++ flat_map (fun row =>
                        Csv.writerow (padded h row
                                        ++ [str_of_int page_number; str_of_int iteration]))
              (data_rows rows)) /\
    (data_rows rows <> [] ->
     int_str_bound <= Z.abs page_number \/ int_str_bound <= Z.abs iteration ->
     add_page_tracker_to_csv b page_number iteration = b).
Proof.
  intros b h rows p i Hb Hnd Hrows Hsp Hsi.
  pose proof (parse_of_rows _ _ _ Hb) as Hp. fold (data_rows rows) in Hp.
  assert (Hrows' : Forall (fun row => (length row <= length h)%nat) (data_rows rows)).
  { apply Forall_forall. intros row Hin. apply filter_In in Hin as [Hin _].
    exact (proj1 (Forall_forall _ _) Hrows row Hin). }
  split.
  - intros Hpb Hib.
    unfold add_page_tracker_to_csv. rewrite Hp.
    rewrite (add_column_new _ h Hsp).
    rewrite add_column_new
      by (intros H; apply in_app_or in H as [H | [H | []]]; [contradiction | discriminate]).
    rewrite <- app_assoc. cbn [app].
    rewrite (add_fields_within p i _ Hpb Hib). cbn [bind].
    unfold Csv.DictWriter_dump. rewrite writerows_fits.
    + cbn [bind]. f_equal. rewrite map_map.
      clear - Hnd Hrows' Hsp Hsi. induction Hrows' as [|row rs Hrow _ IH]; [reflexivity|].
      cbn [map flat_map]. rewrite IH. f_equal.
      destruct (tracked_fields h (Csv.row_to_dict h row) (str_of_string "source_page")
                  (str_of_string "source_iteration") (str_of_int p) (str_of_int i)
                  (fits_row_to_dict h row Hrow) Hsp Hsi ltac:(discriminate)) as [_ E].
      cbv zeta in E. unfold tracked. rewrite E, row_fields by assumption. reflexivity.
    + apply Forall_forall. intros r Hr. apply in_map_iff in Hr as (r0 & <- & Hr0).
      apply in_map_iff in Hr0 as (row & <- & Hin).
      apply (tracked_fields h (Csv.row_to_dict h row) (str_of_string "source_page")
               (str_of_string "source_iteration") (str_of_int p) (str_of_int i));
        [| assumption | assumption | discriminate].
      apply fits_row_to_dict. exact (proj1 (Forall_forall _ _) Hrows' row Hin).
  - intros Hne Hbig.
    unfold add_page_tracker_to_csv. rewrite Hp.
    destruct (data_rows rows) as [|row rs]; [congruence|].
    inversion Hrows' as [|? ? Hrow _]; subst.
    pose proof (fits_row_to_dict h row Hrow) as Hfit.
    cbn [map add_fields]. unfold add_field at 1.
    rewrite (dict_get_outside h _ _ Hfit Hsp).
    destruct (Z.lt_ge_cases (Z.abs p) int_str_bound) as [Hpb|Hpb].
    + rewrite py_str_within by assumption. cbn [bind]. unfold add_field at 1.
      rewrite dict_get_set_other by (apply key_eqb_some_neq; discriminate).
      rewrite (dict_get_outside h _ _ Hfit Hsi).
      rewrite py_str_beyond by lia. reflexivity.
    + rewrite py_str_beyond by assumption. reflexivity.
Qed.

Lemma page_tracker_rows_witness :
  add_page_tracker_to_csv (text_of_lines ["a,b"; "1,2"; "3"]%string) 4 2
  = Csv.writerow ([str_of_string "a"; str_of_string "b"]
                    ++ [str_of_string "source_page"; str_of_string "source_iteration"])
      ++ flat_map (fun row =>
                     Csv.writerow (padded [str_of_string "a"; str_of_string "b"] row
                                     ++ [str_of_int 4; str_of_int 2]))
           (data_rows [[str_of_string "1"; str_of_string "2"]; [str_of_string "3"]]).
Proof.
  apply (proj1 (page_tracker_rows (text_of_lines ["a,b"; "1,2"; "3"]%string)
                  [str_of_string "a"; str_of_string "b"]
                  [[str_of_string "1"; str_of_string "2"]; [str_of_string "3"]] 4 2
                  ltac:(vm_compute; reflexivity)
                  ltac:(repeat constructor; cbn; intuition discriminate)
                  ltac:(repeat constructor; cbn; lia)
                  ltac:(cbn; intuition discriminate)
                  ltac:(cbn; intuition discriminate)));
    vm_compute; reflexivity.
Defined.

End ConsolidationFacts.

(** ** Page comparison at the target *)

Section PercentagesAtTarget.

Import PyFloat DataConsolidationService.

Lemma nearest_self n : 0 < n -> nearest n n = Finite 1 0.
Proof.
  intros Hn. unfold nearest. rewrite Z.abs_eq by lia.
  unfold nearest_pos. destruct (Z.eqb_spec n 0); [lia|].
  unfold grid_exponent. rewrite Z.sub_diag. cbn [Z.leb Z.compare].
  change (2 ^ 0) with 1. rewrite Z.mul_1_r, Z.leb_refl.
  change (Z.max (0 - 52) (-1074)) with (-52). cbn [Z.leb Z.compare Z.opp].
  rewrite (Z.mul_comm n), Z.div_mul, Z.mod_mul by lia.
  change (2 * 0) with 0.
  destruct (Z.ltb_spec n 0); [lia|]. destruct (Z.eqb_spec 0 n); [lia|]. cbn [orb andb].
  change (2 ^ 1024 <=? 2 ^ 52 * 2 ^ (-52)) with false. cbv iota.
  replace (Z.sgn n) with 1 by lia. vm_compute. reflexivity.
Qed.

(** A run that has reached its target reads exactly 100.0 and is
    complete with nothing remaining; a run that has not started reads
    0.0. *)
Theorem compare_pages_at_target :
  forall target : Z,
    0 < target ->
    compare_pages target target
    = Ok (Comparison true 0 target target (PFloat (Finite 25 2))) /\
    compare_pages 0 target
    = Ok (Comparison false target 0 target (PFloat (Finite 0 0))).
Proof.
  intros t Ht. unfold compare_pages. destruct (Z.ltb_spec 0 t); [|lia].
  unfold int_truediv. destruct (Z.eqb_spec t 0); [lia|].
  replace (Z.sgn t) with 1 by lia. rewrite !Z.mul_1_l, Z.abs_eq by lia. split.
  - rewrite (nearest_self t Ht). cbn [bind].
    change (mul_int (Finite 1 0) 100) with (Finite 25 2).
    change (round1 (PFloat (Finite 25 2))) with (Ok (PFloat (Finite 25 2))). cbn [bind].
    rewrite Z.leb_refl, Z.sub_diag. reflexivity.
  - change (nearest 0 t) with (Finite 0 0). cbn [bind].
    change (mul_int (Finite 0 0) 100) with (Finite 0 0).
    change (round1 (PFloat (Finite 0 0))) with (Ok (PFloat (Finite 0 0))). cbn [bind].
    destruct (Z.leb_spec t 0); [lia|]. rewrite Z.sub_0_r, Z.max_r by lia. reflexivity.
Qed.

Lemma compare_pages_at_target_witness :
  compare_pages 7 7 = Ok (Comparison true 0 7 7 (PFloat (Finite 25 2))) /\
  compare_pages 0 7 = Ok (Comparison false 7 0 7 (PFloat (Finite 0 0))).
Proof. apply (compare_pages_at_target 7). lia. Defined.

End PercentagesAtTarget.
